(** * Entitlement evaluator of kdex-tech/entitlements

    A shallow embedding of [entitlements/entitlements.go] and the proofs of
    the properties its specification states about it.

    - [Module Go] is the program on values: strings, slices as lists, maps
      as [gmap], a nil map as [None], a run-time panic as an explicit
      outcome.
    - [Module Mem] is the same program over a store of map objects and
      backing arrays, where maps are references and slices are windows with
      a length and a capacity, so that what a call does to the data of its
      caller can be stated.
    - [Module GoFacts] characterises the loops of the value-level program.
    - [Module Frame] shows that the store-level program writes to cells it
      has allocated itself only.
    - [Module Refine] shows that the store-level program returns, or panics,
      exactly as the value-level program does on the values the store shows.
    - [Module Laws] and [Module StoreLaws] hold further facts about the
      value-level program and about the clones in the store.
    - [Module Legacy] is the one-argument version of the checker that the
      repository holds beside [entitlements.go], and [Module LegacyFacts]
      characterises its loops.

    The properties of the specification come next, and further properties
    of the code last. *)

From Stdlib Require Import Ascii String.
From stdpp Require Import base option list strings gmap fin_maps.

Local Open Scope string_scope.
Local Open Scope list_scope.

(** ** Outcomes of a Go call: a returned value or a run-time panic *)

Inductive outcome (A : Type) : Type :=
  | Returned (a : A)
  | Panicked.
Arguments Returned {A} a.
Arguments Panicked {A}.

Definition obind {A B} (x : outcome A) (f : A → outcome B) : outcome B :=
  match x with
  | Returned a => f a
  | Panicked => Panicked
  end.

Notation "x ←! e1 ;; e2" := (obind e1 (fun x => e2))
  (at level 100, e1 at next level, e2 at level 200, right associativity,
   format "x  ←!  e1 ;;  '/' e2").

Module Go.

(** ** Data model *)

(** [map[string][]string]; [None] is the nil map.  A nil slice and an empty
    slice are both the empty list: the program only takes [len], ranges,
    appends and searches, which do not tell them apart. *)
Definition StringsMap : Type := option (gmap string (list string)).

Definition Entitlements : Type := StringsMap.
Definition Requirements : Type := list StringsMap.

Record EntitlementsChecker : Type := {
  anonymousEntitlements : list string;
  defaultScheme : string;
  grantReadyByDefault : bool
}.

Definition NewEntitlementsChecker
    (anonymousEntitlements : list string) (defaultScheme : string)
    (grantReadyByDefault : bool) : EntitlementsChecker :=
  let defaultScheme :=
    if String.eqb defaultScheme "" then "bearer" else defaultScheme in
  {| anonymousEntitlements := anonymousEntitlements;
     defaultScheme := defaultScheme;
     grantReadyByDefault := grantReadyByDefault |}.

(** ** Go primitives on maps *)

(** [v, ok := m[k]]: reading a nil map finds nothing. *)
Definition map_get (m : StringsMap) (k : string) : option (list string) :=
  match m with
  | None => None
  | Some m => m !! k
  end.

(** [m[k]]: the zero value (a nil slice) when the key is missing. *)
Definition map_index (m : StringsMap) (k : string) : list string :=
  default [] (map_get m k).

(** [m[k] = v]: panics on a nil map. *)
Definition map_assign (m : StringsMap) (k : string) (v : list string)
  : outcome StringsMap :=
  match m with
  | None => Panicked
  | Some m => Returned (Some (<[k := v]> m))
  end.

(** [for k, v := range m]: the entries of the map; Go leaves the order
    unspecified, [map_to_list] picks one, and the loops below are shown not
    to depend on it. *)
Definition map_range (m : StringsMap) : list (string * list string) :=
  match m with
  | None => []
  | Some m => map_to_list m
  end.

(** ** Library functions used by the program *)

(** [strings.Split(s, ":")]. *)
Fixpoint Split (s : string) : list string :=
  match s with
  | EmptyString => [EmptyString]
  | String c rest =>
      if Ascii.eqb c ":" then EmptyString :: Split rest
      else match Split rest with
           | [] => [String c EmptyString]
           | p :: ps => String c p :: ps
           end
  end.

(** [slices.Contains]. *)
Definition Contains (l : list string) (x : string) : bool :=
  existsb (String.eqb x) l.

(** [fmt.Sprintf("%s:%s:read", resource, resourceName)]. *)
Definition identity_of (resource resourceName : string) : string :=
  resource ++ ":" ++ resourceName ++ ":read".

(** ** The matching rule *)

(** The rewriting of a two-field split into [resource, "", verb]. *)
Definition short_syntax (parts : list string) : list string :=
  match parts with
  | [p0; p1] => [p0; ""; p1]
  | _ => parts
  end.

Definition entitlementMatches (entitlement requirement : string) : bool :=
  if String.eqb entitlement requirement then true
  else
    let parts := short_syntax (Split entitlement) in
    let requiredParts := short_syntax (Split requirement) in
    match parts, requiredParts with
    | [p0; p1; p2], [r0; r1; r2] =>
        if negb (String.eqb p0 r0) then false
        else if negb (String.eqb p2 "all") && negb (String.eqb p2 r2) then false
        else if String.eqb p1 "" || String.eqb p1 "*" then true
        else if String.eqb r1 "" || String.eqb r1 "*" then true
        else String.eqb p1 r1
    | _, _ => false
    end.

Fixpoint hasEntitlement (entitlements : list string) (requirement : string) : bool :=
  match entitlements with
  | [] => false
  | entitlement :: rest =>
      if entitlementMatches entitlement requirement then true
      else hasEntitlement rest requirement
  end.

Fixpoint satisfiesRequirement (entitlements requirement : list string) : bool :=
  match requirement with
  | [] => true
  | curRequirement :: rest =>
      if negb (hasEntitlement entitlements curRequirement) then false
      else satisfiesRequirement entitlements rest
  end.

(** The loop of [satisfiesAndRequirements] over the entries of the
    requirement in the order [order]. *)
Fixpoint satisfiesAndRequirements_loop (entitlements : StringsMap)
    (order : list (string * list string)) : bool :=
  match order with
  | [] => true
  | (re, requirementList) :: rest =>
      match map_get entitlements re with
      | None => false
      | Some entitlementList =>
          if negb (satisfiesRequirement entitlementList requirementList) then false
          else satisfiesAndRequirements_loop entitlements rest
      end
  end.

Definition satisfiesAndRequirements (entitlements requirement : StringsMap) : bool :=
  satisfiesAndRequirements_loop entitlements (map_range requirement).

(** ** Deep clones

    At the level of values a clone is a map rebuilt entry by entry; that it
    shares nothing with its argument is the subject of [Module Mem]. *)

Definition cloneStringsMap (m : StringsMap) : StringsMap :=
  match m with
  | None => None
  | Some _ =>
      Some (foldl (fun clone '(key, l) => <[key := l]> clone) ∅ (map_range m))
  end.

Definition deepCloneEntitlements (entitlements : StringsMap) : StringsMap :=
  cloneStringsMap entitlements.

Definition deepCloneRequirements (requirements : Requirements) : Requirements :=
  map cloneStringsMap requirements.

(** ** VerifyEntitlements *)

Section Checker.

Variable ec : EntitlementsChecker.

(** State of the anonymous-entitlement loops: the working map, the loop
    variable [entitlementList] and the flag [added]. *)
Definition anon_state : Type := StringsMap * list string * bool.

(** Body of the inner loop (lines 114-118). *)
Definition anon_body (scheme : string) (st : anon_state) (anonEntitlement : string)
  : outcome anon_state :=
  let '(entitlements, entitlementList, added) := st in
  if String.eqb scheme (defaultScheme ec)
     && negb (Contains entitlementList anonEntitlement)
  then
    let entitlementList := entitlementList ++ [anonEntitlement] in
    entitlements ←! map_assign entitlements scheme entitlementList;;
    Returned (entitlements, entitlementList, true)
  else Returned st.

Fixpoint anon_inner (scheme : string) (anons : list string) (st : anon_state)
  : outcome anon_state :=
  match anons with
  | [] => Returned st
  | anonEntitlement :: rest =>
      st ←! anon_body scheme st anonEntitlement;;
      anon_inner scheme rest st
  end.

(** The outer loop over the entries of the working map in the order
    [order].  The body writes only the key being visited, so the value bound
    by [range] is the one held when the loop started. *)
Fixpoint anon_outer (order : list (string * list string))
    (entitlements : StringsMap) (added : bool) : outcome (StringsMap * bool) :=
  match order with
  | [] => Returned (entitlements, added)
  | (scheme, entitlementList) :: rest =>
      st ←! anon_inner scheme (anonymousEntitlements ec)
              (entitlements, entitlementList, added);;
      anon_outer rest st.1.1 st.2
  end.

(** Lines 106-125: the entitlements the requirements are checked against. *)
Definition withAnonymous (entitlements : Entitlements) : outcome Entitlements :=
  if (0 <? length (anonymousEntitlements ec))%nat then
    let entitlements := deepCloneEntitlements entitlements in
    st ←! anon_outer (map_range entitlements) entitlements false;;
    let '(entitlements, added) := st in
    if negb added then
      map_assign entitlements (defaultScheme ec)
        (map_index entitlements (defaultScheme ec) ++ anonymousEntitlements ec)
    else Returned entitlements
  else Returned entitlements.

(** Lines 127-134. *)
Fixpoint anyRequirement (entitlements : Entitlements) (requirements : Requirements)
  : bool :=
  match requirements with
  | [] => false
  | requirement :: rest =>
      if satisfiesAndRequirements entitlements requirement then true
      else anyRequirement entitlements rest
  end.

Definition VerifyEntitlements (entitlements : Entitlements)
    (requirements : Requirements) : outcome bool :=
  if (length requirements =? 0)%nat then Returned true
  else
    entitlements ←! withAnonymous entitlements;;
    Returned (anyRequirement entitlements requirements).

(** ** VerifyResourceEntitlements *)

(** Lines 77-79: every entry receives the identity requirement. *)
Fixpoint addIdentity (identity : string) (requirements : Requirements)
  : outcome Requirements :=
  match requirements with
  | [] => Returned []
  | req :: rest =>
      req ←! map_assign req (defaultScheme ec)
               (map_index req (defaultScheme ec) ++ [identity]);;
      rest ←! addIdentity identity rest;;
      Returned (req :: rest)
  end.

Definition VerifyResourceEntitlements (resource resourceName : string)
    (entitlements : Entitlements) (requirements : Requirements) : outcome bool :=
  let requirements := deepCloneRequirements requirements in
  let identity := identity_of resource resourceName in
  requirements ←!
    (if (length requirements =? 0)%nat then
       Returned (requirements ++ [Some {[ defaultScheme ec := [identity] ]}])
     else addIdentity identity requirements);;
  let entitlements := deepCloneEntitlements entitlements in
  entitlements ←!
    (if grantReadyByDefault ec then
       map_assign entitlements (defaultScheme ec)
         (map_index entitlements (defaultScheme ec) ++ [identity])
     else Returned entitlements);;
  VerifyEntitlements entitlements requirements.

End Checker.

(** ** A checker and map literals for examples *)

Definition bearer_checker (anon : list string) : EntitlementsChecker :=
  NewEntitlementsChecker anon "" false.

Definition ents (l : list (string * list string)) : StringsMap :=
  Some (list_to_map l).

End Go.

(** * The program over an explicit store

    Go maps are references and slices are windows on backing arrays, so a
    callee can change what its caller sees.  This module runs the same
    program over a store of map objects and arrays; only the comparisons of
    strings are taken from [Module Go]. *)

Module Mem.

Definition loc : Type := nat.

(** A slice header: backing array ([None] for the nil slice), index of the
    first element in it, length and capacity. *)
Record slice : Type := Slice {
  base : option loc;
  off : nat;
  len : nat;
  cap : nat
}.

Definition nil_slice : slice := Slice None 0 0 0.

Definition is_nil (s : slice) : bool :=
  match base s with None => true | Some _ => false end.

(** The store: backing arrays of [[]string], map objects of type
    [map[string][]string], and backing arrays of [[]map[string][]string]
    (whose cells are map references, [None] for nil). *)
Record store : Type := Store {
  arrays : gmap loc (list string);
  maps : gmap loc (gmap string slice);
  rows : gmap loc (list (option loc))
}.

Definition empty_store : store := Store ∅ ∅ ∅.

(** ** Computations on the store *)

Definition M (A : Type) : Type := store → outcome A * store.

Definition ret {A} (a : A) : M A := fun σ => (Returned a, σ).

Definition panic {A} : M A := fun σ => (Panicked, σ).

Definition bind {A B} (c : M A) (k : A → M B) : M B :=
  fun σ =>
    match c σ with
    | (Returned a, σ') => k a σ'
    | (Panicked, σ') => (Panicked, σ')
    end.

Notation "x ←$ c ;; k" := (bind c (fun x => k))
  (at level 100, c at next level, k at level 200, right associativity).
Notation "c ;;$ k" := (bind c (fun _ => k))
  (at level 100, k at level 200, right associativity).

(** Loops over the elements of a list. *)
Fixpoint foreach {A} (xs : list A) (body : A → M unit) : M unit :=
  match xs with
  | [] => ret tt
  | x :: xs => body x ;;$ foreach xs body
  end.

Fixpoint fold_loop {A S} (xs : list A) (body : S → A → M S) (s : S) : M S :=
  match xs with
  | [] => ret s
  | x :: xs => s ←$ body s x ;; fold_loop xs body s
  end.

(** [for ... { if !body { return false } }; return true] *)
Fixpoint all_loop {A} (xs : list A) (body : A → M bool) : M bool :=
  match xs with
  | [] => ret true
  | x :: xs => b ←$ body x ;; if negb b then ret false else all_loop xs body
  end.

(** [for ... { if body { return true } }; return false] *)
Fixpoint any_loop {A} (xs : list A) (body : A → M bool) : M bool :=
  match xs with
  | [] => ret false
  | x :: xs => b ←$ body x ;; if b then ret true else any_loop xs body
  end.

(** ** Cells of the store *)

Definition alloc_array (cells : list string) : M loc :=
  fun σ =>
    let a := fresh (dom (arrays σ)) in
    (Returned a, Store (<[a := cells]> (arrays σ)) (maps σ) (rows σ)).

Definition read_array (a : loc) : M (list string) :=
  fun σ =>
    match arrays σ !! a with
    | Some cells => (Returned cells, σ)
    | None => (Panicked, σ)
    end.

Definition write_array (a : loc) (i : nat) (x : string) : M unit :=
  fun σ =>
    match arrays σ !! a with
    | Some cells =>
        if (i <? length cells)%nat
        then (Returned tt,
              Store (<[a := <[i := x]> cells]> (arrays σ)) (maps σ) (rows σ))
        else (Panicked, σ)
    | None => (Panicked, σ)
    end.

Definition alloc_map (obj : gmap string slice) : M loc :=
  fun σ =>
    let a := fresh (dom (maps σ)) in
    (Returned a, Store (arrays σ) (<[a := obj]> (maps σ)) (rows σ)).

Definition read_map (a : loc) : M (gmap string slice) :=
  fun σ =>
    match maps σ !! a with
    | Some obj => (Returned obj, σ)
    | None => (Panicked, σ)
    end.

Definition write_map (a : loc) (k : string) (v : slice) : M unit :=
  fun σ =>
    match maps σ !! a with
    | Some obj =>
        (Returned tt,
         Store (arrays σ) (<[a := <[k := v]> obj]> (maps σ)) (rows σ))
    | None => (Panicked, σ)
    end.

Definition alloc_row (cells : list (option loc)) : M loc :=
  fun σ =>
    let a := fresh (dom (rows σ)) in
    (Returned a, Store (arrays σ) (maps σ) (<[a := cells]> (rows σ))).

Definition read_row (a : loc) : M (list (option loc)) :=
  fun σ =>
    match rows σ !! a with
    | Some cells => (Returned cells, σ)
    | None => (Panicked, σ)
    end.

Definition write_row (a : loc) (i : nat) (m : option loc) : M unit :=
  fun σ =>
    match rows σ !! a with
    | Some cells =>
        if (i <? length cells)%nat
        then (Returned tt,
              Store (arrays σ) (maps σ) (<[a := <[i := m]> cells]> (rows σ)))
        else (Panicked, σ)
    | None => (Panicked, σ)
    end.

(** ** Go operations on slices and maps *)

Section Program.

(** The capacity the runtime picks when [append] has to reallocate, from the
    old capacity and the length needed; the language fixes only that the
    new array is large enough. *)
Variable growslice : nat → nat → nat.

Variable ec : Go.EntitlementsChecker.

(** The elements a slice of strings shows. *)
Definition elements (s : slice) : M (list string) :=
  match base s with
  | None => ret []
  | Some a => cells ←$ read_array a ;; ret (take (len s) (drop (off s) cells))
  end.

(** [make([]string, n)] *)
Definition make_strings (n : nat) : M slice :=
  a ←$ alloc_array (replicate n "") ;; ret (Slice (Some a) 0 n n).

(** Writing [xs] into the array [a] from the index [i] on. *)
Fixpoint store_cells (a : loc) (i : nat) (xs : list string) : M unit :=
  match xs with
  | [] => ret tt
  | x :: xs => write_array a i x ;;$ store_cells a (S i) xs
  end.

(** [copy(dst, src)] *)
Definition copy_strings (dst src : slice) : M unit :=
  xs ←$ elements src ;;
  match base dst with
  | None => ret tt
  | Some a => store_cells a (off dst) (take (len dst) xs)
  end.

(** [append(s, xs...)]: in place when the capacity allows, in a new array
    otherwise. *)
Definition append (s : slice) (xs : list string) : M slice :=
  let n := (len s + length xs)%nat in
  if (n <=? cap s)%nat then
    match base s with
    | Some a =>
        store_cells a (off s + len s) xs ;;$
        ret (Slice (Some a) (off s) n (cap s))
    | None => match xs with [] => ret s | _ => panic end
    end
  else
    old ←$ elements s ;;
    let c := Nat.max n (growslice (cap s) n) in
    a ←$ alloc_array (old ++ xs ++ replicate (c - n) "") ;;
    ret (Slice (Some a) 0 n c).

(** [slices.Contains] *)
Definition Contains (s : slice) (x : string) : M bool :=
  xs ←$ elements s ;; ret (Go.Contains xs x).

(** [v, ok := m[k]] *)
Definition map_get (m : option loc) (k : string) : M (option slice) :=
  match m with
  | None => ret None
  | Some a => obj ←$ read_map a ;; ret (obj !! k)
  end.

(** [m[k]] *)
Definition map_index (m : option loc) (k : string) : M slice :=
  v ←$ map_get m k ;; ret (default nil_slice v).

(** [m[k] = v] *)
Definition map_assign (m : option loc) (k : string) (v : slice) : M unit :=
  match m with
  | None => panic
  | Some a => write_map a k v
  end.

(** [for k, v := range m] *)
Definition map_range (m : option loc) : M (list (string * slice)) :=
  match m with
  | None => ret []
  | Some a => obj ←$ read_map a ;; ret (map_to_list obj)
  end.

(** The map references a slice of maps shows. *)
Definition row_elements (r : slice) : M (list (option loc)) :=
  match base r with
  | None => ret []
  | Some a => cells ←$ read_row a ;; ret (take (len r) (drop (off r) cells))
  end.

(** [make(Requirements, n)] *)
Definition make_row (n : nat) : M slice :=
  a ←$ alloc_row (replicate n None) ;; ret (Slice (Some a) 0 n n).

(** [r[i] = m] *)
Definition row_assign (r : slice) (i : nat) (m : option loc) : M unit :=
  match base r with
  | Some a => if (i <? len r)%nat then write_row a (off r + i) m else panic
  | None => panic
  end.

(** [append(r, m)] on a slice of maps. *)
Definition row_append (r : slice) (m : option loc) : M slice :=
  let n := S (len r) in
  if (n <=? cap r)%nat then
    match base r with
    | Some a =>
        write_row a (off r + len r) m ;;$
        ret (Slice (Some a) (off r) n (cap r))
    | None => panic
    end
  else
    old ←$ row_elements r ;;
    let c := Nat.max n (growslice (cap r) n) in
    a ←$ alloc_row (old ++ [m] ++ replicate (c - n) None) ;;
    ret (Slice (Some a) 0 n c).

(** ** The program *)

(** Lines 236-244 and 266-274: the copy of one list; nil stays nil. *)
Definition cloneList (l : slice) : M slice :=
  if is_nil l then ret nil_slice
  else
    newList ←$ make_strings (len l) ;;
    copy_strings newList l ;;$
    ret newList.

Definition cloneEntries (clone : loc) (entries : list (string * slice)) : M unit :=
  foreach entries (fun '(key, l) =>
    newList ←$ cloneList l ;;
    write_map clone key newList).

Definition deepCloneEntitlements (entitlements : option loc) : M (option loc) :=
  match entitlements with
  | None => ret None
  | Some _ =>
      clone ←$ alloc_map ∅ ;;
      entries ←$ map_range entitlements ;;
      cloneEntries clone entries ;;$
      ret (Some clone)
  end.

Definition deepCloneRequirements (requirements : slice) : M slice :=
  if is_nil requirements then ret nil_slice
  else
    clone ←$ make_row (len requirements) ;;
    reqMaps ←$ row_elements requirements ;;
    foreach (imap (fun i reqMap => (i, reqMap)) reqMaps) (fun '(i, reqMap) =>
      match reqMap with
      | None => ret tt
      | Some _ =>
          newMap ←$ alloc_map ∅ ;;
          entries ←$ map_range reqMap ;;
          cloneEntries newMap entries ;;$
          row_assign clone i (Some newMap)
      end) ;;$
    ret clone.

Definition hasEntitlement (entitlements : slice) (requirement : string) : M bool :=
  es ←$ elements entitlements ;; ret (Go.hasEntitlement es requirement).

Definition satisfiesRequirement (entitlements requirement : slice) : M bool :=
  rs ←$ elements requirement ;;
  all_loop rs (fun curRequirement => hasEntitlement entitlements curRequirement).

Definition satisfiesAndRequirements (entitlements requirement : option loc) : M bool :=
  entries ←$ map_range requirement ;;
  all_loop entries (fun '(re, requirementList) =>
    v ←$ map_get entitlements re ;;
    match v with
    | None => ret false
    | Some entitlementList => satisfiesRequirement entitlementList requirementList
    end).

(** Lines 114-118. *)
Definition anon_body (entitlements : option loc) (scheme : string)
    (st : slice * bool) (anonEntitlement : string) : M (slice * bool) :=
  let '(entitlementList, added) := st in
  if String.eqb scheme (Go.defaultScheme ec) then
    held ←$ Contains entitlementList anonEntitlement ;;
    if negb held then
      entitlementList ←$ append entitlementList [anonEntitlement] ;;
      map_assign entitlements scheme entitlementList ;;$
      ret (entitlementList, true)
    else ret st
  else ret st.

(** Lines 106-125. *)
Definition withAnonymous (entitlements : option loc) : M (option loc) :=
  if (0 <? length (Go.anonymousEntitlements ec))%nat then
    entitlements ←$ deepCloneEntitlements entitlements ;;
    entries ←$ map_range entitlements ;;
    added ←$ fold_loop entries (fun added '(scheme, entitlementList) =>
               st ←$ fold_loop (Go.anonymousEntitlements ec)
                       (anon_body entitlements scheme) (entitlementList, added) ;;
               ret st.2) false ;;
    (if negb added then
       l ←$ map_index entitlements (Go.defaultScheme ec) ;;
       l ←$ append l (Go.anonymousEntitlements ec) ;;
       map_assign entitlements (Go.defaultScheme ec) l
     else ret tt) ;;$
    ret entitlements
  else ret entitlements.

Definition VerifyEntitlements (entitlements : option loc) (requirements : slice)
  : M bool :=
  if (len requirements =? 0)%nat then ret true
  else
    entitlements ←$ withAnonymous entitlements ;;
    reqs ←$ row_elements requirements ;;
    any_loop reqs (fun requirement =>
      satisfiesAndRequirements entitlements requirement).

Definition VerifyResourceEntitlements (resource resourceName : string)
    (entitlements : option loc) (requirements : slice) : M bool :=
  requirements ←$ deepCloneRequirements requirements ;;
  let identity := Go.identity_of resource resourceName in
  requirements ←$
    (if (len requirements =? 0)%nat then
       l ←$ alloc_array [identity] ;;
       m ←$ alloc_map {[ Go.defaultScheme ec := Slice (Some l) 0 1 1 ]} ;;
       row_append requirements (Some m)
     else
       reqs ←$ row_elements requirements ;;
       foreach reqs (fun req =>
         l ←$ map_index req (Go.defaultScheme ec) ;;
         l ←$ append l [identity] ;;
         map_assign req (Go.defaultScheme ec) l) ;;$
       ret requirements) ;;
  entitlements ←$ deepCloneEntitlements entitlements ;;
  (if Go.grantReadyByDefault ec then
     l ←$ map_index entitlements (Go.defaultScheme ec) ;;
     l ←$ append l [identity] ;;
     map_assign entitlements (Go.defaultScheme ec) l
   else ret tt) ;;$
  VerifyEntitlements entitlements requirements.

End Program.

(** ** The caller's side: composite literals *)

(** [[]string{...}] *)
Definition literal_strings (xs : list string) : M slice :=
  a ←$ alloc_array xs ;; ret (Slice (Some a) 0 (length xs) (length xs)).

(** [map[string][]string{...}] *)
Definition literal_map (kvs : list (string * list string)) : M (option loc) :=
  m ←$ alloc_map ∅ ;;
  foreach kvs (fun '(k, xs) => l ←$ literal_strings xs ;; write_map m k l) ;;$
  ret (Some m).

(** [Requirements{...}] *)
Definition literal_requirements (rs : list (list (string * list string)))
  : M slice :=
  ms ←$ fold_loop rs (fun ms kvs => m ←$ literal_map kvs ;; ret (ms ++ [m])) [] ;;
  a ←$ alloc_row ms ;;
  ret (Slice (Some a) 0 (length ms) (length ms)).

(** A growth policy to run examples with: twice the length needed. *)
Definition double (old needed : nat) : nat := (2 * needed)%nat.

End Mem.

(** * Properties *)

Module GoFacts.
Import Go.

(** ** Strings and [Split] *)

Lemma eqb_true (a b : string) : String.eqb a b = true ↔ a = b.
Proof. apply String.eqb_eq. Qed.

Lemma eqb_false (a b : string) : String.eqb a b = false ↔ a ≠ b.
Proof. apply String.eqb_neq. Qed.

(** A string without the separator. *)
Fixpoint colon_free (s : string) : bool :=
  match s with
  | EmptyString => true
  | String c rest => negb (Ascii.eqb c ":") && colon_free rest
  end.

Lemma Split_colon_free (s : string) : colon_free s = true → Split s = [s].
Proof.
  induction s as [|c s IH]; simpl; [done|].
  intros [Hc Hs]%andb_prop. apply negb_true_iff in Hc. rewrite Hc.
  by rewrite (IH Hs).
Qed.

Lemma Split_field (f rest : string) :
  colon_free f = true → Split (f ++ ":" ++ rest) = f :: Split rest.
Proof.
  induction f as [|c f IH]; simpl; [done|].
  intros [Hc Hf]%andb_prop. apply negb_true_iff in Hc. rewrite Hc.
  by rewrite (IH Hf).
Qed.

Lemma Split_long (r n v : string) :
  colon_free r = true → colon_free n = true → colon_free v = true →
  Split (r ++ ":" ++ n ++ ":" ++ v) = [r; n; v].
Proof.
  intros Hr Hn Hv.
  by rewrite (Split_field r _ Hr), (Split_field n _ Hn), (Split_colon_free v Hv).
Qed.

(** ** The matching rule in the words of the specification *)

Definition is_wildcard (name : string) : bool :=
  String.eqb name "" || String.eqb name "*".

Definition verb_rule (held_verb required_verb : string) : bool :=
  String.eqb held_verb "all" || String.eqb held_verb required_verb.

Definition name_rule (held_name required_name : string) : bool :=
  is_wildcard held_name || is_wildcard required_name
  || String.eqb held_name required_name.

(** The number of fields of a string is 2 or 3. *)
Definition structured (s : string) : bool :=
  bool_decide (length (Split s) = 2 ∨ length (Split s) = 3).

Lemma verb_rule_spec (a b : string) :
  verb_rule a b = true ↔ a = "all" ∨ a = b.
Proof.
  unfold verb_rule. rewrite orb_true_iff, !eqb_true. tauto.
Qed.

Lemma name_rule_spec (a b : string) :
  name_rule a b = true ↔ a = "" ∨ a = "*" ∨ b = "" ∨ b = "*" ∨ a = b.
Proof.
  unfold name_rule, is_wildcard. rewrite !orb_true_iff, !eqb_true. tauto.
Qed.

Lemma short_syntax_length (parts : list string) :
  length (short_syntax parts) = 3 ↔ length parts = 2 ∨ length parts = 3.
Proof.
  destruct parts as [|a [|b [|c [|d parts]]]]; simpl; lia.
Qed.

Lemma entitlementMatches_refl (s : string) : entitlementMatches s s = true.
Proof. unfold entitlementMatches. by rewrite String.eqb_refl. Qed.

Lemma entitlementMatches_fields (held required p0 p1 p2 r0 r1 r2 : string) :
  short_syntax (Split held) = [p0; p1; p2] →
  short_syntax (Split required) = [r0; r1; r2] →
  entitlementMatches held required
  = String.eqb p0 r0 && verb_rule p2 r2 && name_rule p1 r1.
Proof.
  intros Hh Hr. unfold entitlementMatches, verb_rule, name_rule, is_wildcard.
  destruct (String.eqb held required) eqn:E.
  - apply eqb_true in E. subst required. rewrite Hh in Hr.
    injection Hr as <- <- <-. rewrite !String.eqb_refl.
    by rewrite !orb_true_r.
  - rewrite Hh, Hr.
    destruct (String.eqb p0 r0), (String.eqb p2 "all"), (String.eqb p2 r2),
      (String.eqb p1 ""), (String.eqb p1 "*"), (String.eqb r1 ""),
      (String.eqb r1 "*"); reflexivity.
Qed.

Lemma entitlementMatches_unstructured (held required : string) :
  structured held = false ∨ structured required = false →
  entitlementMatches held required = String.eqb held required.
Proof.
  intros H. unfold entitlementMatches.
  destruct (String.eqb held required); [done|].
  assert (length (short_syntax (Split held)) ≠ 3
          ∨ length (short_syntax (Split required)) ≠ 3) as Hlen.
  { unfold structured in H. rewrite !short_syntax_length.
    destruct H as [H|H]; apply bool_decide_eq_false in H; tauto. }
  destruct (short_syntax (Split held)) as [|a [|b [|c [|d ?]]]];
    destruct (short_syntax (Split required)) as [|a' [|b' [|c' [|d' ?]]]];
    simpl in *; try done; lia.
Qed.

(** ** The loops as quantifiers *)

Lemma Contains_true (l : list string) (x : string) :
  Contains l x = true ↔ x ∈ l.
Proof.
  unfold Contains. rewrite existsb_exists. split.
  - intros (y & Hy & E). apply eqb_true in E. subst y. by apply list_elem_of_In.
  - intros Hx. exists x. split; [by apply list_elem_of_In|apply String.eqb_refl].
Qed.

Lemma hasEntitlement_true (l : list string) (r : string) :
  hasEntitlement l r = true ↔ ∃ e, e ∈ l ∧ entitlementMatches e r = true.
Proof.
  induction l as [|e l IH]; simpl.
  - split; [done|]. intros (e & He & _). by apply elem_of_nil in He.
  - destruct (entitlementMatches e r) eqn:E.
    + split; [|done]. intros _. exists e. split; [left|done].
    + rewrite IH. split.
      * intros (e' & He' & Hm). exists e'. split; [by right|done].
      * intros (e' & He' & Hm). apply elem_of_cons in He' as [->|He'].
        -- congruence.
        -- by exists e'.
Qed.

Lemma satisfiesRequirement_true (l rs : list string) :
  satisfiesRequirement l rs = true ↔ ∀ r, r ∈ rs → hasEntitlement l r = true.
Proof.
  induction rs as [|r rs IH]; simpl.
  - split; [|done]. intros _ r Hr. by apply elem_of_nil in Hr.
  - destruct (hasEntitlement l r) eqn:E; simpl.
    + rewrite IH. split.
      * intros H r' [->|Hr']%elem_of_cons; auto.
      * intros H r' Hr'. apply H. by right.
    + split; [done|]. intros H. rewrite <- E. apply H. left.
Qed.

Lemma satisfiesAndRequirements_loop_true
    (e : StringsMap) (order : list (string * list string)) :
  satisfiesAndRequirements_loop e order = true
  ↔ ∀ k rl, (k, rl) ∈ order →
      ∃ el, map_get e k = Some el ∧ satisfiesRequirement el rl = true.
Proof.
  induction order as [|[k rl] order IH]; simpl.
  - split; [|done]. intros _ k rl H. by apply elem_of_nil in H.
  - destruct (map_get e k) as [el|] eqn:Ek.
    + destruct (satisfiesRequirement el rl) eqn:Es; simpl.
      * rewrite IH. split.
        -- intros H k' rl' [[= -> ->]|H']%elem_of_cons; eauto.
        -- intros H k' rl' H'. apply H. by right.
      * split; [done|]. intros H.
        destruct (H k rl) as (el' & Hel' & Hs); [left|]. congruence.
    + split; [done|]. intros H.
      destruct (H k rl) as (el' & Hel' & Hs); [left|]. congruence.
Qed.

(** The order in which [range] enumerates a requirement does not matter. *)
Lemma satisfiesAndRequirements_loop_perm
    (e : StringsMap) (o1 o2 : list (string * list string)) :
  o1 ≡ₚ o2 →
  satisfiesAndRequirements_loop e o1 = satisfiesAndRequirements_loop e o2.
Proof.
  intros Hp. apply eq_true_iff_eq.
  rewrite !satisfiesAndRequirements_loop_true.
  by setoid_rewrite Hp.
Qed.

Lemma map_range_get (m : StringsMap) (k : string) (l : list string) :
  (k, l) ∈ map_range m ↔ map_get m k = Some l.
Proof.
  destruct m as [m|]; simpl.
  - apply elem_of_map_to_list.
  - split; [intros H; by apply elem_of_nil in H|done].
Qed.

Lemma satisfiesAndRequirements_true (e r : StringsMap) :
  satisfiesAndRequirements e r = true
  ↔ ∀ k rl, map_get r k = Some rl →
      ∃ el, map_get e k = Some el ∧ satisfiesRequirement el rl = true.
Proof.
  unfold satisfiesAndRequirements.
  rewrite satisfiesAndRequirements_loop_true.
  by setoid_rewrite map_range_get.
Qed.

Lemma anyRequirement_true (e : Entitlements) (reqs : Requirements) :
  anyRequirement e reqs = true
  ↔ ∃ r, r ∈ reqs ∧ satisfiesAndRequirements e r = true.
Proof.
  induction reqs as [|r reqs IH]; simpl.
  - split; [done|]. intros (r & Hr & _). by apply elem_of_nil in Hr.
  - destruct (satisfiesAndRequirements e r) eqn:E.
    + split; [|done]. intros _. exists r. split; [left|done].
    + rewrite IH. split.
      * intros (r' & Hr' & Hs). exists r'. split; [by right|done].
      * intros (r' & [->|Hr']%elem_of_cons & Hs); [congruence|by exists r'].
Qed.

(** ** Clones are equal to their originals *)

Lemma foldl_insert_union (l : list (string * list string))
    (acc : gmap string (list string)) :
  NoDup l.*1 →
  foldl (fun clone '(key, v) => <[key := v]> clone) acc l
  = list_to_map l ∪ acc.
Proof.
  revert acc. induction l as [|[k v] l IH]; intros acc Hnd.
  - simpl. by rewrite (left_id_L ∅ (∪)).
  - rewrite fmap_cons in Hnd. apply NoDup_cons in Hnd as [Hk Hnd].
    cbn [foldl]. rewrite (IH _ Hnd), list_to_map_cons, <- insert_union_l.
    symmetry. apply insert_union_r. by apply not_elem_of_list_to_map_1.
Qed.

Lemma cloneStringsMap_id (m : StringsMap) : cloneStringsMap m = m.
Proof.
  destruct m as [m|]; simpl; [|done]. f_equal.
  rewrite foldl_insert_union by apply NoDup_fst_map_to_list.
  by rewrite (right_id_L ∅ (∪)), list_to_map_to_list.
Qed.

Lemma deepCloneRequirements_id (reqs : Requirements) :
  deepCloneRequirements reqs = reqs.
Proof.
  unfold deepCloneRequirements. induction reqs as [|r reqs IH]; simpl; [done|].
  by rewrite cloneStringsMap_id, IH.
Qed.

(** ** Satisfaction of a requirement-set entry, in the words of the
       specification *)

(** For every scheme key of the entry, the held mapping has that key, and
    every string required under the key is matched by some string held
    under the same key. *)
Definition entry_satisfied (held entry : StringsMap) : Prop :=
  ∀ scheme required,
    map_get entry scheme = Some required →
    ∃ heldList,
      map_get held scheme = Some heldList
      ∧ ∀ r, r ∈ required →
          ∃ h, h ∈ heldList ∧ entitlementMatches h r = true.

Lemma satisfiesAndRequirements_spec (held entry : StringsMap) :
  satisfiesAndRequirements held entry = true ↔ entry_satisfied held entry.
Proof.
  rewrite satisfiesAndRequirements_true. unfold entry_satisfied.
  split; intros H k rl Hk; destruct (H k rl Hk) as (el & Hel & Hs);
    exists el; (split; [done|]).
  - intros r Hr. apply hasEntitlement_true.
    by apply (proj1 (satisfiesRequirement_true el rl) Hs).
  - apply satisfiesRequirement_true. intros r Hr.
    apply hasEntitlement_true. by apply Hs.
Qed.

Lemma VerifyEntitlements_empty (ec : EntitlementsChecker) (e : Entitlements) :
  VerifyEntitlements ec e [] = Returned true.
Proof. reflexivity. Qed.

Lemma VerifyEntitlements_working (ec : EntitlementsChecker)
    (e working : Entitlements) (reqs : Requirements) :
  withAnonymous ec e = Returned working →
  ∃ b, VerifyEntitlements ec e reqs = Returned b
       ∧ (b = true ↔ reqs = [] ∨ ∃ entry, entry ∈ reqs ∧ entry_satisfied working entry).
Proof.
  intros Hw. destruct reqs as [|r reqs].
  - exists true. split; [done|]. split; auto.
  - exists (anyRequirement working (r :: reqs)). split.
    + unfold VerifyEntitlements. cbn [length Nat.eqb]. by rewrite Hw.
    + rewrite anyRequirement_true.
      setoid_rewrite satisfiesAndRequirements_spec. split; [auto|].
      intros [?|?]; done.
Qed.

(** ** The anonymous-entitlement step *)

(** What the inner loop does to the list of the default scheme: every
    anonymous entitlement the list does not hold yet is put at its end. *)
Definition merge_anonymous (l anons : list string) : list string :=
  foldl (fun l a => if Contains l a then l else l ++ [a]) l anons.

Lemma merge_anonymous_cons (l : list string) (a : string) (anons : list string) :
  merge_anonymous l (a :: anons)
  = merge_anonymous (if Contains l a then l else l ++ [a]) anons.
Proof. reflexivity. Qed.

Lemma merge_anonymous_spec (l anons : list string) :
  ∃ added, merge_anonymous l anons = l ++ added
           ∧ NoDup added
           ∧ ∀ a, a ∈ added ↔ a ∈ anons ∧ a ∉ l.
Proof.
  revert l. induction anons as [|a anons IH]; intros l.
  - exists []. rewrite (right_id_L [] (++)).
    split; [done|]. split; [constructor|].
    intros x. split; [intros H|intros [H _]]; by apply elem_of_nil in H.
  - rewrite merge_anonymous_cons.
    destruct (Contains l a) eqn:E.
    + apply Contains_true in E.
      destruct (IH l) as (added & Heq & Hnd & Hin).
      exists added. split; [done|]. split; [done|].
      intros x. rewrite Hin, elem_of_cons. split.
      * intros [Hx Hnl]. auto.
      * intros [[->|Hx] Hnl]; [done|auto].
    + assert (a ∉ l) as Hal.
      { intros H. apply Contains_true in H. congruence. }
      destruct (IH (l ++ [a])) as (added & Heq & Hnd & Hin).
      exists (a :: added). rewrite Heq, <- (assoc_L (++)).
      split; [done|]. split.
      * apply NoDup_cons. split; [|done]. rewrite Hin, not_elem_of_app.
        intros [_ [_ Ha]]. apply Ha. left.
      * intros x. rewrite !elem_of_cons, Hin, not_elem_of_app.
        rewrite list_elem_of_singleton. split.
        -- intros [->|[Hx [Hnl Hne]]]; auto.
        -- intros [[->|Hx] Hnl]; [by left|].
           destruct (decide (x = a)) as [->|Hne]; [by left|auto].
Qed.

Lemma merge_anonymous_length (l anons : list string) :
  (length l ≤ length (merge_anonymous l anons))%nat.
Proof.
  destruct (merge_anonymous_spec l anons) as (added & -> & _).
  rewrite length_app. lia.
Qed.

Lemma merge_anonymous_fixed (l anons : list string) :
  merge_anonymous l anons = l ↔ ∀ a, a ∈ anons → a ∈ l.
Proof.
  destruct (merge_anonymous_spec l anons) as (added & -> & _ & Hin). split.
  - intros H a Ha. destruct (decide (a ∈ l)) as [|Hn]; [done|].
    assert (added = []) as ->.
    { apply (f_equal length) in H. rewrite length_app in H.
      apply length_zero_iff_nil. lia. }
    exfalso. eapply elem_of_nil, Hin. eauto.
  - intros H. destruct added as [|x added].
    + by rewrite (right_id_L [] (++)).
    + exfalso. destruct (Hin x) as [[Hx Hnx] _]; [left|]. auto.
Qed.

Section Anonymous.

Variable ec : EntitlementsChecker.

Lemma anon_inner_other (scheme : string) (anons : list string) (st : anon_state) :
  scheme ≠ defaultScheme ec → anon_inner ec scheme anons st = Returned st.
Proof.
  intros Hne. revert st. induction anons as [|a anons IH]; intros st; [done|].
  cbn [anon_inner]. unfold anon_body. destruct st as [[e l] added].
  apply eqb_false in Hne. rewrite Hne. simpl. apply IH.
Qed.

Lemma anon_inner_default (m : gmap string (list string))
    (anons l : list string) (added : bool) :
  anon_inner ec (defaultScheme ec) anons (Some m, l, added)
  = Returned
      (if decide (merge_anonymous l anons = l) then (Some m, l, added)
       else (Some (<[defaultScheme ec := merge_anonymous l anons]> m),
             merge_anonymous l anons, true)).
Proof.
  revert m l added. induction anons as [|a anons IH]; intros m l added.
  - simpl. by rewrite decide_True.
  - cbn [anon_inner]. unfold anon_body. rewrite String.eqb_refl.
    rewrite merge_anonymous_cons.
    destruct (Contains l a) eqn:E; simpl.
    + apply IH.
    + rewrite IH.
      assert (merge_anonymous (l ++ [a]) anons ≠ l) as Hne.
      { intros H. pose proof (merge_anonymous_length (l ++ [a]) anons) as Hl.
        rewrite H, length_app in Hl. simpl in Hl. lia. }
      destruct (decide (merge_anonymous (l ++ [a]) anons = l)) as [|_]; [done|].
      destruct (decide (merge_anonymous (l ++ [a]) anons = l ++ [a])) as [->|];
        [done|].
      by rewrite insert_insert_eq.
Qed.

Lemma anon_outer_other (order : list (string * list string))
    (e : StringsMap) (added : bool) :
  defaultScheme ec ∉ order.*1 →
  anon_outer ec order e added = Returned (e, added).
Proof.
  revert e added. induction order as [|[k v] order IH]; intros e added Hd; [done|].
  rewrite fmap_cons, not_elem_of_cons in Hd. destruct Hd as [Hk Hd].
  cbn [anon_outer]. rewrite anon_inner_other by done. simpl. by apply IH.
Qed.

(** The outcome of the outer loop for any enumeration of the working map
    in which the default scheme occurs, once, with the list [l]. *)
Lemma anon_outer_default (order : list (string * list string))
    (m : gmap string (list string)) (l : list string) (added : bool) :
  NoDup order.*1 → (defaultScheme ec, l) ∈ order →
  anon_outer ec order (Some m) added
  = Returned
      (if decide (merge_anonymous l (anonymousEntitlements ec) = l)
       then (Some m, added)
       else (Some (<[defaultScheme ec :=
                       merge_anonymous l (anonymousEntitlements ec)]> m), true)).
Proof.
  revert m added. induction order as [|[k v] order IH]; intros m added Hnd Hin.
  - by apply elem_of_nil in Hin.
  - rewrite fmap_cons in Hnd. apply NoDup_cons in Hnd as [Hk Hnd].
    cbn [anon_outer].
    apply elem_of_cons in Hin as [[= <- <-]|Hin].
    + rewrite anon_inner_default. simpl.
      destruct (decide _); simpl; by rewrite anon_outer_other.
    + assert (k ≠ defaultScheme ec) as Hne.
      { intros ->. apply Hk. apply list_elem_of_fmap. by exists (defaultScheme ec, l). }
      rewrite anon_inner_other by done. simpl. by apply IH.
Qed.

(** The working copy for a caller's map that is not nil. *)
Definition anonymous_result (m : gmap string (list string))
  : gmap string (list string) :=
  let anons := anonymousEntitlements ec in
  match m !! defaultScheme ec with
  | None => <[defaultScheme ec := anons]> m
  | Some l =>
      if decide (merge_anonymous l anons = l)
      then <[defaultScheme ec := l ++ anons]> m
      else <[defaultScheme ec := merge_anonymous l anons]> m
  end.

Lemma withAnonymous_none (e : Entitlements) :
  anonymousEntitlements ec = [] → withAnonymous ec e = Returned e.
Proof. intros H. unfold withAnonymous. by rewrite H. Qed.

Lemma withAnonymous_nil :
  anonymousEntitlements ec ≠ [] → withAnonymous ec None = Panicked.
Proof.
  intros H. unfold withAnonymous.
  destruct (anonymousEntitlements ec); [done|]. reflexivity.
Qed.

Lemma withAnonymous_some (m : gmap string (list string)) :
  anonymousEntitlements ec ≠ [] →
  withAnonymous ec (Some m) = Returned (Some (anonymous_result m)).
Proof.
  intros H. unfold withAnonymous, deepCloneEntitlements.
  rewrite cloneStringsMap_id.
  destruct (anonymousEntitlements ec) as [|a0 anons] eqn:Ea; [done|].
  cbn [length Nat.ltb Nat.leb]. unfold anonymous_result. rewrite Ea.
  cbn [map_range].
  destruct (m !! defaultScheme ec) as [l|] eqn:El.
  - rewrite (anon_outer_default _ m l false).
    + rewrite Ea. destruct (decide _); simpl; [|done].
      unfold map_index. simpl. by rewrite El.
    + apply NoDup_fst_map_to_list.
    + by apply elem_of_map_to_list.
  - rewrite anon_outer_other.
    + simpl. unfold map_index. simpl. by rewrite El.
    + intros (kv & Hk & Hin)%list_elem_of_fmap. destruct kv as [k v].
      simpl in Hk. subst k. apply elem_of_map_to_list in Hin. congruence.
Qed.

(** The working copy does not depend on the order in which Go enumerates
    the map. *)
Lemma anon_outer_order (m : gmap string (list string))
    (order : list (string * list string)) (added : bool) :
  order ≡ₚ map_to_list m →
  anon_outer ec order (Some m) added
  = anon_outer ec (map_to_list m) (Some m) added.
Proof.
  intros Hp.
  assert (NoDup order.*1) as Hnd.
  { rewrite Hp. apply NoDup_fst_map_to_list. }
  destruct (m !! defaultScheme ec) as [l|] eqn:El.
  - rewrite (anon_outer_default order m l), (anon_outer_default _ m l);
      try done.
    + apply NoDup_fst_map_to_list.
    + by apply elem_of_map_to_list.
    + rewrite Hp. by apply elem_of_map_to_list.
  - assert (defaultScheme ec ∉ (map_to_list m).*1) as Hd.
    { intros (kv & Hk & Hin)%list_elem_of_fmap. destruct kv as [k v].
      simpl in Hk. subst k. apply elem_of_map_to_list in Hin. congruence. }
    rewrite !anon_outer_other; try done. by rewrite Hp.
Qed.

Lemma anonymous_result_lookup_ne (m : gmap string (list string)) (k : string) :
  k ≠ defaultScheme ec → anonymous_result m !! k = m !! k.
Proof.
  intros Hne. unfold anonymous_result.
  destruct (m !! defaultScheme ec); [destruct (decide _)|];
    by rewrite lookup_insert_ne.
Qed.

Lemma anonymous_result_dom (m : gmap string (list string)) (k : string) :
  is_Some (m !! k) → is_Some (anonymous_result m !! k).
Proof.
  intros Hk. destruct (decide (k = defaultScheme ec)) as [->|Hne].
  - unfold anonymous_result.
    destruct (m !! defaultScheme ec); [destruct (decide _)|];
      rewrite lookup_insert_eq; eauto.
  - by rewrite anonymous_result_lookup_ne.
Qed.

(** Under the default scheme the working copy holds the strings the caller
    holds there and the anonymous entitlements, and no other. *)
Lemma anonymous_result_default (m : gmap string (list string)) :
  ∃ l', anonymous_result m !! defaultScheme ec = Some l'
        ∧ ∀ x, x ∈ l'
               ↔ x ∈ default [] (m !! defaultScheme ec)
                 ∨ x ∈ anonymousEntitlements ec.
Proof.
  unfold anonymous_result.
  destruct (m !! defaultScheme ec) as [l|]; simpl.
  - destruct (decide _) as [Hfix|Hne].
    + exists (l ++ anonymousEntitlements ec).
      split; [apply lookup_insert_eq|]. intros x. apply elem_of_app.
    + destruct (merge_anonymous_spec l (anonymousEntitlements ec))
        as (added & Heq & _ & Hin).
      exists (merge_anonymous l (anonymousEntitlements ec)).
      split; [apply lookup_insert_eq|]. intros x.
      rewrite Heq, elem_of_app, Hin. split.
      * intros [Hx|[Hx _]]; auto.
      * intros [Hx|Hx]; [by left|].
        destruct (decide (x ∈ l)); [by left|by right].
  - exists (anonymousEntitlements ec).
    split; [apply lookup_insert_eq|]. intros x. split; [auto|].
    intros [Hx|Hx]; [by apply elem_of_nil in Hx|done].
Qed.

(** For a map that is not nil the step always yields a working copy. *)
Lemma withAnonymous_returns (m : gmap string (list string)) :
  ∃ w, withAnonymous ec (Some m) = Returned (Some w)
       ∧ (anonymousEntitlements ec = [] → w = m)
       ∧ (∀ k, is_Some (m !! k) → is_Some (w !! k)).
Proof.
  destruct (decide (anonymousEntitlements ec = [])) as [E|E].
  - exists m. by rewrite withAnonymous_none.
  - exists (anonymous_result m). rewrite withAnonymous_some by done.
    split; [done|]. split; [done|]. apply anonymous_result_dom.
Qed.

Lemma withAnonymous_defined (e : Entitlements) :
  (e = None → anonymousEntitlements ec = []) →
  ∃ w, withAnonymous ec e = Returned w.
Proof.
  intros H. destruct e as [m|].
  - destruct (withAnonymous_returns m) as (w & Hw & _). eauto.
  - exists None. apply withAnonymous_none. by apply H.
Qed.

(** ** The identity requirement, in the words of the specification *)

Definition spec_identity (resource resourceName : string) : string :=
  resource ++ ":" ++ resourceName ++ ":read".

(** Appending [x] to the list under [scheme], the key being created when it
    is absent. *)
Definition append_under (scheme x : string) (m : gmap string (list string))
  : gmap string (list string) :=
  <[scheme := default [] (m !! scheme) ++ [x]]> m.

(** Maps are read as mappings: a nil map has no key. *)
Definition mapping_of (m : StringsMap) : gmap string (list string) :=
  default ∅ m.

Definition spec_requirements (identity : string) (requirements : Requirements)
  : Requirements :=
  match requirements with
  | [] => [ Some {[ defaultScheme ec := [identity] ]} ]
  | _ =>
      (fun entry =>
         Some (append_under (defaultScheme ec) identity (mapping_of entry)))
      <$> requirements
  end.

Definition spec_entitlements (identity : string) (entitlements : Entitlements)
  : Entitlements :=
  if grantReadyByDefault ec
  then Some (append_under (defaultScheme ec) identity (mapping_of entitlements))
  else entitlements.

Lemma addIdentity_some (identity : string) (requirements : Requirements) :
  None ∉ requirements →
  addIdentity ec identity requirements
  = Returned
      ((fun entry =>
          Some (append_under (defaultScheme ec) identity (mapping_of entry)))
       <$> requirements).
Proof.
  induction requirements as [|r reqs IH]; intros Hnil; [done|].
  apply not_elem_of_cons in Hnil as [Hr Hnil].
  destruct r as [m|]; [|done].
  cbn [addIdentity map_assign obind]. rewrite (IH Hnil). reflexivity.
Qed.

End Anonymous.

(** The list under the default scheme of a working copy. *)
Definition default_list (ec : EntitlementsChecker) (r : outcome Entitlements)
  : option (list string) :=
  match r with
  | Returned e => map_get e (defaultScheme ec)
  | Panicked => None
  end.

End GoFacts.

(** * What a call leaves of the store it started from *)

Module Frame.
Import Mem.

Section Frame.

Variable growslice : nat → nat → nat.
Variable ec : Go.EntitlementsChecker.

(** The store at the time of the call. *)
Variable σ0 : store.

(** Every cell of the initial store is still there, with its content. *)
Definition extends (σ : store) : Prop :=
  arrays σ0 ⊆ arrays σ ∧ maps σ0 ⊆ maps σ ∧ rows σ0 ⊆ rows σ.

(** Cells allocated since the call. *)
Definition new_array (a : loc) : Prop := arrays σ0 !! a = None.
Definition new_map (a : loc) : Prop := maps σ0 !! a = None.
Definition new_row (a : loc) : Prop := rows σ0 !! a = None.

(** Values that reach no cell of the initial store in one step. *)
Definition own_slice (s : slice) : Prop := ∀ a, base s = Some a → new_array a.
Definition own_map (m : option loc) : Prop := ∀ a, m = Some a → new_map a.
Definition own_row (r : slice) : Prop := ∀ a, base r = Some a → new_row a.

(** The invariant of the program: the initial store is intact, the new maps
    hold slices of new arrays only, and the new rows hold new maps only. *)
Definition inv (σ : store) : Prop :=
  extends σ
  ∧ (∀ a obj k s,
       maps σ !! a = Some obj → new_map a → obj !! k = Some s → own_slice s)
  ∧ (∀ a cells m,
       rows σ !! a = Some cells → new_row a → Some m ∈ cells → new_map m).

(** [triple c Q]: from a store with the invariant, [c] ends, normally or by
    a panic, in a store with the invariant, and a returned value has [Q]. *)
Definition triple {A} (c : M A) (Q : A → Prop) : Prop :=
  ∀ σ, inv σ → inv (c σ).2 ∧ ∀ a, (c σ).1 = Returned a → Q a.

Definition any {A} : A → Prop := fun _ => True.

Lemma triple_ret {A} (a : A) (Q : A → Prop) : Q a → triple (ret a) Q.
Proof. intros HQ σ Hσ. split; [done|]. by intros a' [= <-]. Qed.

Lemma triple_panic {A} (Q : A → Prop) : triple panic Q.
Proof. intros σ Hσ. split; [done|]. intros a. discriminate. Qed.

Lemma triple_bind {A B} (c : M A) (k : A → M B) (P : A → Prop) (Q : B → Prop) :
  triple c P → (∀ a, P a → triple (k a) Q) → triple (bind c k) Q.
Proof.
  intros Hc Hk σ Hσ. unfold bind.
  destruct (Hc σ Hσ) as [Hinv HP].
  destruct (c σ) as [[a|] σ1]; simpl in *.
  - by apply Hk; [apply HP|].
  - split; [done|]. intros b. discriminate.
Qed.

Lemma triple_weaken {A} (c : M A) (P Q : A → Prop) :
  triple c P → (∀ a, P a → Q a) → triple c Q.
Proof.
  intros Hc HPQ σ Hσ. destruct (Hc σ Hσ) as [Hinv HP].
  split; [done|]. intros a Ha. by apply HPQ, HP.
Qed.

Lemma triple_any {A} (c : M A) (P : A → Prop) : triple c P → triple c any.
Proof. intros Hc. by apply (triple_weaken c P). Qed.

Lemma triple_foreach {A} (xs : list A) (body : A → M unit) :
  (∀ x, x ∈ xs → triple (body x) any) → triple (foreach xs body) any.
Proof.
  induction xs as [|x xs IH]; intros Hbody; simpl.
  - by apply triple_ret.
  - apply (triple_bind _ _ any); [apply Hbody; left|].
    intros _ _. apply IH. intros y Hy. apply Hbody. by right.
Qed.

Lemma triple_fold_loop {A S} (xs : list A) (body : S → A → M S) (s : S)
    (P : S → Prop) :
  P s → (∀ s x, P s → x ∈ xs → triple (body s x) P) →
  triple (fold_loop xs body s) P.
Proof.
  revert s. induction xs as [|x xs IH]; intros s Hs Hbody; simpl.
  - by apply triple_ret.
  - apply (triple_bind _ _ P); [apply Hbody; [done|left]|].
    intros s' Hs'. apply IH; [done|].
    intros s'' y Hs'' Hy. apply Hbody; [done|by right].
Qed.

Lemma triple_all_loop {A} (xs : list A) (body : A → M bool) :
  (∀ x, x ∈ xs → triple (body x) any) → triple (all_loop xs body) any.
Proof.
  induction xs as [|x xs IH]; intros Hbody; simpl.
  - by apply triple_ret.
  - apply (triple_bind _ _ any); [apply Hbody; left|].
    intros [] _; simpl; [|by apply triple_ret].
    apply IH. intros y Hy. apply Hbody. by right.
Qed.

Lemma triple_any_loop {A} (xs : list A) (body : A → M bool) :
  (∀ x, x ∈ xs → triple (body x) any) → triple (any_loop xs body) any.
Proof.
  induction xs as [|x xs IH]; intros Hbody; simpl.
  - by apply triple_ret.
  - apply (triple_bind _ _ any); [apply Hbody; left|].
    intros [] _; simpl; [by apply triple_ret|].
    apply IH. intros y Hy. apply Hbody. by right.
Qed.

(** ** The cells *)

Lemma extends_dom_arrays (σ : store) (a : loc) :
  extends σ → arrays σ !! a = None → new_array a.
Proof.
  intros (H & _ & _) Ha. unfold new_array.
  destruct (arrays σ0 !! a) as [c|] eqn:E; [|done].
  eapply lookup_weaken in E; [|exact H]. congruence.
Qed.

Lemma extends_dom_maps (σ : store) (a : loc) :
  extends σ → maps σ !! a = None → new_map a.
Proof.
  intros (_ & H & _) Ha. unfold new_map.
  destruct (maps σ0 !! a) as [c|] eqn:E; [|done].
  eapply lookup_weaken in E; [|exact H]. congruence.
Qed.

Lemma extends_dom_rows (σ : store) (a : loc) :
  extends σ → rows σ !! a = None → new_row a.
Proof.
  intros (_ & _ & H) Ha. unfold new_row.
  destruct (rows σ0 !! a) as [c|] eqn:E; [|done].
  eapply lookup_weaken in E; [|exact H]. congruence.
Qed.

Lemma fresh_lookup {V} (m : gmap loc V) : m !! fresh (dom m) = None.
Proof. apply not_elem_of_dom, is_fresh. Qed.

Lemma triple_alloc_array (cells : list string) :
  triple (alloc_array cells) new_array.
Proof.
  intros σ (Hext & Hmaps & Hrows). unfold alloc_array. simpl.
  pose proof (fresh_lookup (arrays σ)) as Hfresh.
  split; [|intros a [= <-]; by eapply extends_dom_arrays].
  split; [|done]. destruct Hext as (Ha & Hm & Hr).
  split; [|done]. simpl. etrans; [exact Ha|]. by apply insert_subseteq.
Qed.

Lemma triple_read_array (a : loc) : triple (read_array a) any.
Proof.
  intros σ Hσ. unfold read_array. by destruct (arrays σ !! a).
Qed.

Lemma triple_write_array (a : loc) (i : nat) (x : string) :
  new_array a → triple (write_array a i x) any.
Proof.
  intros Hnew σ Hσ. unfold write_array.
  destruct (arrays σ !! a) as [cells|]; [|done].
  destruct (i <? length cells)%nat; [|done]. simpl.
  split; [|done]. destruct Hσ as ((Ha & Hm & Hr) & Hmaps & Hrows).
  split; [|done]. split; [|done]. simpl. by apply insert_subseteq_r.
Qed.

Lemma triple_alloc_map (obj : gmap string slice) :
  (∀ k s, obj !! k = Some s → own_slice s) →
  triple (alloc_map obj) new_map.
Proof.
  intros Hobj σ (Hext & Hmaps & Hrows). unfold alloc_map. simpl.
  pose proof (fresh_lookup (maps σ)) as Hfresh.
  split; [|intros a [= <-]; by eapply extends_dom_maps].
  destruct Hext as (Ha & Hm & Hr).
  split; [|split; [|done]].
  - split; [done|]. split; [|done]. simpl.
    etrans; [exact Hm|]. by apply insert_subseteq.
  - simpl. intros a obj' k s Hlook Hnew Hk.
    destruct (decide (fresh (dom (maps σ)) = a)) as [<-|Hne].
    + rewrite lookup_insert_eq in Hlook. injection Hlook as <-. eauto.
    + rewrite lookup_insert_ne in Hlook by done. eauto.
Qed.

Lemma triple_read_map (a : loc) :
  triple (read_map a)
    (fun obj => new_map a → ∀ k s, obj !! k = Some s → own_slice s).
Proof.
  intros σ Hσ. unfold read_map.
  destruct (maps σ !! a) as [obj|] eqn:E; simpl; [|done].
  split; [done|]. intros obj' [= <-] Hnew k s Hk.
  destruct Hσ as (_ & Hmaps & _). eauto.
Qed.

Lemma triple_write_map (a : loc) (k : string) (v : slice) :
  new_map a → own_slice v → triple (write_map a k v) any.
Proof.
  intros Hnew Hv σ Hσ. unfold write_map.
  destruct (maps σ !! a) as [obj|] eqn:E; [|done]. simpl.
  split; [|done]. destruct Hσ as ((Ha & Hm & Hr) & Hmaps & Hrows).
  split; [|split; [|done]].
  - split; [done|]. split; [|done]. simpl. by apply insert_subseteq_r.
  - simpl. intros a' obj' k' s Hlook Hnew' Hk'.
    destruct (decide (a = a')) as [<-|Hne].
    + rewrite lookup_insert_eq in Hlook. injection Hlook as <-.
      destruct (decide (k = k')) as [<-|Hnek].
      * rewrite lookup_insert_eq in Hk'. by injection Hk' as <-.
      * rewrite lookup_insert_ne in Hk' by done. eauto.
    + rewrite lookup_insert_ne in Hlook by done. eauto.
Qed.

Lemma triple_alloc_row (cells : list (option loc)) :
  (∀ m, Some m ∈ cells → new_map m) →
  triple (alloc_row cells) new_row.
Proof.
  intros Hcells σ (Hext & Hmaps & Hrows). unfold alloc_row. simpl.
  pose proof (fresh_lookup (rows σ)) as Hfresh.
  split; [|intros a [= <-]; by eapply extends_dom_rows].
  destruct Hext as (Ha & Hm & Hr).
  split; [|split; [done|]].
  - split; [done|]. split; [done|]. simpl.
    etrans; [exact Hr|]. by apply insert_subseteq.
  - simpl. intros a cells' m Hlook Hnew Hin.
    destruct (decide (fresh (dom (rows σ)) = a)) as [<-|Hne].
    + rewrite lookup_insert_eq in Hlook. injection Hlook as <-. eauto.
    + rewrite lookup_insert_ne in Hlook by done. eauto.
Qed.

Lemma triple_read_row (a : loc) :
  triple (read_row a)
    (fun cells => new_row a → ∀ m, Some m ∈ cells → new_map m).
Proof.
  intros σ Hσ. unfold read_row.
  destruct (rows σ !! a) as [cells|] eqn:E; simpl; [|done].
  split; [done|]. intros cells' [= <-] Hnew m Hin.
  destruct Hσ as (_ & _ & Hrows). eauto.
Qed.

Lemma triple_write_row (a : loc) (i : nat) (m : option loc) :
  new_row a → own_map m → triple (write_row a i m) any.
Proof.
  intros Hnew Hm σ Hσ. unfold write_row.
  destruct (rows σ !! a) as [cells|] eqn:E; [|done].
  destruct (i <? length cells)%nat eqn:Hi; [|done]. simpl.
  split; [|done]. destruct Hσ as ((Ha & Hmm & Hr) & Hmaps & Hrows).
  split; [|split; [done|]].
  - split; [done|]. split; [done|]. simpl. by apply insert_subseteq_r.
  - simpl. intros a' cells' m' Hlook Hnew' Hin.
    destruct (decide (a = a')) as [<-|Hne].
    + rewrite lookup_insert_eq in Hlook. injection Hlook as <-.
      apply list_elem_of_lookup in Hin as [j Hj].
      destruct (decide (i = j)) as [<-|Hij].
      * apply Nat.ltb_lt in Hi.
        rewrite list_lookup_insert_eq in Hj by done.
        injection Hj as ->. by apply Hm.
      * rewrite list_lookup_insert_ne in Hj by done.
        eapply Hrows; [exact E|done|]. apply list_elem_of_lookup. eauto.
    + rewrite lookup_insert_ne in Hlook by done. eauto.
Qed.

(** ** Operations on slices and maps *)

Lemma own_nil_slice : own_slice nil_slice.
Proof. intros a. discriminate. Qed.

Lemma triple_elements (s : slice) : triple (elements s) any.
Proof.
  unfold elements. destruct (base s); [|by apply triple_ret].
  apply (triple_bind _ _ any); [apply triple_read_array|].
  intros cells _. by apply triple_ret.
Qed.

Lemma triple_make_strings (n : nat) : triple (make_strings n) own_slice.
Proof.
  unfold make_strings.
  apply (triple_bind _ _ new_array); [apply triple_alloc_array|].
  intros a Ha. apply triple_ret. by intros a' [= <-].
Qed.

Lemma triple_store_cells (a : loc) (i : nat) (xs : list string) :
  new_array a → triple (store_cells a i xs) any.
Proof.
  intros Ha. revert i. induction xs as [|x xs IH]; intros i; simpl.
  - by apply triple_ret.
  - apply (triple_bind _ _ any); [by apply triple_write_array|].
    intros _ _. apply IH.
Qed.

Lemma triple_copy_strings (dst src : slice) :
  own_slice dst → triple (copy_strings dst src) any.
Proof.
  intros Hdst. unfold copy_strings.
  apply (triple_bind _ _ any); [apply triple_elements|].
  intros xs _. destruct (base dst) as [a|] eqn:E; [|by apply triple_ret].
  apply triple_store_cells. by apply Hdst.
Qed.

Lemma triple_append (s : slice) (xs : list string) :
  own_slice s → triple (append growslice s xs) own_slice.
Proof.
  intros Hs. unfold append.
  destruct (len s + length xs <=? cap s)%nat.
  - destruct (base s) as [a|] eqn:E.
    + apply (triple_bind _ _ any); [apply triple_store_cells; by apply Hs|].
      intros _ _. apply triple_ret. intros a' [= <-]. by apply Hs.
    + destruct xs; [by apply triple_ret|apply triple_panic].
  - apply (triple_bind _ _ any); [apply triple_elements|].
    intros old _.
    apply (triple_bind _ _ new_array); [apply triple_alloc_array|].
    intros a Ha. apply triple_ret. by intros a' [= <-].
Qed.

Lemma triple_Contains (s : slice) (x : string) : triple (Contains s x) any.
Proof.
  unfold Contains.
  apply (triple_bind _ _ any); [apply triple_elements|].
  intros xs _. by apply triple_ret.
Qed.

Lemma triple_map_get (m : option loc) (k : string) :
  triple (map_get m k) (fun v => own_map m → ∀ s, v = Some s → own_slice s).
Proof.
  unfold map_get. destruct m as [a|].
  - eapply triple_bind; [apply triple_read_map|].
    intros obj Hobj. apply triple_ret. intros Hm s Hs.
    eapply Hobj; [by apply Hm|exact Hs].
  - apply triple_ret. intros _ s. discriminate.
Qed.

Lemma triple_map_index (m : option loc) (k : string) :
  own_map m → triple (map_index m k) own_slice.
Proof.
  intros Hm. unfold map_index.
  eapply triple_bind; [apply triple_map_get|].
  intros v Hv. apply triple_ret.
  destruct v as [s|]; simpl; [by apply Hv|apply own_nil_slice].
Qed.

Lemma triple_map_assign (m : option loc) (k : string) (v : slice) :
  own_map m → own_slice v → triple (map_assign m k v) any.
Proof.
  intros Hm Hv. unfold map_assign. destruct m as [a|]; [|apply triple_panic].
  apply triple_write_map; [by apply Hm|done].
Qed.

Lemma triple_map_range (m : option loc) :
  triple (map_range m)
    (fun entries => own_map m → ∀ k s, (k, s) ∈ entries → own_slice s).
Proof.
  unfold map_range. destruct m as [a|].
  - eapply triple_bind; [apply triple_read_map|].
    intros obj Hobj. apply triple_ret. intros Hm k s Hin.
    apply elem_of_map_to_list in Hin. eapply Hobj; [by apply Hm|exact Hin].
  - apply triple_ret. intros _ k s Hin. by apply elem_of_nil in Hin.
Qed.

Lemma triple_row_elements (r : slice) :
  triple (row_elements r) (fun ms => own_row r → ∀ m, m ∈ ms → own_map m).
Proof.
  unfold row_elements. destruct (base r) as [a|] eqn:E.
  - eapply triple_bind; [apply triple_read_row|].
    intros cells Hcells. apply triple_ret. intros Hr m Hin a' ->.
    apply (Hcells (Hr a E)).
    by apply (subseteq_drop (off r)), (subseteq_take (len r)).
  - apply triple_ret. intros _ m Hin. by apply elem_of_nil in Hin.
Qed.

Lemma triple_make_row (n : nat) : triple (make_row n) own_row.
Proof.
  unfold make_row.
  apply (triple_bind _ _ new_row).
  - apply triple_alloc_row. intros m Hin.
    by apply elem_of_replicate_inv in Hin.
  - intros a Ha. apply triple_ret. by intros a' [= <-].
Qed.

Lemma triple_row_assign (r : slice) (i : nat) (m : option loc) :
  own_row r → own_map m → triple (row_assign r i m) any.
Proof.
  intros Hr Hm. unfold row_assign.
  destruct (base r) as [a|] eqn:E; [|apply triple_panic].
  destruct (i <? len r)%nat; [|apply triple_panic].
  apply triple_write_row; [by apply Hr|done].
Qed.

Lemma triple_row_append (r : slice) (m : option loc) :
  own_row r → own_map m → triple (row_append growslice r m) own_row.
Proof.
  intros Hr Hm. unfold row_append.
  destruct (S (len r) <=? cap r)%nat.
  - destruct (base r) as [a|] eqn:E; [|apply triple_panic].
    apply (triple_bind _ _ any); [apply triple_write_row; [by apply Hr|done]|].
    intros _ _. apply triple_ret. intros a' [= <-]. by apply Hr.
  - eapply triple_bind; [apply triple_row_elements|].
    intros old Hold.
    apply (triple_bind _ _ new_row).
    + apply triple_alloc_row. intros a.
      rewrite !elem_of_app, list_elem_of_singleton.
      intros [Hin|[Heq|Hin]].
      * by apply (Hold Hr (Some a)).
      * by apply Hm.
      * by apply elem_of_replicate_inv in Hin.
    + intros a Ha. apply triple_ret. by intros a' [= <-].
Qed.

(** ** The program *)

Lemma triple_cloneList (l : slice) : triple (cloneList l) own_slice.
Proof.
  unfold cloneList. destruct (is_nil l).
  - apply triple_ret, own_nil_slice.
  - eapply triple_bind; [apply triple_make_strings|].
    intros newList Hnew.
    apply (triple_bind _ _ any); [by apply triple_copy_strings|].
    intros _ _. by apply triple_ret.
Qed.

Lemma triple_cloneEntries (clone : loc) (entries : list (string * slice)) :
  new_map clone → triple (cloneEntries clone entries) any.
Proof.
  intros Hclone. unfold cloneEntries. apply triple_foreach.
  intros [key l] _.
  eapply triple_bind; [apply triple_cloneList|].
  intros newList Hnew. by apply triple_write_map.
Qed.

Lemma triple_deepCloneEntitlements (entitlements : option loc) :
  triple (deepCloneEntitlements entitlements) own_map.
Proof.
  unfold deepCloneEntitlements. destruct entitlements as [a|].
  - apply (triple_bind _ _ new_map).
    + apply triple_alloc_map. intros k s. by rewrite lookup_empty.
    + intros clone Hclone.
      apply (triple_bind _ _ any); [eapply triple_any, triple_map_range|].
      intros entries _.
      apply (triple_bind _ _ any); [by apply triple_cloneEntries|].
      intros _ _. apply triple_ret. by intros a' [= <-].
  - apply triple_ret. intros a. discriminate.
Qed.

Lemma triple_deepCloneRequirements (requirements : slice) :
  triple (deepCloneRequirements requirements) own_row.
Proof.
  unfold deepCloneRequirements. destruct (is_nil requirements).
  - apply triple_ret. intros a. discriminate.
  - eapply triple_bind; [apply triple_make_row|].
    intros clone Hclone.
    apply (triple_bind _ _ any); [eapply triple_any, triple_row_elements|].
    intros reqMaps _.
    apply (triple_bind _ _ any).
    + apply triple_foreach. intros [i [reqMap|]] _; [|by apply triple_ret].
      apply (triple_bind _ _ new_map).
      * apply triple_alloc_map. intros k s. by rewrite lookup_empty.
      * intros newMap HnewMap.
        apply (triple_bind _ _ any); [eapply triple_any, triple_map_range|].
        intros entries _.
        apply (triple_bind _ _ any); [by apply triple_cloneEntries|].
        intros _ _. apply triple_row_assign; [done|]. by intros a' [= <-].
    + intros _ _. by apply triple_ret.
Qed.

Lemma triple_hasEntitlement (entitlements : slice) (requirement : string) :
  triple (hasEntitlement entitlements requirement) any.
Proof.
  unfold hasEntitlement.
  apply (triple_bind _ _ any); [apply triple_elements|].
  intros es _. by apply triple_ret.
Qed.

Lemma triple_satisfiesRequirement (entitlements requirement : slice) :
  triple (satisfiesRequirement entitlements requirement) any.
Proof.
  unfold satisfiesRequirement.
  apply (triple_bind _ _ any); [apply triple_elements|].
  intros rs _. apply triple_all_loop. intros r _. apply triple_hasEntitlement.
Qed.

Lemma triple_satisfiesAndRequirements (entitlements requirement : option loc) :
  triple (satisfiesAndRequirements entitlements requirement) any.
Proof.
  unfold satisfiesAndRequirements.
  apply (triple_bind _ _ any); [eapply triple_any, triple_map_range|].
  intros entries _. apply triple_all_loop. intros [re requirementList] _.
  apply (triple_bind _ _ any); [eapply triple_any, triple_map_get|].
  intros [entitlementList|] _; [|by apply triple_ret].
  apply triple_satisfiesRequirement.
Qed.

Lemma triple_anon_body (entitlements : option loc) (scheme : string)
    (st : slice * bool) (anonEntitlement : string) :
  own_map entitlements → own_slice st.1 →
  triple (anon_body growslice ec entitlements scheme st anonEntitlement)
    (fun st' => own_slice st'.1).
Proof.
  intros He Hst. unfold anon_body. destruct st as [entitlementList added].
  destruct (String.eqb scheme (Go.defaultScheme ec)); [|by apply triple_ret].
  apply (triple_bind _ _ any); [apply triple_Contains|].
  intros [] _; simpl; [by apply triple_ret|].
  eapply triple_bind; [by apply triple_append|].
  intros l Hl.
  apply (triple_bind _ _ any); [by apply triple_map_assign|].
  intros _ _. by apply triple_ret.
Qed.

Lemma triple_withAnonymous (entitlements : option loc) :
  triple (withAnonymous growslice ec entitlements) any.
Proof.
  unfold withAnonymous.
  destruct (0 <? length (Go.anonymousEntitlements ec))%nat;
    [|by apply triple_ret].
  eapply triple_bind; [apply triple_deepCloneEntitlements|].
  intros clone Hclone.
  eapply triple_bind; [apply triple_map_range|].
  intros entries Hentries. specialize (Hentries Hclone).
  apply (triple_bind _ _ any).
  - apply (triple_fold_loop _ _ _ any); [done|].
    intros added [scheme entitlementList] _ Hin.
    apply (triple_bind _ _ (fun st => own_slice st.1)).
    + apply triple_fold_loop; [by eapply Hentries|].
      intros st a Hst _. by apply triple_anon_body.
    + intros st _. by apply triple_ret.
  - intros added _.
    apply (triple_bind _ _ any); [|intros _ _; by apply triple_ret].
    destruct (negb added); [|by apply triple_ret].
    eapply triple_bind; [by apply triple_map_index|].
    intros l Hl.
    eapply triple_bind; [by apply triple_append|].
    intros l' Hl'. by apply triple_map_assign.
Qed.

Lemma triple_VerifyEntitlements (entitlements : option loc) (requirements : slice) :
  triple (VerifyEntitlements growslice ec entitlements requirements) any.
Proof.
  unfold VerifyEntitlements.
  destruct (len requirements =? 0)%nat; [by apply triple_ret|].
  apply (triple_bind _ _ any); [apply triple_withAnonymous|].
  intros working _.
  apply (triple_bind _ _ any); [eapply triple_any, triple_row_elements|].
  intros reqs _. apply triple_any_loop.
  intros requirement _. apply triple_satisfiesAndRequirements.
Qed.

Lemma triple_VerifyResourceEntitlements (resource resourceName : string)
    (entitlements : option loc) (requirements : slice) :
  triple (VerifyResourceEntitlements growslice ec resource resourceName
            entitlements requirements) any.
Proof.
  unfold VerifyResourceEntitlements.
  eapply triple_bind; [apply triple_deepCloneRequirements|].
  intros clone Hclone.
  apply (triple_bind _ _ any).
  - destruct (len clone =? 0)%nat.
    + apply (triple_bind _ _ new_array); [apply triple_alloc_array|].
      intros l Hl.
      apply (triple_bind _ _ new_map).
      * apply triple_alloc_map. intros k s.
        intros [<- <-]%lookup_singleton_Some. by intros a' [= <-].
      * intros m Hm. eapply triple_any, triple_row_append; [done|].
        by intros a' [= <-].
    + eapply triple_bind; [apply triple_row_elements|].
      intros reqs Hreqs. specialize (Hreqs Hclone).
      apply (triple_bind _ _ any); [|intros _ _; by apply triple_ret].
      apply triple_foreach. intros req Hreq.
      eapply triple_bind; [apply triple_map_index; by apply Hreqs|].
      intros l Hl.
      eapply triple_bind; [by apply triple_append|].
      intros l' Hl'. apply triple_map_assign; [by apply Hreqs|done].
  - intros requirements' _.
    eapply triple_bind; [apply triple_deepCloneEntitlements|].
    intros eclone Heclone.
    apply (triple_bind _ _ any).
    + destruct (Go.grantReadyByDefault ec); [|by apply triple_ret].
      eapply triple_bind; [by apply triple_map_index|].
      intros l Hl.
      eapply triple_bind; [by apply triple_append|].
      intros l' Hl'. by apply triple_map_assign.
    + intros _ _. apply triple_VerifyEntitlements.
Qed.

End Frame.

(** ** The frame property *)

(** Every array, map object and row of [σ] is in [σ'] with the same
    content: slice headers, lengths, capacities and cells alike. *)
Definition unchanged (σ σ' : store) : Prop :=
  (∀ a cells, arrays σ !! a = Some cells → arrays σ' !! a = Some cells)
  ∧ (∀ a obj, maps σ !! a = Some obj → maps σ' !! a = Some obj)
  ∧ (∀ a cells, rows σ !! a = Some cells → rows σ' !! a = Some cells).

Lemma inv_initial (σ : store) : inv σ σ.
Proof.
  split; [done|]. split.
  - intros a obj k s Hlook Hnew. unfold new_map in Hnew. congruence.
  - intros a cells m Hlook Hnew. unfold new_row in Hnew. congruence.
Qed.

Lemma triple_unchanged {A} (σ : store) (c : M A) :
  triple σ c any → unchanged σ (c σ).2.
Proof.
  intros Hc. destruct (Hc σ (inv_initial σ)) as [((Ha & Hm & Hr) & _) _].
  repeat split; intros a x Hx; eapply lookup_weaken; eauto.
Qed.

(** ** What the caller reads through its own references *)

(** The slice [s] shows the strings [xs]. *)
Definition list_at (σ : store) (s : slice) (xs : list string) : Prop :=
  match base s with
  | None => xs = [] ∧ len s = 0
  | Some a =>
      ∃ cells, arrays σ !! a = Some cells
               ∧ (off s + len s ≤ length cells)%nat
               ∧ xs = take (len s) (drop (off s) cells)
  end.

(** The map reference [m] shows the Go value [E]. *)
Definition map_at (σ : store) (m : option loc) (E : Go.StringsMap) : Prop :=
  match m, E with
  | None, None => True
  | Some a, Some e =>
      ∃ obj, maps σ !! a = Some obj
             ∧ ∀ k, option_Forall2 (list_at σ) (obj !! k) (e !! k)
  | _, _ => False
  end.

(** The slice of maps [r] shows the Go value [R]. *)
Definition requirements_at (σ : store) (r : slice) (R : Go.Requirements) : Prop :=
  ∃ ms, match base r with
        | None => ms = [] ∧ len r = 0
        | Some a =>
            ∃ cells, rows σ !! a = Some cells
                     ∧ (off r + len r ≤ length cells)%nat
                     ∧ ms = take (len r) (drop (off r) cells)
        end
        ∧ Forall2 (map_at σ) ms R.

Lemma list_at_unchanged (σ σ' : store) (s : slice) (xs : list string) :
  unchanged σ σ' → list_at σ s xs → list_at σ' s xs.
Proof.
  intros (Ha & _ & _). unfold list_at. destruct (base s); [|done].
  intros (cells & Hc & Hlen & ->). exists cells. eauto.
Qed.

Lemma map_at_unchanged (σ σ' : store) (m : option loc) (E : Go.StringsMap) :
  unchanged σ σ' → map_at σ m E → map_at σ' m E.
Proof.
  intros Hu. pose proof Hu as (_ & Hm & _). unfold map_at.
  destruct m as [a|], E as [e|]; try done.
  intros (obj & Hobj & Hk). exists obj. split; [eauto|].
  intros k. specialize (Hk k).
  destruct Hk; constructor. by eapply list_at_unchanged.
Qed.

Lemma requirements_at_unchanged (σ σ' : store) (r : slice) (R : Go.Requirements) :
  unchanged σ σ' → requirements_at σ r R → requirements_at σ' r R.
Proof.
  intros Hu. pose proof Hu as (_ & _ & Hr).
  intros (ms & Hms & HR). exists ms. split.
  - destruct (base r); [|done].
    destruct Hms as (cells & Hc & Hlen & ->). exists cells. eauto.
  - eapply Forall2_impl; [exact HR|].
    intros m E. by apply map_at_unchanged.
Qed.

End Frame.

(** * The store-level program computes what the value-level program does *)

Module Refine.
Import Mem Frame.

(** ** Reading *)

Lemma elements_spec (σ : store) (s : slice) (xs : list string) :
  list_at σ s xs → elements s σ = (Returned xs, σ).
Proof.
  unfold list_at, elements. destruct (base s) as [a|].
  - intros (cells & Hc & _ & ->). unfold bind, read_array. by rewrite Hc.
  - by intros [-> _].
Qed.

Lemma all_loop_pure {A} (xs : list A) (body : A → M bool) (f : A → bool)
    (σ : store) :
  (∀ x, x ∈ xs → body x σ = (Returned (f x), σ)) →
  all_loop xs body σ = (Returned (forallb f xs), σ).
Proof.
  induction xs as [|x xs IH]; intros Hbody; [done|].
  cbn [all_loop forallb]. unfold bind. rewrite Hbody by left.
  destruct (f x); simpl; [|done]. apply IH. intros y Hy. apply Hbody. by right.
Qed.

Lemma satisfiesRequirement_forallb (es rs : list string) :
  Go.satisfiesRequirement es rs = forallb (Go.hasEntitlement es) rs.
Proof.
  induction rs as [|r rs IH]; [done|]. simpl.
  by destruct (Go.hasEntitlement es r).
Qed.

Lemma satisfiesRequirement_spec (σ : store) (es rs : slice) (E R : list string) :
  list_at σ es E → list_at σ rs R →
  satisfiesRequirement es rs σ = (Returned (Go.satisfiesRequirement E R), σ).
Proof.
  intros HE HR. unfold satisfiesRequirement, bind.
  rewrite (elements_spec _ _ _ HR), satisfiesRequirement_forallb.
  apply all_loop_pure. intros r _. unfold hasEntitlement, bind.
  by rewrite (elements_spec _ _ _ HE).
Qed.

Lemma map_get_spec (σ : store) (m : option loc) (E : Go.StringsMap) (k : string) :
  map_at σ m E →
  ∃ v, map_get m k σ = (Returned v, σ)
       ∧ option_Forall2 (list_at σ) v (Go.map_get E k).
Proof.
  unfold map_at, map_get. destruct m as [a|], E as [e|]; try done.
  - intros (obj & Hobj & Hk). exists (obj !! k).
    unfold bind, read_map. rewrite Hobj. split; [done|]. apply Hk.
  - intros _. exists None. split; [done|]. constructor.
Qed.

Lemma map_range_spec (σ : store) (m : option loc) (E : Go.StringsMap) :
  map_at σ m E →
  ∃ entries, map_range m σ = (Returned entries, σ)
             ∧ NoDup entries.*1
             ∧ ∀ k, option_Forall2 (list_at σ)
                      ((list_to_map entries : gmap string slice) !! k)
                      (Go.map_get E k).
Proof.
  unfold map_at, map_range. destruct m as [a|], E as [e|]; try done.
  - intros (obj & Hobj & Hk). exists (map_to_list obj).
    unfold bind, read_map. rewrite Hobj. split; [done|].
    split; [apply NoDup_fst_map_to_list|].
    intros k. rewrite list_to_map_to_list. apply Hk.
  - intros _. exists []. split; [done|]. split; [constructor|].
    intros k. simpl. rewrite lookup_empty. constructor.
Qed.

Lemma satisfiesAndRequirements_run (σ : store) (e r : option loc)
    (E R : Go.StringsMap) :
  map_at σ e E → map_at σ r R →
  satisfiesAndRequirements e r σ
  = (Returned (Go.satisfiesAndRequirements E R), σ).
Proof.
  intros HE HR. unfold satisfiesAndRequirements, bind.
  destruct (map_range_spec _ _ _ HR) as (entries & -> & Hnd & Hentries).
  set (g := fun k : string =>
              match Go.map_get E k, Go.map_get R k with
              | Some el, Some rl => Go.satisfiesRequirement el rl
              | _, _ => false
              end).
  rewrite (all_loop_pure _ _ (fun kv => g kv.1)).
  - f_equal. f_equal. apply eq_true_iff_eq.
    rewrite forallb_forall, GoFacts.satisfiesAndRequirements_true. split.
    + intros H k rl Hk. specialize (Hentries k). rewrite Hk in Hentries.
      inversion Hentries as [s rl' Hs Heq1 Heq2|]; subst.
      symmetry in Heq1. apply elem_of_list_to_map_2 in Heq1.
      apply list_elem_of_In in Heq1. specialize (H _ Heq1).
      unfold g in H. simpl in H. rewrite Hk in H.
      destruct (Go.map_get E k) as [el|]; [|done]. by exists el.
    + intros H [k s] Hin. apply list_elem_of_In in Hin.
      apply (elem_of_list_to_map_1 _ _ _ Hnd) in Hin.
      specialize (Hentries k). rewrite Hin in Hentries.
      inversion Hentries as [s' rl Hs Heq1 Heq2|]; subst.
      symmetry in Heq2. destruct (H k rl Heq2) as (el & Hel & Hsat).
      unfold g. simpl. by rewrite Hel, Heq2.
  - intros [k s] Hin.
    apply (elem_of_list_to_map_1 _ _ _ Hnd) in Hin.
    pose proof (Hentries k) as Hk. rewrite Hin in Hk.
    inversion Hk as [s' rl Hs Heq1 Heq2|]; subst. symmetry in Heq2.
    destruct (map_get_spec σ e E k HE) as (v & -> & Hv).
    unfold g. simpl. rewrite Heq2.
    inversion Hv as [es el Hes Heq3 Heq4|]; subst; [|done].
    by apply satisfiesRequirement_spec.
Qed.

Lemma anyRequirement_loop (σ : store) (w : option loc) (W : Go.StringsMap)
    (ms : list (option loc)) (R : Go.Requirements) :
  map_at σ w W → Forall2 (map_at σ) ms R →
  any_loop ms (fun m => satisfiesAndRequirements w m) σ
  = (Returned (Go.anyRequirement W R), σ).
Proof.
  intros HW HR. induction HR as [|m r ms R Hm HR IH]; [done|].
  cbn [any_loop Go.anyRequirement]. unfold bind.
  rewrite (satisfiesAndRequirements_run _ _ _ _ _ HW Hm).
  by destruct (Go.satisfiesAndRequirements W r).
Qed.

Lemma row_elements_spec (σ : store) (r : slice) (R : Go.Requirements) :
  requirements_at σ r R →
  ∃ ms, row_elements r σ = (Returned ms, σ)
        ∧ Forall2 (map_at σ) ms R ∧ length ms = len r.
Proof.
  intros (ms & Hms & HR). exists ms. unfold row_elements.
  destruct (base r) as [a|].
  - destruct Hms as (cells & Hc & Hlen & ->).
    unfold bind, read_row. rewrite Hc. split; [done|]. split; [done|].
    rewrite length_take_le; [done|]. rewrite length_drop. lia.
  - destruct Hms as [-> Hlen]. by split.
Qed.

(** ** Writing *)

(** A slice of a working copy: the window and its spare capacity lie within
    the backing array. *)
Definition work_at (σ : store) (s : slice) (xs : list string) : Prop :=
  match base s with
  | None => xs = [] ∧ len s = 0 ∧ cap s = 0
  | Some a =>
      ∃ cells, arrays σ !! a = Some cells
               ∧ (off s + cap s ≤ length cells)%nat
               ∧ (len s ≤ cap s)%nat
               ∧ xs = take (len s) (drop (off s) cells)
  end.

Lemma work_at_list_at (σ : store) (s : slice) (xs : list string) :
  work_at σ s xs → list_at σ s xs.
Proof.
  unfold work_at, list_at. destruct (base s); [|tauto].
  intros (cells & Hc & Hcap & Hlen & ->). exists cells.
  split; [done|]. split; [lia|done].
Qed.

Lemma list_at_length (σ : store) (s : slice) (xs : list string) :
  list_at σ s xs → length xs = len s.
Proof.
  unfold list_at. destruct (base s).
  - intros (cells & Hc & Hlen & ->).
    rewrite length_take_le; [done|]. rewrite length_drop. lia.
  - by intros [-> ->].
Qed.

Lemma list_at_mono (σ σ' : store) (s : slice) (xs : list string) :
  arrays σ ⊆ arrays σ' → list_at σ s xs → list_at σ' s xs.
Proof.
  intros Hsub. unfold list_at. destruct (base s); [|done].
  intros (cells & Hc & H). exists cells. split; [|done].
  by eapply lookup_weaken.
Qed.

Lemma work_at_mono (σ σ' : store) (s : slice) (xs : list string) :
  arrays σ ⊆ arrays σ' → work_at σ s xs → work_at σ' s xs.
Proof.
  intros Hsub. unfold work_at. destruct (base s); [|done].
  intros (cells & Hc & H). exists cells. split; [|done].
  by eapply lookup_weaken.
Qed.

Lemma store_cells_spec (a : loc) (xs cells : list string) (i : nat) (σ : store) :
  arrays σ !! a = Some cells → (i + length xs ≤ length cells)%nat →
  store_cells a i xs σ
  = (Returned tt,
     Store (<[a := take i cells ++ xs ++ drop (i + length xs) cells]> (arrays σ))
       (maps σ) (rows σ)).
Proof.
  revert cells i σ. induction xs as [|x xs IH]; intros cells i σ Hc Hlen.
  - simpl. rewrite Nat.add_0_r, take_drop, insert_id by done. by destruct σ.
  - simpl in Hlen. cbn [store_cells]. unfold bind at 1, write_array.
    rewrite Hc. assert (i < length cells)%nat as Hi by lia.
    apply Nat.ltb_lt in Hi as Hi'. rewrite Hi'.
    rewrite (IH (<[i := x]> cells) (S i)); simpl.
    + rewrite insert_insert_eq. do 3 f_equal.
      destruct (lookup_lt_is_Some_2 cells i Hi) as [y Hy].
      rewrite (take_S_r (<[i := x]> cells) i x)
        by (by apply list_lookup_insert_eq).
      rewrite take_insert_ge by lia. rewrite drop_insert_lt by lia.
      rewrite <- (assoc_L (++)). simpl. by rewrite Nat.add_succ_r.
    + by rewrite lookup_insert_eq.
    + rewrite length_insert. lia.
Qed.

Section Append.

Variable growslice : nat → nat → nat.

(** [append] on a slice of a working copy.  [σb] is any earlier store whose
    arrays are all still intact; an append in place is only possible when the
    backing array is younger than [σb]. *)
Lemma append_spec (σb σ : store) (s : slice) (xs l : list string) :
  work_at σ s l → arrays σb ⊆ arrays σ → xs ≠ [] →
  (cap s = len s ∨ ∀ a, base s = Some a → arrays σb !! a = None) →
  ∃ s' σ',
    append growslice s xs σ = (Returned s', σ')
    ∧ work_at σ' s' (l ++ xs)
    ∧ arrays σb ⊆ arrays σ'
    ∧ maps σ' = maps σ ∧ rows σ' = rows σ
    ∧ (∀ a, base s' = Some a → arrays σb !! a = None).
Proof.
  intros Hs Hsub Hxs Hyoung. unfold append.
  assert (0 < length xs)%nat as Hpos by (destruct xs; [done|simpl; lia]).
  pose proof (list_at_length _ _ _ (work_at_list_at _ _ _ Hs)) as Hll.
  destruct (len s + length xs <=? cap s)%nat eqn:Hfit.
  - apply Nat.leb_le in Hfit.
    destruct Hyoung as [Htight|Hyoung]; [lia|].
    unfold work_at in Hs. destruct (base s) as [a|] eqn:Hbase; [|lia].
    destruct Hs as (cells & Hc & Hcap & Hlen & Hl).
    specialize (Hyoung a eq_refl).
    unfold bind. rewrite (store_cells_spec a xs cells) by (done || lia).
    eexists _, _. split; [done|]. simpl.
    split; [|split; [by apply insert_subseteq_r|]].
    + unfold work_at. simpl.
      eexists. split; [apply lookup_insert_eq|].
      rewrite !length_app, length_take_le, length_drop by lia.
      split; [lia|]. split; [lia|].
      rewrite <- (take_take_drop cells (off s) (len s)), <- Hl.
      rewrite <- !(assoc_L (++)).
      rewrite drop_app_length' by (rewrite length_take_le; lia).
      rewrite (assoc_L (++)).
      rewrite take_app_length'; [done|]. rewrite length_app. lia.
    + split; [done|]. split; [done|]. by intros a' [= <-].
  - apply Nat.leb_gt in Hfit. unfold bind.
    rewrite (elements_spec _ _ _ (work_at_list_at _ _ _ Hs)).
    unfold alloc_array.
    pose proof (fresh_lookup (arrays σ)) as Hfresh.
    eexists _, _. split; [done|]. simpl.
    split; [|split].
    + unfold work_at. simpl.
      eexists. split; [apply lookup_insert_eq|].
      rewrite !length_app, length_replicate.
      split; [lia|]. split; [lia|].
      rewrite (assoc_L (++)), drop_0.
      rewrite take_app_length'; [done|]. rewrite length_app. lia.
    + etrans; [exact Hsub|]. by apply insert_subseteq.
    + split; [done|]. split; [done|]. intros a' [= <-].
      by eapply lookup_weaken_None.
Qed.

End Append.

Lemma cloneList_spec (σ : store) (l : slice) (xs : list string) :
  list_at σ l xs →
  ∃ s' σ',
    cloneList l σ = (Returned s', σ')
    ∧ work_at σ' s' xs ∧ cap s' = len s'
    ∧ arrays σ ⊆ arrays σ'
    ∧ maps σ' = maps σ ∧ rows σ' = rows σ.
Proof.
  intros Hl. pose proof (list_at_length _ _ _ Hl) as Hlen.
  unfold cloneList, is_nil.
  destruct (base l) as [a|] eqn:Hbase.
  - unfold bind at 1, make_strings, bind at 1, alloc_array.
    pose proof (fresh_lookup (arrays σ)) as Hfresh.
    set (a' := fresh (dom (arrays σ))) in *.
    set (σ1 := Store (<[a' := replicate (len l) ""]> (arrays σ)) (maps σ) (rows σ)).
    assert (arrays σ ⊆ arrays σ1) as Hsub by (by apply insert_subseteq).
    cbn [ret]. unfold bind at 1, copy_strings, bind at 1.
    rewrite (elements_spec σ1 l xs) by (by eapply list_at_mono).
    cbn [base off len].
    rewrite (store_cells_spec a' _ (replicate (len l) ""));
      [|by apply lookup_insert_eq
       |rewrite length_take, length_replicate; lia].
    eexists _, _. split; [done|]. simpl.
    rewrite insert_insert_eq, take_ge, drop_replicate by lia.
    rewrite Hlen, Nat.sub_diag. simpl. rewrite (right_id_L [] (++)).
    split; [|split; [done|]].
    + unfold work_at. simpl. exists xs.
      split; [apply lookup_insert_eq|]. split; [lia|]. split; [lia|].
      rewrite drop_0. by rewrite take_ge by lia.
    + split; [|done]. by apply insert_subseteq.
  - unfold list_at in Hl. rewrite Hbase in Hl. destruct Hl as [-> _].
    by exists nil_slice, σ.
Qed.

(** ** Clones *)

(** The map object [obj] shows the mapping [W] through working slices. *)
Definition obj_at (σ : store) (obj : gmap string slice)
    (W : gmap string (list string)) : Prop :=
  ∀ k, option_Forall2 (work_at σ) (obj !! k) (W !! k).

(** No slice of [obj] has spare capacity. *)
Definition tight (obj : gmap string slice) : Prop :=
  ∀ k s, obj !! k = Some s → cap s = len s.

Lemma obj_at_mono (σ σ' : store) (obj : gmap string slice)
    (W : gmap string (list string)) :
  arrays σ ⊆ arrays σ' → obj_at σ obj W → obj_at σ' obj W.
Proof.
  intros Hsub H k. specialize (H k).
  destruct H; constructor. by eapply work_at_mono.
Qed.

Lemma obj_at_map_at (σ : store) (c : loc) (obj : gmap string slice)
    (W : gmap string (list string)) :
  maps σ !! c = Some obj → obj_at σ obj W → map_at σ (Some c) (Some W).
Proof.
  intros Hc H. exists obj. split; [done|]. intros k. specialize (H k).
  destruct H; constructor. by apply work_at_list_at.
Qed.

Lemma cloneEntries_spec (c : loc) (src : gmap string (list string))
    (entries : list (string * slice)) (σ : store) (obj : gmap string slice) :
  maps σ !! c = Some obj →
  (∀ k s, (k, s) ∈ entries → ∃ xs, src !! k = Some xs ∧ list_at σ s xs) →
  ∃ σ' obj',
    cloneEntries c entries σ = (Returned tt, σ')
    ∧ maps σ' = <[c := obj']> (maps σ)
    ∧ arrays σ ⊆ arrays σ'
    ∧ rows σ' = rows σ
    ∧ ∀ k,
        (k ∈ entries.*1 →
         option_Forall2 (work_at σ') (obj' !! k) (src !! k)
         ∧ ∀ s, obj' !! k = Some s → cap s = len s)
        ∧ (k ∉ entries.*1 → obj' !! k = obj !! k).
Proof.
  revert σ obj. induction entries as [|[k0 s0] entries IH]; intros σ obj Hc Hsrc.
  - exists σ, obj. split; [done|]. rewrite insert_id by done.
    split; [done|]. split; [done|]. split; [done|].
    intros k. split; [|done]. intros Hk. by apply elem_of_nil in Hk.
  - destruct (Hsrc k0 s0) as (xs0 & Hxs0 & Hs0); [left|].
    destruct (cloneList_spec σ s0 xs0 Hs0)
      as (s1 & σ1 & Hrun & Hwork & Htight & Hsub & Hmaps & Hrows).
    unfold cloneEntries. cbn [foreach]. unfold bind at 1, bind at 1.
    rewrite Hrun. unfold write_map. rewrite Hmaps, Hc.
    set (σ2 := Store (arrays σ1) (<[c := <[k0 := s1]> obj]> (maps σ)) (rows σ1)).
    destruct (IH σ2 (<[k0 := s1]> obj)) as (σ' & obj' & Hrun' & Hmaps' & Hsub' & Hrows' & Hk).
    { apply lookup_insert_eq. }
    { intros k s Hin. destruct (Hsrc k s) as (xs & Hxs & Hs); [by right|].
      exists xs. split; [done|]. by eapply list_at_mono. }
    exists σ', obj'. split; [exact Hrun'|].
    split; [by rewrite Hmaps'; simpl; rewrite insert_insert_eq|].
    split; [by etrans|]. split; [by rewrite Hrows'|].
    intros k. rewrite fmap_cons. simpl. split.
    + intros Hin. destruct (decide (k ∈ entries.*1)) as [Hrest|Hrest].
      * by apply Hk.
      * apply elem_of_cons in Hin as [->|Hin]; [|done].
        rewrite (proj2 (Hk k0) Hrest), lookup_insert_eq, Hxs0.
        split; [|by intros s [= <-]].
        constructor. by eapply work_at_mono.
    + intros Hnin. apply not_elem_of_cons in Hnin as [Hne Hnin].
      by rewrite (proj2 (Hk k) Hnin), lookup_insert_ne.
Qed.

(** The three steps the two deep clones share: a new map, the entries of the
    source, the copy of each entry. *)
Lemma clone_map_spec {B} (next : loc → M B) (σ : store) (a : loc)
    (E : gmap string (list string)) :
  map_at σ (Some a) (Some E) →
  ∃ c σ' obj',
    (clone ←$ alloc_map ∅ ;;
     entries ←$ map_range (Some a) ;;
     cloneEntries clone entries ;;$
     next clone) σ = next c σ'
    ∧ maps σ !! c = None
    ∧ maps σ' = <[c := obj']> (maps σ)
    ∧ arrays σ ⊆ arrays σ'
    ∧ rows σ' = rows σ
    ∧ obj_at σ' obj' E ∧ tight obj'.
Proof.
  intros (obj & Hobj & HE).
  pose proof (fresh_lookup (maps σ)) as Hfresh.
  set (c := fresh (dom (maps σ))) in *.
  set (σ1 := Store (arrays σ) (<[c := ∅]> (maps σ)) (rows σ)).
  assert (maps σ1 !! a = Some obj) as Hobj1.
  { simpl. rewrite lookup_insert_ne; [done|]. intros ->. congruence. }
  destruct (cloneEntries_spec c E (map_to_list obj) σ1 ∅)
    as (σ' & obj' & Hrun & Hmaps & Hsub & Hrows & Hk).
  { apply lookup_insert_eq. }
  { intros k s Hin. apply elem_of_map_to_list in Hin.
    specialize (HE k). rewrite Hin in HE.
    inversion HE as [s' xs Hs Heq1 Heq2|]; subst. by exists xs. }
  exists c, σ', obj'. split.
  - unfold bind at 1, alloc_map. fold c. fold σ1.
    unfold bind at 1, map_range, bind at 1, read_map. rewrite Hobj1.
    cbn [ret]. unfold bind at 1. by rewrite Hrun.
  - split; [done|].
    split; [by rewrite Hmaps; simpl; rewrite insert_insert_eq|].
    split; [done|]. split; [done|].
    assert (∀ k, k ∈ (map_to_list obj).*1 ↔ is_Some (obj !! k)) as Hdom.
    { intros k. rewrite list_elem_of_fmap. split.
      - intros ([k' s] & -> & Hin). apply elem_of_map_to_list in Hin. eauto.
      - intros [s Hs]. exists (k, s). split; [done|].
        by apply elem_of_map_to_list. }
    split.
    + intros k. destruct (obj !! k) as [s|] eqn:Hs.
      * apply Hk, Hdom. eauto.
      * rewrite (proj2 (Hk k)), lookup_empty.
        -- specialize (HE k). rewrite Hs in HE. inversion HE. constructor.
        -- rewrite Hdom, Hs. by intros [? ?].
    + intros k s Hs. destruct (obj !! k) as [s0|] eqn:Hs0.
      * eapply Hk; [|exact Hs]. apply Hdom. eauto.
      * rewrite (proj2 (Hk k)), lookup_empty in Hs; [done|].
        rewrite Hdom, Hs0. by intros [? ?].
Qed.

(** ** The anonymous-entitlement step *)

Section Anonymous.

Variable growslice : nat → nat → nat.
Variable ec : Go.EntitlementsChecker.

Local Abbreviation d := (Go.defaultScheme ec).
Local Abbreviation anons := (Go.anonymousEntitlements ec).

Lemma anon_loop_other (entitlements : option loc) (scheme : string)
    (xs : list string) (st : slice * bool) (σ : store) :
  scheme ≠ d →
  fold_loop xs (anon_body growslice ec entitlements scheme) st σ
  = (Returned st, σ).
Proof.
  intros Hne. induction xs as [|x xs IH]; [done|].
  cbn [fold_loop]. unfold bind at 1, anon_body at 1. destruct st as [s added].
  apply GoFacts.eqb_false in Hne. rewrite Hne. cbn [ret]. apply IH.
Qed.

(** The clone [c], as it was when the loops started: the store [σb] and
    the object [obj_b]. *)
Variable c : loc.
Variable σb : store.
Variable obj_b : gmap string slice.

(** The state of the inner loop on the default scheme: the map holds the
    current slice under the default scheme and is otherwise as it was; the
    arrays of [σb] are intact; the current slice shows [l] and either has no
    spare capacity or sits on an array younger than [σb]. *)
Definition inner_inv (σ : store) (s : slice) (l : list string) : Prop :=
  maps σ = <[c := <[d := s]> obj_b]> (maps σb)
  ∧ arrays σb ⊆ arrays σ
  ∧ rows σ = rows σb
  ∧ work_at σ s l
  ∧ (cap s = len s ∨ ∀ a, base s = Some a → arrays σb !! a = None).

Lemma anon_loop_default (xs : list string) (σ : store) (s : slice)
    (l : list string) (added : bool) :
  inner_inv σ s l →
  ∃ s' σ',
    fold_loop xs (anon_body growslice ec (Some c) d) (s, added) σ
    = (Returned
         (s', added || negb (bool_decide (GoFacts.merge_anonymous l xs = l))),
       σ')
    ∧ inner_inv σ' s' (GoFacts.merge_anonymous l xs).
Proof.
  revert σ s l added. induction xs as [|x xs IH]; intros σ s l added Hinv.
  - exists s, σ. simpl. rewrite bool_decide_eq_true_2 by done.
    simpl. by rewrite orb_false_r.
  - destruct Hinv as (Hmaps & Hsub & Hrows & Hwork & Hyoung).
    cbn [fold_loop]. unfold bind at 1, anon_body at 1.
    rewrite String.eqb_refl. unfold bind at 1, Contains, bind at 1.
    rewrite (elements_spec _ _ _ (work_at_list_at _ _ _ Hwork)). cbn [ret].
    rewrite GoFacts.merge_anonymous_cons.
    destruct (Go.Contains l x) eqn:Hheld; cbn [negb].
    + apply IH. by repeat split.
    + destruct (append_spec growslice σb σ s [x] l Hwork Hsub)
        as (s1 & σ1 & Hrun & Hwork1 & Hsub1 & Hmaps1 & Hrows1 & Hyoung1);
        [done|done|].
      unfold bind at 1. rewrite Hrun.
      unfold bind at 1, map_assign, write_map.
      rewrite Hmaps1, Hmaps, lookup_insert_eq. cbn [ret].
      set (σ2 := Store _ _ _).
      destruct (IH σ2 s1 (l ++ [x]) true) as (s' & σ' & Hrun' & Hinv').
      { subst σ2. split; [|split; [done|split; [by rewrite Hrows1|]]].
        - simpl. by rewrite !insert_insert_eq.
        - split; [done|]. by right. }
      exists s', σ'. split; [|done]. rewrite Hrun'. do 3 f_equal.
      rewrite (bool_decide_eq_false_2 (GoFacts.merge_anonymous (l ++ [x]) xs = l));
        [by rewrite orb_true_r|].
      intros Heq.
      pose proof (GoFacts.merge_anonymous_length (l ++ [x]) xs) as Hlen.
      rewrite Heq, length_app in Hlen. simpl in Hlen. lia.
Qed.

(** The loop on the entries of the clone. *)
Definition outer_body (added : bool) (entry : string * slice) : M bool :=
  let '(scheme, entitlementList) := entry in
  st ←$ fold_loop anons (anon_body growslice ec (Some c) scheme)
          (entitlementList, added) ;;
  ret st.2.

Lemma outer_other (entries : list (string * slice)) (added : bool) (σ : store) :
  d ∉ entries.*1 →
  fold_loop entries outer_body added σ = (Returned added, σ).
Proof.
  revert added. induction entries as [|[k s] entries IH]; intros added Hd; [done|].
  rewrite fmap_cons, not_elem_of_cons in Hd. destruct Hd as [Hk Hd].
  cbn [fold_loop]. unfold bind at 1, outer_body at 1, bind at 1.
  rewrite anon_loop_other by done. cbn [ret]. by apply IH.
Qed.

Lemma outer_default (entries : list (string * slice)) (added : bool)
    (σ : store) (s : slice) (l : list string) :
  NoDup entries.*1 → (d, s) ∈ entries → inner_inv σ s l →
  ∃ s' σ',
    fold_loop entries outer_body added σ
    = (Returned
         (added || negb (bool_decide (GoFacts.merge_anonymous l anons = l))),
       σ')
    ∧ inner_inv σ' s' (GoFacts.merge_anonymous l anons).
Proof.
  revert added. induction entries as [|[k s0] entries IH];
    intros added Hnd Hin Hinv.
  - by apply elem_of_nil in Hin.
  - rewrite fmap_cons in Hnd. apply NoDup_cons in Hnd as [Hk Hnd].
    cbn [fold_loop]. unfold bind at 1, outer_body at 1, bind at 1.
    apply elem_of_cons in Hin as [[= <- <-]|Hin].
    + destruct (anon_loop_default anons σ s l added Hinv)
        as (s' & σ' & Hrun & Hinv').
      rewrite Hrun. cbn [ret]. exists s', σ'. split; [|done].
      by apply outer_other.
    + assert (k ≠ d) as Hne.
      { intros ->. apply Hk. apply list_elem_of_fmap. by exists (d, s). }
      rewrite anon_loop_other by done. cbn [ret]. by apply IH.
Qed.

Lemma bind_run {A B} (m : M A) (k : A → M B) (σ σ' : store) (a : A) :
  m σ = (Returned a, σ') → bind m k σ = k a σ'.
Proof. intros H. unfold bind. by rewrite H. Qed.

Lemma bind_panic {A B} (m : M A) (k : A → M B) (σ σ' : store) :
  m σ = (Panicked, σ') → bind m k σ = (Panicked, σ').
Proof. intros H. unfold bind. by rewrite H. Qed.

(** The clone at [c] shows [W]: the default scheme through a slice valid
    now, the other schemes through slices valid since [σb]. *)
Lemma map_at_default (σ : store) (obj : gmap string slice)
    (W : gmap string (list string)) (s : slice) (l : list string) :
  arrays σb ⊆ arrays σ →
  maps σ !! c = Some (<[d := s]> obj) →
  (∀ k, k ≠ d → option_Forall2 (work_at σb) (obj !! k) (W !! k)) →
  work_at σ s l →
  map_at σ (Some c) (Some (<[d := l]> W)).
Proof.
  intros Hsub Hc Hother Hs. exists (<[d := s]> obj). split; [done|].
  intros k. destruct (decide (d = k)) as [<-|Hne].
  - rewrite !lookup_insert_eq. constructor. by apply work_at_list_at.
  - rewrite !lookup_insert_ne by done.
    destruct (Hother k) as [s' l' Hs'|]; [done| |constructor].
    constructor. apply work_at_list_at. by eapply work_at_mono.
Qed.

(** [l := m[d]; l = append(l, xs...); m[d] = l] on the clone. *)
Lemma append_under_spec (σ : store) (obj : gmap string slice)
    (W : gmap string (list string)) (l xs : list string) :
  arrays σb ⊆ arrays σ →
  maps σ !! c = Some obj →
  (∀ k, k ≠ d → option_Forall2 (work_at σb) (obj !! k) (W !! k)) →
  work_at σ (default nil_slice (obj !! d)) l →
  (cap (default nil_slice (obj !! d)) = len (default nil_slice (obj !! d))
   ∨ ∀ a, base (default nil_slice (obj !! d)) = Some a → arrays σb !! a = None) →
  xs ≠ [] →
  ∃ σ',
    (l ←$ map_index (Some c) d ;;
     l ←$ append growslice l xs ;;
     map_assign (Some c) d l) σ = (Returned tt, σ')
    ∧ map_at σ' (Some c) (Some (<[d := l ++ xs]> W))
    ∧ arrays σb ⊆ arrays σ'
    ∧ rows σ' = rows σ
    ∧ ∀ c', c' ≠ c → maps σ' !! c' = maps σ !! c'.
Proof.
  intros Hsub Hc Hother Hwork Hyoung Hxs.
  assert (map_index (Some c) d σ = (Returned (default nil_slice (obj !! d)), σ))
    as Hindex.
  { unfold map_index, map_get, bind, read_map. by rewrite Hc. }
  rewrite (bind_run _ _ _ _ _ Hindex).
  destruct (append_spec growslice σb σ _ xs _ Hwork Hsub Hxs Hyoung)
    as (s' & σ1 & Hrun & Hwork1 & Hsub1 & Hmaps1 & Hrows1 & Hyoung1).
  rewrite (bind_run _ _ _ _ _ Hrun).
  unfold map_assign, write_map. rewrite Hmaps1, Hc.
  eexists. split; [done|]. split; [|split; [done|split; [done|]]].
  - eapply map_at_default; [done|apply lookup_insert_eq|done|done].
  - intros c' Hne. simpl. by rewrite lookup_insert_ne.
Qed.

End Anonymous.

(** ** The clone of the requirements *)

Lemma map_at_mono (σ σ' : store) (m : option loc) (E : Go.StringsMap) :
  arrays σ ⊆ arrays σ' → maps σ ⊆ maps σ' → map_at σ m E → map_at σ' m E.
Proof.
  intros Ha Hm. unfold map_at. destruct m as [a|], E as [e|]; try done.
  intros (obj & Hobj & Hk). exists obj.
  split; [by eapply lookup_weaken|].
  intros k. specialize (Hk k). destruct Hk; constructor.
  by eapply list_at_mono.
Qed.

(** A map of a fresh clone: working slices without spare capacity. *)
Definition clone_at (σ : store) (m : option loc) (W : Go.StringsMap) : Prop :=
  match m, W with
  | None, None => True
  | Some c, Some w =>
      ∃ obj, maps σ !! c = Some obj ∧ obj_at σ obj w ∧ tight obj
  | _, _ => False
  end.

Lemma clone_at_mono (σ σ' : store) (m : option loc) (W : Go.StringsMap) :
  arrays σ ⊆ arrays σ' → maps σ ⊆ maps σ' → clone_at σ m W → clone_at σ' m W.
Proof.
  intros Ha Hm. unfold clone_at. destruct m as [c|], W as [w|]; try done.
  intros (obj & Hobj & Hat & Htight). exists obj.
  split; [by eapply lookup_weaken|]. split; [by eapply obj_at_mono|done].
Qed.

(** Lines 258-277: the body of the loop of [deepCloneRequirements]. *)
Definition clone_row_body (clone : slice) (entry : nat * option loc) : M unit :=
  let '(i, reqMap) := entry in
  match reqMap with
  | None => ret tt
  | Some _ =>
      newMap ←$ alloc_map ∅ ;;
      entries ←$ map_range reqMap ;;
      cloneEntries newMap entries ;;$
      row_assign clone i (Some newMap)
  end.

Lemma clone_rows_loop (σ0 : store) (ra : loc) (n : nat)
    (todo : list (option loc)) (Rt : Go.Requirements) :
  ∀ (pre : list (option loc)) (Rp : Go.Requirements) (σ : store),
    rows σ !! ra = Some (pre ++ replicate (length todo) None) →
    length pre + length todo = n →
    maps σ0 ⊆ maps σ →
    Forall2 (map_at σ) todo Rt →
    Forall2 (clone_at σ) pre Rp →
    NoDup (omap id pre) →
    (∀ c, Some c ∈ pre → maps σ0 !! c = None) →
    ∃ σ' ms,
      foreach (imap (fun i m => (length pre + i, m)) todo)
        (clone_row_body (Slice (Some ra) 0 n n)) σ = (Returned tt, σ')
      ∧ rows σ' = <[ra := ms]> (rows σ)
      ∧ arrays σ ⊆ arrays σ' ∧ maps σ ⊆ maps σ'
      ∧ length ms = n
      ∧ Forall2 (clone_at σ') ms (Rp ++ Rt)
      ∧ NoDup (omap id ms)
      ∧ ∀ c, Some c ∈ ms → maps σ0 !! c = None.
Proof.
  revert Rt. induction todo as [|m todo IH];
    intros Rt pre Rp σ Hrow Hlen Hsub0 Htodo Hpre Hnd Hfresh.
  - apply Forall2_nil_inv_l in Htodo as ->.
    exists σ, pre. simpl in *. rewrite !(right_id_L [] (++)) in *.
    rewrite insert_id by done. repeat split; try done. lia.
  - apply Forall2_cons_inv_l in Htodo as (W & Rt' & HW & Htodo & ->).
    rewrite imap_cons. cbn [foreach]. rewrite Nat.add_0_r.
    rewrite (imap_ext _ (fun i x => (length pre + 1 + i, x)));
      [|intros i x _; simpl; f_equal; lia].
    destruct m as [a|].
    + destruct W as [E|]; [|done].
      destruct (clone_map_spec
                  (fun c => row_assign (Slice (Some ra) 0 n n) (length pre) (Some c))
                  σ a E HW)
        as (c & σ1 & obj' & Hrun & Hc & Hmaps & Hsub & Hrows & Hobj & Htight).
      unfold clone_row_body at 1.
      rewrite (bind_run _ _ σ
                 (Store (arrays σ1) (maps σ1)
                    (<[ra := (pre ++ [Some c]) ++ replicate (length todo) None]> (rows σ1)))
                 tt).
      2:{ rewrite Hrun. unfold row_assign. cbn [base len off].
          simpl in Hlen.
          assert ((length pre <? n)%nat = true) as -> by (apply Nat.ltb_lt; lia).
          unfold write_row. rewrite Hrows, Hrow. cbn [Nat.add].
          assert ((length pre
                   <? length (pre ++ replicate (length (Some a :: todo)) None))%nat
                  = true) as ->.
          { apply Nat.ltb_lt. rewrite length_app, length_replicate. simpl. lia. }
          do 3 f_equal.
          rewrite <- (Nat.add_0_r (length pre)), insert_app_r.
          by rewrite <- (assoc_L (++)). }
      set (σ2 := Store _ _ _).
      assert (maps σ ⊆ maps σ2) as Hsubm.
      { subst σ2. simpl. rewrite Hmaps. by apply insert_subseteq. }
      destruct (IH Rt' (pre ++ [Some c]) (Rp ++ [Some E]) σ2)
        as (σ' & ms & Hloop & Hrows' & Hsub' & Hsubm' & Hlen' & Hall & Hnd' & Hfresh').
      { subst σ2. simpl. by rewrite lookup_insert_eq. }
      { rewrite length_app. simpl in *. lia. }
      { by etrans. }
      { eapply Forall2_impl; [exact Htodo|]. intros m W'.
        by apply map_at_mono. }
      { apply Forall2_app.
        - eapply Forall2_impl; [exact Hpre|]. intros m W'.
          by apply clone_at_mono.
        - constructor; [|constructor]. exists obj'.
          subst σ2. simpl. rewrite Hmaps, lookup_insert_eq. by repeat split. }
      { rewrite omap_app. simpl. apply NoDup_app. split; [done|].
        split; [|apply NoDup_singleton].
        intros c' Hc' ->%list_elem_of_singleton.
        apply list_elem_of_omap in Hc' as (m' & Hm' & Heq). simpl in Heq.
        subst m'.
        pose proof (proj1 (Forall2_lookup _ _ _) Hpre) as Hlook.
        apply list_elem_of_lookup in Hm' as [i Hi].
        specialize (Hlook i). rewrite Hi in Hlook.
        inversion Hlook as [m' W' Hcl|]; subst.
        unfold clone_at in Hcl. destruct W' as [w|]; [|done].
        destruct Hcl as (obj & Hobj' & _). congruence. }
      { intros c' [Hin|Hin%list_elem_of_singleton]%elem_of_app.
        - by apply Hfresh.
        - injection Hin as ->. by eapply lookup_weaken_None. }
      rewrite length_app in Hloop. simpl in Hloop.
      exists σ', ms. split; [exact Hloop|].
      split; [by rewrite Hrows'; subst σ2; simpl; rewrite insert_insert_eq, Hrows|].
      split; [by etrans|]. split; [by etrans|].
      split; [done|]. split; [by rewrite <- (assoc_L (++)) in Hall|done].
    + destruct W as [E|]; [done|].
      unfold clone_row_body at 1. cbn [bind ret].
      destruct (IH Rt' (pre ++ [None]) (Rp ++ [None]) σ)
        as (σ' & ms & Hloop & Hrows' & Hsub' & Hsubm' & Hlen' & Hall & Hnd' & Hfresh').
      { by rewrite <- (assoc_L (++)). }
      { rewrite length_app. simpl in *. lia. }
      { done. }
      { done. }
      { apply Forall2_app; [done|]. by repeat constructor. }
      { rewrite omap_app. simpl. by rewrite (right_id_L [] (++)). }
      { intros c' [Hin|Hin%list_elem_of_singleton]%elem_of_app; [by apply Hfresh|done]. }
      rewrite length_app in Hloop. simpl in Hloop.
      exists σ', ms. split; [exact Hloop|].
      split; [done|]. split; [done|]. split; [done|].
      split; [done|]. split; [by rewrite <- (assoc_L (++)) in Hall|done].
Qed.

(** The clone of the requirements, with respect to the store [σ0] it was
    made in: a row without spare capacity, of maps that are clones, all
    distinct and none of them in [σ0]. *)
Definition row_clone_at (σ0 σ : store) (r : slice) (R : Go.Requirements) : Prop :=
  len r = length R ∧ cap r = len r ∧ off r = 0
  ∧ match base r with
    | None => R = []
    | Some ra =>
        ∃ ms, rows σ !! ra = Some ms
              ∧ length ms = len r
              ∧ Forall2 (clone_at σ) ms R
              ∧ NoDup (omap id ms)
              ∧ ∀ c, Some c ∈ ms → maps σ0 !! c = None
    end.

Lemma deepCloneRequirements_spec (σ : store) (r : slice) (R : Go.Requirements) :
  requirements_at σ r R →
  ∃ r' σ',
    deepCloneRequirements r σ = (Returned r', σ')
    ∧ arrays σ ⊆ arrays σ' ∧ maps σ ⊆ maps σ' ∧ rows σ ⊆ rows σ'
    ∧ row_clone_at σ σ' r' R.
Proof.
  intros HR. unfold deepCloneRequirements, is_nil.
  destruct (base r) as [a|] eqn:Hbase.
  - pose proof (fresh_lookup (rows σ)) as Hfresh.
    set (ra := fresh (dom (rows σ))) in *.
    set (σ1 := Store (arrays σ) (maps σ) (<[ra := replicate (len r) None]> (rows σ))).
    assert (make_row (len r) σ = (Returned (Slice (Some ra) 0 (len r) (len r)), σ1))
      as Hmake by done.
    rewrite (bind_run _ _ _ _ _ Hmake).
    assert (unchanged σ σ1) as Hun.
    { unfold unchanged. split; [intros ? ? H; exact H|].
      split; [intros ? ? H; exact H|]. intros a' cells Ha'. simpl.
      rewrite lookup_insert_ne; [done|]. intros <-. congruence. }
    destruct (row_elements_spec σ1 r R) as (ms & Hrow & HF & Hlen).
    { by eapply requirements_at_unchanged. }
    rewrite (bind_run _ _ _ _ _ Hrow).
    destruct (clone_rows_loop σ ra (len r) ms R [] [] σ1)
      as (σ' & ms' & Hloop & Hrows' & Hsub' & Hsubm' & Hlen' & Hall & Hnd' & Hfresh').
    { simpl. by rewrite lookup_insert_eq, Hlen. }
    { simpl. lia. }
    { done. }
    { done. }
    { constructor. }
    { constructor. }
    { intros c Hc. by apply elem_of_nil in Hc. }
    simpl in Hloop. unfold clone_row_body in Hloop.
    rewrite (bind_run _ _ _ _ _ Hloop). cbn [ret].
    eexists _, _. split; [done|].
    split; [done|]. split; [done|].
    split.
    { rewrite Hrows'. simpl. rewrite insert_insert_eq. by apply insert_subseteq. }
    unfold row_clone_at. cbn [len cap off base].
    split; [by rewrite <- Hlen, (Forall2_length _ _ _ HF)|].
    split; [done|]. split; [done|].
    exists ms'. rewrite Hrows', lookup_insert_eq. by repeat split.
  - unfold requirements_at in HR. rewrite Hbase in HR.
    destruct HR as (ms & [-> Hlen] & HF).
    apply Forall2_nil_inv_l in HF as ->.
    exists nil_slice, σ. by repeat split.
Qed.

Lemma Forall2_impl_elem {A B} (P Q : A → B → Prop) (l : list A) (k : list B) :
  Forall2 P l k → (∀ x y, x ∈ l → P x y → Q x y) → Forall2 Q l k.
Proof.
  induction 1 as [|x y l k HP HF IH]; intros Himpl; constructor.
  - apply Himpl; [left|done].
  - apply IH. intros x' y' Hx'. apply Himpl. by right.
Qed.

Lemma clone_at_frame (σ σ' : store) (m : option loc) (W : Go.StringsMap) :
  arrays σ ⊆ arrays σ' →
  (∀ c, m = Some c → maps σ' !! c = maps σ !! c) →
  clone_at σ m W → clone_at σ' m W.
Proof.
  intros Ha Hm. unfold clone_at. destruct m as [c|], W as [w|]; try done.
  intros (obj & Hobj & Hat & Htight). exists obj.
  split; [by rewrite Hm|]. split; [by eapply obj_at_mono|done].
Qed.

Lemma map_at_frame (σ σ' : store) (m : option loc) (W : Go.StringsMap) :
  arrays σ ⊆ arrays σ' →
  (∀ c, m = Some c → maps σ' !! c = maps σ !! c) →
  map_at σ m W → map_at σ' m W.
Proof.
  intros Ha Hm. unfold map_at. destruct m as [c|], W as [w|]; try done.
  intros (obj & Hobj & Hk). exists obj.
  split; [by rewrite Hm|]. intros k. specialize (Hk k).
  destruct Hk; constructor. by eapply list_at_mono.
Qed.

Section Verify.

Variable growslice : nat → nat → nat.
Variable ec : Go.EntitlementsChecker.

Local Abbreviation d := (Go.defaultScheme ec).
Local Abbreviation anons := (Go.anonymousEntitlements ec).

Lemma deepCloneEntitlements_spec (σ : store) (a : loc)
    (E : gmap string (list string)) :
  map_at σ (Some a) (Some E) →
  ∃ c σ' obj',
    deepCloneEntitlements (Some a) σ = (Returned (Some c), σ')
    ∧ maps σ !! c = None
    ∧ maps σ' = <[c := obj']> (maps σ)
    ∧ arrays σ ⊆ arrays σ'
    ∧ rows σ' = rows σ
    ∧ obj_at σ' obj' E ∧ tight obj'.
Proof.
  intros HE.
  destruct (clone_map_spec (fun c => ret (Some c)) σ a E HE)
    as (c & σ' & obj' & Hrun & H).
  by exists c, σ', obj'.
Qed.

Lemma withAnonymous_spec (σ : store) (e : option loc) (E : Go.Entitlements) :
  map_at σ e E →
  match Go.withAnonymous ec E with
  | Returned W =>
      ∃ w σ', withAnonymous growslice ec e σ = (Returned w, σ') ∧ map_at σ' w W
  | Panicked => (withAnonymous growslice ec e σ).1 = Panicked
  end.
Proof.
  intros HE. destruct (decide (anons = [])) as [Hn|Hn].
  { rewrite GoFacts.withAnonymous_none by done. exists e, σ.
    unfold withAnonymous. by rewrite Hn. }
  assert ((0 <? length anons)%nat = true) as Hpos.
  { destruct anons; [done|reflexivity]. }
  unfold withAnonymous. rewrite Hpos.
  destruct e as [a|], E as [em|]; try done.
  - rewrite GoFacts.withAnonymous_some by done.
    destruct (deepCloneEntitlements_spec σ a em HE)
      as (c & σ1 & obj1 & Hrun & Hfresh & Hmaps & Hsub & Hrows & Hobj & Htight).
    rewrite (bind_run _ _ _ _ _ Hrun).
    assert (maps σ1 !! c = Some obj1) as Hc.
    { by rewrite Hmaps, lookup_insert_eq. }
    assert (map_range (Some c) σ1 = (Returned (map_to_list obj1), σ1)) as Hrange.
    { unfold map_range, bind, read_map. by rewrite Hc. }
    rewrite (bind_run _ _ _ _ _ Hrange).
    assert (∀ k, k ≠ d → option_Forall2 (work_at σ1) (obj1 !! k) (em !! k))
      as Hother by (intros k _; apply Hobj).
    unfold GoFacts.anonymous_result.
    pose proof (Hobj d) as Hd.
    destruct (em !! d) as [l|] eqn:El.
    + inversion Hd as [s l' Hs Hsd Heq|]; subst l'. symmetry in Hsd.
      assert (inner_inv ec c σ1 obj1 σ1 s l) as Hinv.
      { split; [|split; [done|split; [done|split; [done|]]]].
        - by rewrite (insert_id obj1), (insert_id (maps σ1)).
        - left. by eapply Htight. }
      destruct (outer_default growslice ec c σ1 obj1 (map_to_list obj1)
                  false σ1 s l) as (s' & σ2 & Hloop & Hinv').
      { apply NoDup_fst_map_to_list. }
      { by apply elem_of_map_to_list. }
      { done. }
      unfold outer_body in Hloop. rewrite (bind_run _ _ _ _ _ Hloop).
      destruct Hinv' as (Hmaps2 & Hsub2 & Hrows2 & Hwork2 & Hyoung2).
      assert (maps σ2 !! c = Some (<[d := s']> obj1)) as Hc2.
      { by rewrite Hmaps2, lookup_insert_eq. }
      destruct (decide _) as [Hfix|Hfix]; simpl.
      * rewrite bool_decide_eq_true_2 by done. cbn [negb].
        rewrite Hfix in Hwork2.
        destruct (append_under_spec growslice ec c σ1 σ2 (<[d := s']> obj1)
                    em l anons) as (σ3 & Hfin & Hat & _); try done.
        { intros k Hk. rewrite lookup_insert_ne by done. by apply Hother. }
        { by rewrite lookup_insert_eq. }
        { by rewrite lookup_insert_eq. }
        rewrite (bind_run _ _ _ _ _ Hfin). by exists (Some c), σ3.
      * rewrite bool_decide_eq_false_2 by done. cbn [negb ret bind].
        exists (Some c), σ2. split; [done|].
        by eapply map_at_default.
    + inversion Hd as [|Hsd Heq]. symmetry in Hsd.
      assert (fold_loop (map_to_list obj1) (outer_body growslice ec c) false σ1
              = (Returned false, σ1)) as Hloop.
      { apply outer_other.
        intros ([k s] & Hk & Hin)%list_elem_of_fmap. simpl in Hk. subst k.
        apply elem_of_map_to_list in Hin. congruence. }
      unfold outer_body in Hloop. rewrite (bind_run _ _ _ _ _ Hloop). cbn [negb].
      destruct (append_under_spec growslice ec c σ1 σ1 obj1 em [] anons)
        as (σ3 & Hfin & Hat & _); try done.
      { rewrite Hsd. by repeat split. }
      { rewrite Hsd. by left. }
      rewrite (bind_run _ _ _ _ _ Hfin). by exists (Some c), σ3.
  - rewrite GoFacts.withAnonymous_nil by done.
    destruct (append_spec growslice σ σ nil_slice anons [])
      as (s' & σ1 & Hrun & _); [by repeat split|done|done|by left|].
    cbn [deepCloneEntitlements map_range].
    rewrite (bind_run _ _ σ σ None) by done.
    rewrite (bind_run _ _ σ σ []) by done.
    rewrite (bind_run _ _ σ σ false) by done. cbn [negb].
    erewrite bind_panic; [done|].
    rewrite (bind_run _ _ σ σ nil_slice) by done.
    by rewrite (bind_run _ _ _ _ _ Hrun).
Qed.

Lemma requirements_at_length (σ : store) (r : slice) (R : Go.Requirements) :
  requirements_at σ r R → length R = len r.
Proof.
  intros HR. destruct (row_elements_spec σ r R HR) as (ms & _ & HF & Hlen).
  by rewrite <- (Forall2_length _ _ _ HF).
Qed.

(** [VerifyEntitlements] over the store returns, or panics, as it does on
    the values the caller's references show. *)
Theorem VerifyEntitlements_refines (σ : store) (e : option loc) (r : slice)
    (E : Go.Entitlements) (R : Go.Requirements) :
  map_at σ e E → requirements_at σ r R →
  (VerifyEntitlements growslice ec e r σ).1 = Go.VerifyEntitlements ec E R.
Proof.
  intros HE HR. unfold VerifyEntitlements, Go.VerifyEntitlements.
  rewrite (requirements_at_length σ r R HR).
  destruct (len r =? 0)%nat; [done|].
  pose proof (withAnonymous_spec σ e E HE) as Hstep.
  pose proof (triple_unchanged σ _ (triple_withAnonymous growslice ec σ e))
    as Hframe.
  destruct (Go.withAnonymous ec E) as [W|]; cbn [obind].
  - destruct Hstep as (w & σ' & Hrun & Hat).
    rewrite Hrun in Hframe. simpl in Hframe.
    rewrite (bind_run _ _ _ _ _ Hrun).
    destruct (row_elements_spec σ' r R) as (ms & Hrow & HF & _).
    { by eapply requirements_at_unchanged. }
    rewrite (bind_run _ _ _ _ _ Hrow).
    by rewrite (anyRequirement_loop σ' w W ms R).
  - destruct (withAnonymous growslice ec e σ) as [[w|] σ'] eqn:Hrun;
      [done|].
    by rewrite (bind_panic _ _ _ _ Hrun).
Qed.

(** Lines 77-79: the body of the loop that adds the identity requirement. *)
Definition identity_body (identity : string) (req : option loc) : M unit :=
  l ←$ map_index req d ;;
  l ←$ append growslice l [identity] ;;
  map_assign req d l.

Lemma identity_loop (identity : string) (ms : list (option loc)) :
  ∀ (R : Go.Requirements) (σ : store),
    Forall2 (clone_at σ) ms R → NoDup (omap id ms) →
    match Go.addIdentity ec identity R with
    | Returned R' =>
        ∃ σ',
          foreach ms (identity_body identity) σ = (Returned tt, σ')
          ∧ Forall2 (map_at σ') ms R'
          ∧ arrays σ ⊆ arrays σ'
          ∧ rows σ' = rows σ
          ∧ ∀ c', Some c' ∉ ms → maps σ' !! c' = maps σ !! c'
    | Panicked => (foreach ms (identity_body identity) σ).1 = Panicked
    end.
Proof.
  induction ms as [|m ms IH]; intros R σ HR Hnd.
  - apply Forall2_nil_inv_l in HR as ->. simpl. exists σ. by repeat split.
  - apply Forall2_cons_inv_l in HR as (W & R' & HW & HR & ->).
    destruct m as [c|], W as [w|]; try done.
    destruct HW as (obj & Hobj & Hat & Htight).
    simpl in Hnd. apply NoDup_cons in Hnd as [Hc Hnd].
    assert (work_at σ (default nil_slice (obj !! d)) (default [] (w !! d)))
      as Hwork.
    { specialize (Hat d). destruct Hat; simpl; [done|by repeat split]. }
    assert (cap (default nil_slice (obj !! d))
            = len (default nil_slice (obj !! d))) as Htight_d.
    { destruct (obj !! d) as [s|] eqn:Hs; simpl; [by eapply Htight|done]. }
    destruct (append_under_spec growslice ec c σ σ obj w
                (default [] (w !! d)) [identity]
                (reflexivity _) Hobj (fun k _ => Hat k) Hwork
                (or_introl Htight_d))
      as (σ1 & Hrun & Hat1 & Hsub1 & Hrows1 & Hframe1); [done|].
    assert (Forall2 (clone_at σ1) ms R') as HR1.
    { eapply Forall2_impl_elem; [exact HR|]. intros m' W' Hm'.
      apply clone_at_frame; [done|]. intros c' ->. apply Hframe1.
      intros ->. apply Hc. apply list_elem_of_omap. by exists (Some c). }
    specialize (IH R' σ1 HR1 Hnd).
    cbn [Go.addIdentity Go.map_assign obind foreach].
    fold (identity_body identity (Some c)) in Hrun.
    rewrite (bind_run _ _ _ _ _ Hrun).
    destruct (Go.addIdentity ec identity R') as [R''|]; cbn [obind].
    + destruct IH as (σ' & Hloop & HF & Hsub' & Hrows' & Hframe').
      exists σ'. split; [done|]. split; [|split; [by etrans|split]].
      * constructor; [|done].
        eapply map_at_frame; [exact Hsub'| |exact Hat1].
        intros c' [= <-]. apply Hframe'.
        intros Hin. apply Hc. apply list_elem_of_omap. by exists (Some c).
      * by rewrite Hrows'.
      * intros c' Hc'. apply not_elem_of_cons in Hc' as [Hne Hc'].
        rewrite Hframe' by done. apply Hframe1. congruence.
    + done.
Qed.

(** Lines 82-90: the clone of the entitlements, the identity entitlement
    and the call of [VerifyEntitlements]. *)
Lemma entitlements_part (identity : string) (σ : store) (e : option loc)
    (rq : slice) (E : Go.Entitlements) (Rq : Go.Requirements) :
  map_at σ e E → requirements_at σ rq Rq →
  ((entitlements ←$ deepCloneEntitlements e ;;
    (if Go.grantReadyByDefault ec then
       l ←$ map_index entitlements d ;;
       l ←$ append growslice l [identity] ;;
       map_assign entitlements d l
     else ret tt) ;;$
    VerifyEntitlements growslice ec entitlements rq) σ).1
  = (entitlements ←!
       (if Go.grantReadyByDefault ec then
          Go.map_assign E d (Go.map_index E d ++ [identity])
        else Returned E);;
     Go.VerifyEntitlements ec entitlements Rq).
Proof.
  intros HE HR. destruct e as [a|], E as [em|]; try done.
  - destruct (deepCloneEntitlements_spec σ a em HE)
      as (c & σ1 & obj' & Hrun & Hfresh & Hmaps & Hsub & Hrows & Hobj & Htight).
    rewrite (bind_run _ _ _ _ _ Hrun).
    assert (maps σ1 !! c = Some obj') as Hc by (by rewrite Hmaps, lookup_insert_eq).
    assert (∀ a' o, maps σ !! a' = Some o → maps σ1 !! a' = Some o) as Hkeep.
    { intros a' o Ha'. rewrite Hmaps, lookup_insert_ne; [done|].
      intros <-. congruence. }
    destruct (Go.grantReadyByDefault ec); cbn [Go.map_assign obind].
    + assert (work_at σ1 (default nil_slice (obj' !! d)) (default [] (em !! d)))
        as Hwork.
      { specialize (Hobj d). destruct Hobj; simpl; [done|by repeat split]. }
      assert (cap (default nil_slice (obj' !! d))
              = len (default nil_slice (obj' !! d))) as Htight_d.
      { destruct (obj' !! d) as [s|] eqn:Hs; simpl; [by eapply Htight|done]. }
      destruct (append_under_spec growslice ec c σ1 σ1 obj' em
                  (default [] (em !! d)) [identity]
                  (reflexivity _) Hc (fun k _ => Hobj k) Hwork
                  (or_introl Htight_d))
        as (σ2 & Hrun2 & Hat2 & Hsub2 & Hrows2 & Hframe2); [done|].
      rewrite (bind_run _ _ _ _ _ Hrun2).
      apply VerifyEntitlements_refines; [exact Hat2|].
      eapply requirements_at_unchanged; [|exact HR].
      split; [|split].
      * intros a' cells Ha'. eapply lookup_weaken; [|exact Hsub2].
        by eapply lookup_weaken.
      * intros a' o Ha'. rewrite Hframe2; [by apply Hkeep|].
        intros ->. congruence.
      * intros a' cells Ha'. by rewrite Hrows2, Hrows.
    + rewrite (bind_run _ _ σ1 σ1 tt) by done.
      apply VerifyEntitlements_refines; [by eapply obj_at_map_at|].
      eapply requirements_at_unchanged; [|exact HR].
      split; [|split].
      * intros a' cells Ha'. by eapply lookup_weaken.
      * done.
      * intros a' cells Ha'. by rewrite Hrows.
  - rewrite (bind_run _ _ σ σ None) by done.
    destruct (Go.grantReadyByDefault ec); cbn [Go.map_assign obind]; [done|].
    rewrite (bind_run _ _ σ σ tt) by done.
    by apply VerifyEntitlements_refines.
Qed.

(** [VerifyResourceEntitlements] over the store returns, or panics, as it
    does on the values the caller's references show. *)
Theorem VerifyResourceEntitlements_refines (resource resourceName : string)
    (σ : store) (e : option loc) (r : slice)
    (E : Go.Entitlements) (R : Go.Requirements) :
  map_at σ e E → requirements_at σ r R →
  (VerifyResourceEntitlements growslice ec resource resourceName e r σ).1
  = Go.VerifyResourceEntitlements ec resource resourceName E R.
Proof.
  intros HE HR.
  unfold VerifyResourceEntitlements, Go.VerifyResourceEntitlements.
  unfold Go.deepCloneEntitlements.
  rewrite GoFacts.deepCloneRequirements_id, GoFacts.cloneStringsMap_id.
  set (identity := Go.identity_of resource resourceName).
  destruct (deepCloneRequirements_spec σ r R HR)
    as (r' & σ1 & Hrun & Ha1 & Hm1 & Hr1 & Hlen & Hcap & Hoff & Hbase).
  rewrite (bind_run _ _ _ _ _ Hrun). rewrite Hlen.
  pose proof (map_at_mono σ σ1 e E Ha1 Hm1 HE) as HE1.
  destruct R as [|W R]; cbn [length Nat.eqb].
  - (* no requirement: a single entry with the identity *)
    set (σ2 := Store (<[fresh (dom (arrays σ1)) := [identity]]> (arrays σ1))
                 (maps σ1) (rows σ1)).
    set (l := fresh (dom (arrays σ1))).
    set (m := fresh (dom (maps σ2))).
    set (σ3 := Store (arrays σ2)
                 (<[m := {[ d := Slice (Some l) 0 1 1 ]}]> (maps σ2)) (rows σ2)).
    assert (row_elements r' σ3 = (Returned [], σ3)) as Hold.
    { unfold row_elements. destruct (base r') as [ra|]; [|done].
      destruct Hbase as (ms & Hms & Hlen' & _).
      unfold bind, read_row. simpl. rewrite Hms. by rewrite Hlen. }
    set (cp := Nat.max 1 (growslice 0 1)).
    set (ra' := fresh (dom (rows σ3))).
    set (σ4 := Store (arrays σ3) (maps σ3)
                 (<[ra' := [Some m] ++ replicate (cp - 1) None]> (rows σ3))).
    assert ((l0 ←$ alloc_array [identity] ;;
             m0 ←$ alloc_map {[ d := Slice (Some l0) 0 1 1 ]} ;;
             row_append growslice r' (Some m0)) σ1
            = (Returned (Slice (Some ra') 0 1 cp), σ4)) as Hlit.
    { rewrite (bind_run _ _ σ1 σ2 l) by done.
      rewrite (bind_run _ _ σ2 σ3 m) by done.
      unfold row_append. rewrite Hcap, Hlen. cbn [length Nat.leb].
      by rewrite (bind_run _ _ _ _ _ Hold). }
    rewrite (bind_run _ _ _ _ _ Hlit). cbn [app obind].
    pose proof (fresh_lookup (arrays σ1)) as Hl. fold l in Hl.
    pose proof (fresh_lookup (maps σ2)) as Hmf. fold m in Hmf.
    pose proof (fresh_lookup (rows σ3)) as Hrf. fold ra' in Hrf.
    apply entitlements_part.
    + eapply map_at_mono; [| |exact HE1].
      * simpl. by apply insert_subseteq.
      * simpl. by apply insert_subseteq.
    + exists [Some m]. cbn [base off len]. split.
      * eexists. split; [apply lookup_insert_eq|].
        split; [simpl; lia|done].
      * constructor; [|constructor].
        exists {[ d := Slice (Some l) 0 1 1 ]}.
        split; [apply lookup_insert_eq|]. intros k.
        destruct (decide (k = d)) as [->|Hne].
        -- rewrite !lookup_singleton_eq. constructor.
           unfold list_at. cbn [base off len]. exists [identity].
           split; [apply lookup_insert_eq|]. split; [simpl; lia|done].
        -- rewrite !lookup_singleton_ne by done. constructor.
  - (* some requirements: the identity is added to each *)
    destruct (base r') as [ra|] eqn:Hra; [|done].
    destruct Hbase as (ms & Hms & Hlen' & Hall & Hnd & Hnew).
    assert (row_elements r' σ1 = (Returned ms, σ1)) as Hrow.
    { unfold row_elements. rewrite Hra. unfold bind, read_row. rewrite Hms.
      by rewrite Hoff, drop_0, take_ge by lia. }
    pose proof (identity_loop identity ms (W :: R) σ1 Hall Hnd) as Hloop.
    fold identity in Hloop.
    destruct (Go.addIdentity ec identity (W :: R)) as [R'|]; cbn [obind].
    + destruct Hloop as (σ2 & Hloop & HF & Ha2 & Hr2 & Hframe).
      unfold identity_body in Hloop.
      rewrite (bind_run _ _ σ1 σ2 r').
      2:{ rewrite (bind_run _ _ _ _ _ Hrow).
          by rewrite (bind_run _ _ _ _ _ Hloop). }
      apply entitlements_part.
      * eapply map_at_frame; [exact Ha2| |exact HE1].
        intros a ->. apply Hframe. intros Hin. apply Hnew in Hin.
        unfold map_at in HE. destruct E as [em|]; [|done].
        destruct HE as (obj & Hobj & _). congruence.
      * exists ms. rewrite Hra. split; [|done].
        exists ms. rewrite Hr2. split; [done|].
        split; [lia|]. by rewrite Hoff, drop_0, take_ge by lia.
    + unfold identity_body in Hloop.
      destruct (foreach ms _ σ1) as [[[]|] σ2] eqn:Hfe; [done|].
      rewrite (bind_panic _ _ σ1 σ2); [done|].
      rewrite (bind_run _ _ _ _ _ Hrow).
      by rewrite (bind_panic _ _ _ _ Hfe).
Qed.

End Verify.

End Refine.

(** * The tests of the repository, run on the two models *)

Module Tests.
Import Go.

(** A caller that builds its literals in an empty store and calls. *)
Definition call_VerifyEntitlements (anon : list string)
    (e : list (string * list string)) (r : list (list (string * list string)))
  : outcome bool :=
  (Mem.bind (Mem.literal_map e) (fun e =>
   Mem.bind (Mem.literal_requirements r) (fun r =>
   Mem.VerifyEntitlements Mem.double (bearer_checker anon) e r))
     Mem.empty_store).1.

Definition call_VerifyResourceEntitlements (anon : list string)
    (resource resourceName : string)
    (e : list (string * list string)) (r : list (list (string * list string)))
  : outcome bool :=
  (Mem.bind (Mem.literal_map e) (fun e =>
   Mem.bind (Mem.literal_requirements r) (fun r =>
   Mem.VerifyResourceEntitlements Mem.double (bearer_checker anon)
     resource resourceName e r))
     Mem.empty_store).1.

Example none :
  VerifyEntitlements (bearer_checker []) (ents []) [] = Returned true
  ∧ call_VerifyEntitlements [] [] [] = Returned true.
Proof. split; by vm_compute. Qed.

Example opaque_no_entitlements :
  VerifyEntitlements (bearer_checker []) (ents [])
    [ents [("bearer", ["pages"])]] = Returned false
  ∧ call_VerifyEntitlements [] [] [[("bearer", ["pages"])]] = Returned false.
Proof. split; by vm_compute. Qed.

Example long_entitlement_matches_short_requirement :
  VerifyEntitlements (bearer_checker [])
    (ents [("bearer", ["pages:/foo:read"])])
    [ents [("bearer", ["pages:read"])]] = Returned true
  ∧ call_VerifyEntitlements [] [("bearer", ["pages:/foo:read"])]
      [[("bearer", ["pages:read"])]] = Returned true.
Proof. split; by vm_compute. Qed.

Example short_multiple_verbs :
  VerifyEntitlements (bearer_checker [])
    (ents [("bearer", ["pages:read"])])
    [ents [("bearer", ["pages:read"; "pages:write"])]] = Returned false
  ∧ call_VerifyEntitlements [] [("bearer", ["pages:read"; "pages:write"])]
      [[("bearer", ["pages:read"; "pages:write"])]] = Returned true.
Proof. split; by vm_compute. Qed.

Example or_matches_one_of_the_requirements :
  call_VerifyEntitlements [] [("bearer", ["users:/foo:read"])]
    [[("bearer", ["users:/bar:read"])]; [("bearer", ["users:/foo:read"])]]
  = Returned true.
Proof. by vm_compute. Qed.

Example and_does_not_match_all_schemes :
  VerifyEntitlements (bearer_checker []) (ents [("bearer", [])])
    [ents [("bearer", []); ("oauth2", [])]] = Returned false
  ∧ call_VerifyEntitlements [] [("bearer", [])]
      [[("bearer", []); ("oauth2", [])]] = Returned false.
Proof. split; by vm_compute. Qed.

Example identity_entitlements_are_needed :
  VerifyResourceEntitlements (bearer_checker []) "pages" "foo" (ents []) []
  = Returned false
  ∧ call_VerifyResourceEntitlements [] "pages" "foo" [] [] = Returned false.
Proof. split; by vm_compute. Qed.

Example identity_entitlements_are_added_by_anonymousEntitlements :
  VerifyResourceEntitlements (bearer_checker ["pages:read"]) "pages" "foo"
    (ents []) [] = Returned true
  ∧ call_VerifyResourceEntitlements ["pages:read"] "pages" "foo" [] []
    = Returned true.
Proof. split; by vm_compute. Qed.

Example requirements_are_raised_above_anonymousEntitlements :
  VerifyResourceEntitlements (bearer_checker ["pages:read"]) "pages" "foo"
    (ents []) [ents [("bearer", ["pages:write"])]] = Returned false
  ∧ call_VerifyResourceEntitlements ["pages:read"] "pages" "foo" []
      [[("bearer", ["pages:write"])]] = Returned false.
Proof. split; by vm_compute. Qed.

Example requirements_met_by_entitlements :
  VerifyResourceEntitlements (bearer_checker ["pages:read"]) "pages" "foo"
    (ents [("bearer", ["pages:write"])])
    [ents [("bearer", ["pages:write"])]] = Returned true
  ∧ call_VerifyResourceEntitlements ["pages:read"] "pages" "foo"
      [("bearer", ["pages:write"])] [[("bearer", ["pages:write"])]]
    = Returned true.
Proof. split; by vm_compute. Qed.

(** A nil entitlements map with anonymous entitlements configured: the
    store-level program panics as the value-level program does. *)
Example nil_entitlements_with_anonymous :
  (Mem.VerifyEntitlements Mem.double (bearer_checker ["pages:read"])
     None (Mem.Slice (Some 0) 0 1 1)
     (Mem.Store ∅ {[ 0 := ∅ ]} {[ 0 := [Some 0] ]})).1 = Panicked.
Proof. by vm_compute. Qed.

End Tests.

(** * Laws of the value-level program *)

Module Laws.
Import Go GoFacts.

(** ** The matching rule *)

Lemma Split_short (r v : string) :
  colon_free r = true → colon_free v = true → Split (r ++ ":" ++ v) = [r; v].
Proof. intros Hr Hv. rewrite Split_field by done. by rewrite Split_colon_free. Qed.

(** The number of colons of a string. *)
Fixpoint colons (s : string) : nat :=
  match s with
  | EmptyString => 0
  | String c rest => if Ascii.eqb c ":" then S (colons rest) else colons rest
  end.

Lemma Split_length (s : string) : length (Split s) = S (colons s).
Proof.
  induction s as [|c rest IH]; [done|]. simpl.
  destruct (Ascii.eqb c ":"); simpl; [by rewrite IH|].
  destruct (Split rest); simpl in *; done.
Qed.

Lemma colons_app (a b : string) : colons (a ++ b) = (colons a + colons b)%nat.
Proof.
  induction a as [|c a IH]; [done|]. simpl.
  destruct (Ascii.eqb c ":"); simpl; by rewrite IH.
Qed.

Lemma colon_free_colons (s : string) : colon_free s = true ↔ colons s = 0.
Proof.
  induction s as [|c rest IH]; [done|]. simpl.
  destruct (Ascii.eqb c ":"); simpl; [split; discriminate|done].
Qed.

Lemma colons_identity (resource resourceName : string) :
  colons (identity_of resource resourceName)
  = (colons resource + colons resourceName + 2)%nat.
Proof.
  unfold identity_of. rewrite !colons_app. simpl. lia.
Qed.

Lemma structured_colons (s : string) :
  structured s = true ↔ colons s = 1 ∨ colons s = 2.
Proof.
  unfold structured. rewrite bool_decide_eq_true, Split_length. lia.
Qed.

(** What a successful match says about the two strings. *)
Lemma entitlementMatches_inv (held required : string) :
  entitlementMatches held required = true
  ↔ held = required
    ∨ ∃ res n v n' v',
        short_syntax (Split held) = [res; n; v]
        ∧ short_syntax (Split required) = [res; n'; v']
        ∧ (v = "all" ∨ v = v')
        ∧ (n = "" ∨ n = "*" ∨ n' = "" ∨ n' = "*" ∨ n = n').
Proof.
  split.
  - intros H. destruct (decide (held = required)) as [|Hne]; [by left|right].
    destruct (structured held) eqn:Sh.
    2:{ rewrite entitlementMatches_unstructured in H by (by left).
        by apply eqb_true in H. }
    destruct (structured required) eqn:Sr.
    2:{ rewrite entitlementMatches_unstructured in H by (by right).
        by apply eqb_true in H. }
    apply bool_decide_eq_true, short_syntax_length in Sh, Sr.
    destruct (short_syntax (Split held)) as [|p0 [|p1 [|p2 [|]]]] eqn:Eh;
      try done.
    destruct (short_syntax (Split required)) as [|r0 [|r1 [|r2 [|]]]] eqn:Er;
      try done.
    rewrite (entitlementMatches_fields _ _ _ _ _ _ _ _ Eh Er) in H.
    apply andb_true_iff in H as [H Hn]. apply andb_true_iff in H as [Hr Hv].
    apply eqb_true in Hr as <-.
    exists p0, p1, p2, r1, r2. split; [done|]. split; [done|].
    split; [by apply verb_rule_spec|by apply name_rule_spec].
  - intros [->|(res & n & v & n' & v' & Eh & Er & Hv & Hn)].
    + apply entitlementMatches_refl.
    + rewrite (entitlementMatches_fields _ _ _ _ _ _ _ _ Eh Er).
      rewrite String.eqb_refl. simpl.
      apply verb_rule_spec in Hv. apply name_rule_spec in Hn.
      by rewrite Hv, Hn.
Qed.

Lemma name_rule_wildcard_l (n n' : string) :
  is_wildcard n = true → name_rule n n' = true.
Proof. intros H. unfold name_rule. by rewrite H. Qed.

Lemma name_rule_wildcard_r (n n' : string) :
  is_wildcard n' = true → name_rule n n' = true.
Proof. intros H. unfold name_rule. by rewrite H, orb_true_r. Qed.

Lemma verb_rule_refl (v : string) : verb_rule v v = true.
Proof. unfold verb_rule. by rewrite String.eqb_refl, orb_true_r. Qed.

(** Two held strings with the same resource type and verb and a wildcard
    name match the same required strings. *)
Lemma held_wildcards_agree (h1 h2 res n1 n2 v q : string) :
  short_syntax (Split h1) = [res; n1; v] →
  short_syntax (Split h2) = [res; n2; v] →
  is_wildcard n1 = true → is_wildcard n2 = true →
  entitlementMatches h1 q = entitlementMatches h2 q.
Proof.
  assert (∀ a b na nb,
            short_syntax (Split a) = [res; na; v] →
            short_syntax (Split b) = [res; nb; v] →
            is_wildcard nb = true →
            entitlementMatches a q = true → entitlementMatches b q = true)
    as Hdir.
  { intros a b na nb Ea Eb Wb H.
    apply entitlementMatches_inv in H
      as [->|(res' & n & v0 & n' & v' & Ea' & Eq & Hv & Hn)].
    - rewrite (entitlementMatches_fields _ _ _ _ _ _ _ _ Eb Ea).
      by rewrite String.eqb_refl, verb_rule_refl, name_rule_wildcard_l.
    - rewrite Ea in Ea'. injection Ea' as <- <- <-.
      rewrite (entitlementMatches_fields _ _ _ _ _ _ _ _ Eb Eq).
      apply verb_rule_spec in Hv.
      by rewrite String.eqb_refl, Hv, name_rule_wildcard_l. }
  intros E1 E2 W1 W2.
  destruct (entitlementMatches h1 q) eqn:M1.
  - symmetry. by eapply (Hdir h1 h2).
  - destruct (entitlementMatches h2 q) eqn:M2; [|done].
    rewrite <- M1. by eapply (Hdir h2 h1).
Qed.

(** Two required strings with the same resource type and verb and a wildcard
    name are matched by the same held strings. *)
Lemma required_wildcards_agree (q1 q2 res n1 n2 v h : string) :
  short_syntax (Split q1) = [res; n1; v] →
  short_syntax (Split q2) = [res; n2; v] →
  is_wildcard n1 = true → is_wildcard n2 = true →
  entitlementMatches h q1 = entitlementMatches h q2.
Proof.
  assert (∀ a b na nb,
            short_syntax (Split a) = [res; na; v] →
            short_syntax (Split b) = [res; nb; v] →
            is_wildcard na = true → is_wildcard nb = true →
            entitlementMatches h a = true → entitlementMatches h b = true)
    as Hdir.
  { intros a b na nb Ea Eb Wa Wb H.
    apply entitlementMatches_inv in H
      as [->|(res' & n & v0 & n' & v' & Eh & Ea' & Hv & Hn)].
    - rewrite (entitlementMatches_fields _ _ _ _ _ _ _ _ Ea Eb).
      by rewrite String.eqb_refl, verb_rule_refl, name_rule_wildcard_l.
    - rewrite Ea in Ea'. injection Ea' as <- <- <-.
      rewrite (entitlementMatches_fields _ _ _ _ _ _ _ _ Eh Eb).
      apply verb_rule_spec in Hv.
      by rewrite String.eqb_refl, Hv, name_rule_wildcard_r. }
  intros E1 E2 W1 W2.
  destruct (entitlementMatches h q1) eqn:M1.
  - symmetry. by eapply (Hdir q1 q2).
  - destruct (entitlementMatches h q2) eqn:M2; [|done].
    rewrite <- M1. by eapply (Hdir q2 q1).
Qed.

(** ** The loops over lists *)

Lemma hasEntitlement_app (l1 l2 : list string) (r : string) :
  hasEntitlement (l1 ++ l2) r = hasEntitlement l1 r || hasEntitlement l2 r.
Proof.
  induction l1 as [|e l1 IH]; [done|]. simpl.
  by destruct (entitlementMatches e r).
Qed.

Lemma hasEntitlement_subseteq (l l' : list string) (r : string) :
  (∀ x, x ∈ l → x ∈ l') →
  hasEntitlement l r = true → hasEntitlement l' r = true.
Proof.
  intros Hsub. rewrite !hasEntitlement_true.
  intros (e & He & Hm). exists e. split; [by apply Hsub|done].
Qed.

Lemma satisfiesRequirement_app (e r1 r2 : list string) :
  satisfiesRequirement e (r1 ++ r2)
  = satisfiesRequirement e r1 && satisfiesRequirement e r2.
Proof.
  induction r1 as [|r r1 IH]; [done|]. simpl.
  by destruct (hasEntitlement e r).
Qed.

Lemma satisfiesRequirement_subseteq (l l' rs rs' : list string) :
  (∀ x, x ∈ l → x ∈ l') → (∀ r, r ∈ rs' → r ∈ rs) →
  satisfiesRequirement l rs = true → satisfiesRequirement l' rs' = true.
Proof.
  intros Hl Hr. rewrite !satisfiesRequirement_true.
  intros H r Hin. eapply hasEntitlement_subseteq; [exact Hl|]. by apply H, Hr.
Qed.

Lemma anyRequirement_app (e : Entitlements) (R1 R2 : Requirements) :
  anyRequirement e (R1 ++ R2) = anyRequirement e R1 || anyRequirement e R2.
Proof.
  induction R1 as [|r R1 IH]; [done|]. simpl.
  by destruct (satisfiesAndRequirements e r).
Qed.

Lemma anyRequirement_perm (e : Entitlements) (R R' : Requirements) :
  R ≡ₚ R' → anyRequirement e R = anyRequirement e R'.
Proof.
  intros HP.
  destruct (anyRequirement e R) eqn:H1, (anyRequirement e R') eqn:H2; try done.
  - apply anyRequirement_true in H1 as (r & Hr & Hs).
    rewrite <- H2. symmetry. apply anyRequirement_true.
    exists r. by rewrite <- HP.
  - apply anyRequirement_true in H2 as (r & Hr & Hs).
    rewrite <- H1. apply anyRequirement_true.
    exists r. by rewrite HP.
Qed.

(** ** The mapping the requirements are checked against *)

(** One mapping holds at least what another holds: the same scheme keys
    and, under each, the same strings, possibly more of both. *)
Definition covers (m m' : gmap string (list string)) : Prop :=
  ∀ k l, m !! k = Some l → ∃ l', m' !! k = Some l' ∧ ∀ x, x ∈ l → x ∈ l'.

Lemma covers_refl (m : gmap string (list string)) : covers m m.
Proof. intros k l Hk. by exists l. Qed.

Lemma entry_satisfied_covers (m m' : gmap string (list string))
    (entry : StringsMap) :
  covers m m' →
  entry_satisfied (Some m) entry → entry_satisfied (Some m') entry.
Proof.
  intros Hc H scheme required Hs.
  destruct (H scheme required Hs) as (heldList & Hheld & Hall).
  destruct (Hc scheme heldList Hheld) as (l' & Hl' & Hsub).
  exists l'. split; [done|]. intros r Hr.
  destruct (Hall r Hr) as (h & Hh & Hm). exists h. split; [by apply Hsub|done].
Qed.

Section Working.

Variable ec : EntitlementsChecker.

Local Abbreviation d := (defaultScheme ec).
Local Abbreviation anons := (anonymousEntitlements ec).

(** The result of lines 106-125 on a mapping that is not nil. *)
Definition working (m : gmap string (list string)) : gmap string (list string) :=
  if decide (anons = []) then m else anonymous_result ec m.

Lemma withAnonymous_working (m : gmap string (list string)) :
  withAnonymous ec (Some m) = Returned (Some (working m)).
Proof.
  unfold working. destruct (decide _) as [E|E].
  - by apply withAnonymous_none.
  - by apply withAnonymous_some.
Qed.

Lemma working_lookup_ne (m : gmap string (list string)) (k : string) :
  k ≠ d → working m !! k = m !! k.
Proof.
  intros Hk. unfold working. destruct (decide _); [done|].
  by apply anonymous_result_lookup_ne.
Qed.

Lemma working_default (m : gmap string (list string)) (x : string) :
  x ∈ default [] (working m !! d) ↔ x ∈ default [] (m !! d) ∨ x ∈ anons.
Proof.
  unfold working. destruct (decide _) as [E|E].
  - rewrite E. split; [by left|]. intros [H|H]; [done|]. by apply elem_of_nil in H.
  - destruct (anonymous_result_default ec m) as (l' & Hl' & Hin).
    rewrite Hl'. simpl. apply Hin.
Qed.

Lemma working_default_is_Some (m : gmap string (list string)) :
  is_Some (working m !! d) ↔ is_Some (m !! d) ∨ anons ≠ [].
Proof.
  unfold working. destruct (decide _) as [E|E].
  - split; [by left|]. by intros [H|H].
  - destruct (anonymous_result_default ec m) as (l' & Hl' & _).
    rewrite Hl'. split; [by right|eauto].
Qed.

Lemma VerifyEntitlements_some (m : gmap string (list string))
    (R : Requirements) :
  ∃ b, VerifyEntitlements ec (Some m) R = Returned b
       ∧ (b = true
          ↔ R = [] ∨ ∃ entry, entry ∈ R ∧ entry_satisfied (Some (working m)) entry).
Proof.
  apply VerifyEntitlements_working, withAnonymous_working.
Qed.

Lemma VerifyEntitlements_true (m : gmap string (list string))
    (R : Requirements) :
  VerifyEntitlements ec (Some m) R = Returned true
  ↔ R = [] ∨ ∃ entry, entry ∈ R ∧ entry_satisfied (Some (working m)) entry.
Proof.
  destruct (VerifyEntitlements_some m R) as (b & Hb & Hiff).
  rewrite Hb, <- Hiff. split; [by intros [= ->]|by intros ->].
Qed.

Lemma VerifyEntitlements_nonempty (e : Entitlements) (R : Requirements) :
  R ≠ [] →
  VerifyEntitlements ec e R
  = (w ←! withAnonymous ec e;; Returned (anyRequirement w R)).
Proof. intros HR. unfold VerifyEntitlements. by destruct R. Qed.

End Working.

(** A checker with more anonymous entitlements and a caller holding more
    give a working mapping that holds more. *)
Lemma working_covers (ec ec' : EntitlementsChecker)
    (m m' : gmap string (list string)) :
  defaultScheme ec' = defaultScheme ec →
  (∀ a, a ∈ anonymousEntitlements ec → a ∈ anonymousEntitlements ec') →
  covers m m' → covers (working ec m) (working ec' m').
Proof.
  intros Hd Ha Hc k l Hk.
  destruct (decide (k = defaultScheme ec)) as [->|Hne].
  - assert (is_Some (working ec' m' !! defaultScheme ec')) as [l' Hl'].
    { apply working_default_is_Some.
      destruct (proj1 (working_default_is_Some ec m) (mk_is_Some _ _ Hk))
        as [[l0 Hl0]|Hanon].
      - left. rewrite Hd. destruct (Hc _ _ Hl0) as (l1 & -> & _). eauto.
      - right. intros E. apply Hanon.
        destruct (anonymousEntitlements ec) as [|a rest]; [done|].
        specialize (Ha a (list_elem_of_here _ _)). rewrite E in Ha.
        by apply elem_of_nil in Ha. }
    rewrite <- Hd. exists l'. split; [done|]. intros x Hx.
    pose proof (working_default ec m x) as H1. rewrite Hk in H1. simpl in H1.
    pose proof (working_default ec' m' x) as H2. rewrite Hl' in H2. simpl in H2.
    apply H2. apply H1 in Hx as [Hx|Hx]; [left|right; by apply Ha].
    rewrite Hd. destruct (m !! defaultScheme ec) as [l0|] eqn:E0; simpl in Hx.
    + destruct (Hc _ _ E0) as (l1 & -> & Hsub). by apply Hsub.
    + by apply elem_of_nil in Hx.
  - rewrite working_lookup_ne in Hk by done.
    rewrite working_lookup_ne by (by rewrite Hd). by apply Hc.
Qed.

(** ** Panics *)

Lemma addIdentity_nil (ec : EntitlementsChecker) (identity : string)
    (requirements : Requirements) :
  None ∈ requirements → addIdentity ec identity requirements = Panicked.
Proof.
  induction requirements as [|req rest IH]; intros Hin.
  - by apply elem_of_nil in Hin.
  - apply elem_of_cons in Hin as [<-|Hin]; [done|].
    simpl. destruct req as [m|]; [|done]. simpl. by rewrite IH.
Qed.

(** ** The identity requirement *)

Section Resource.

Variable ec : EntitlementsChecker.
Variables resource resourceName : string.

Local Abbreviation d := (defaultScheme ec).
Local Abbreviation identity := (identity_of resource resourceName).

(** [VerifyResourceEntitlements] on arguments it does not panic on. *)
Lemma VerifyResourceEntitlements_unfold (e : Entitlements) (R : Requirements) :
  None ∉ R → (e = None → grantReadyByDefault ec = false) →
  VerifyResourceEntitlements ec resource resourceName e R
  = VerifyEntitlements ec (spec_entitlements ec identity e)
      (spec_requirements ec identity R).
Proof.
  intros Hreqs Hents.
  unfold VerifyResourceEntitlements, deepCloneEntitlements.
  rewrite deepCloneRequirements_id, cloneStringsMap_id.
  unfold spec_entitlements.
  assert (grantReadyByDefault ec = true → ∃ m, e = Some m) as Hsome.
  { intros G. destruct e as [m|]; [by exists m|].
    rewrite Hents in G; done. }
  destruct R as [|r reqs].
  - cbn [length Nat.eqb app obind spec_requirements].
    destruct (grantReadyByDefault ec); [|done].
    by destruct Hsome as [m ->].
  - rewrite addIdentity_some by done.
    cbn [length Nat.eqb obind spec_requirements].
    destruct (grantReadyByDefault ec); [|done].
    by destruct Hsome as [m ->].
Qed.

Lemma spec_requirements_nonempty (R : Requirements) :
  spec_requirements ec identity R ≠ [].
Proof. by destruct R. Qed.

(** Every entry handed to [VerifyEntitlements] requires the identity under
    the default scheme. *)
Lemma spec_requirements_identity (R : Requirements) (entry : StringsMap) :
  entry ∈ spec_requirements ec identity R →
  ∃ required, map_get entry d = Some required ∧ identity ∈ required.
Proof.
  destruct R as [|r R]; unfold spec_requirements.
  - intros ->%list_elem_of_singleton. exists [identity]. simpl.
    rewrite lookup_singleton_eq. split; [done|]. by left.
  - intros (entry0 & -> & _)%list_elem_of_fmap.
    eexists. split.
    + simpl. unfold append_under. by rewrite lookup_insert_eq.
    + apply elem_of_app. right. by left.
Qed.

(** An entry satisfied after the identity was added was satisfied before. *)
Lemma entry_satisfied_append_under (held : StringsMap) (entry : StringsMap) :
  entry_satisfied held (Some (append_under d identity (mapping_of entry))) →
  entry_satisfied held entry.
Proof.
  intros H scheme required Hs.
  destruct entry as [m|]; [|done]. simpl in Hs.
  destruct (decide (scheme = d)) as [->|Hne].
  - destruct (H d (required ++ [identity])) as (heldList & Hheld & Hall).
    { simpl. unfold append_under. rewrite lookup_insert_eq. simpl.
      by rewrite Hs. }
    exists heldList. split; [done|]. intros r Hr. apply Hall.
    apply elem_of_app. by left.
  - apply (H scheme required). simpl. unfold append_under.
    by rewrite lookup_insert_ne.
Qed.

(** An entry satisfied before the identity was added is satisfied after it
    by a mapping that holds at least as much and the identity. *)
Lemma entry_satisfied_with_identity (w w' : gmap string (list string))
    (entry : StringsMap) :
  covers w w' →
  (∃ l', w' !! d = Some l' ∧ identity ∈ l') →
  entry_satisfied (Some w) entry →
  entry_satisfied (Some w')
    (Some (append_under d identity (mapping_of entry))).
Proof.
  intros Hc (l' & Hl' & Hid) H scheme required Hs.
  simpl in Hs. unfold append_under in Hs.
  destruct (decide (scheme = d)) as [->|Hne].
  - rewrite lookup_insert_eq in Hs. injection Hs as <-.
    exists l'. split; [done|]. intros r Hr.
    apply elem_of_app in Hr as [Hr|Hr%list_elem_of_singleton].
    + destruct entry as [m|]; simpl in Hr.
      2:{ rewrite lookup_empty in Hr. by apply elem_of_nil in Hr. }
      destruct (m !! d) as [rl|] eqn:Hm; simpl in Hr;
        [|by apply elem_of_nil in Hr].
      destruct (H d rl Hm) as (heldList & Hheld & Hall).
      destruct (Hall r Hr) as (h & Hh & Hmatch).
      destruct (Hc d heldList Hheld) as (l'' & Hl'' & Hsub).
      exists h. split; [|done]. rewrite Hl' in Hl''. injection Hl'' as <-.
      by apply Hsub.
    + subst r. exists identity. split; [done|]. apply entitlementMatches_refl.
  - rewrite lookup_insert_ne in Hs by done.
    apply (entry_satisfied_covers w w' entry Hc H scheme required).
    by destruct entry.
Qed.

Lemma covers_append_under (m : gmap string (list string)) :
  covers m (append_under d identity m).
Proof.
  intros k l Hk. unfold append_under.
  destruct (decide (k = d)) as [->|Hne].
  - rewrite lookup_insert_eq, Hk. eexists. split; [done|].
    intros x Hx. apply elem_of_app. by left.
  - rewrite lookup_insert_ne by done. by exists l.
Qed.

Lemma spec_entitlements_false (e : Entitlements) :
  grantReadyByDefault ec = false → spec_entitlements ec identity e = e.
Proof. intros G. unfold spec_entitlements. by rewrite G. Qed.

Lemma spec_entitlements_true (e : Entitlements) :
  grantReadyByDefault ec = true →
  spec_entitlements ec identity e
  = Some (append_under d identity (mapping_of e)).
Proof. intros G. unfold spec_entitlements. by rewrite G. Qed.

Lemma spec_requirements_entry (R : Requirements) (entry : StringsMap) :
  entry ∈ spec_requirements ec identity R →
  ∃ entry0, entry = Some (append_under d identity (mapping_of entry0))
            ∧ (R = [] ∨ entry0 ∈ R).
Proof.
  destruct R as [|r R]; unfold spec_requirements.
  - intros ->%list_elem_of_singleton. exists None. split; [|by left].
    unfold append_under. simpl. by rewrite lookup_empty, insert_empty.
  - intros (entry0 & -> & Hin)%list_elem_of_fmap. exists entry0. eauto.
Qed.

Lemma spec_requirements_elem (R : Requirements) (entry0 : StringsMap) :
  R = [] ∨ entry0 ∈ R →
  ∃ entry, entry ∈ spec_requirements ec identity R
           ∧ ∀ w w',
               covers w w' →
               (∃ l', w' !! d = Some l' ∧ identity ∈ l') →
               (R = [] ∨ entry_satisfied (Some w) entry0) →
               entry_satisfied (Some w') entry.
Proof.
  intros [->|Hin].
  - exists (Some {[ d := [identity] ]}). split; [by left|].
    intros w w' Hc Hid _.
    pose proof (entry_satisfied_with_identity w w' None Hc Hid) as H.
    unfold append_under in H. simpl in H.
    rewrite lookup_empty, insert_empty in H. by apply H.
  - exists (Some (append_under d identity (mapping_of entry0))). split.
    + destruct R as [|r R]; [by apply elem_of_nil in Hin|].
      unfold spec_requirements. apply list_elem_of_fmap. eauto.
    + intros w w' Hc Hid [->|H]; [by apply elem_of_nil in Hin|].
      by apply (entry_satisfied_with_identity w w').
Qed.

End Resource.

(** ** When the program panics *)

Lemma VerifyEntitlements_true_working (ec : EntitlementsChecker)
    (e w : Entitlements) (R : Requirements) :
  withAnonymous ec e = Returned w →
  VerifyEntitlements ec e R = Returned true
  ↔ R = [] ∨ ∃ entry, entry ∈ R ∧ entry_satisfied w entry.
Proof.
  intros Hw.
  destruct (VerifyEntitlements_working ec e w R Hw) as (b & Hb & Hiff).
  rewrite Hb, <- Hiff. split; [by intros [= ->]|by intros ->].
Qed.

Lemma VerifyEntitlements_panics (ec : EntitlementsChecker)
    (e : Entitlements) (R : Requirements) :
  VerifyEntitlements ec e R = Panicked
  ↔ e = None ∧ anonymousEntitlements ec ≠ [] ∧ R ≠ [].
Proof.
  destruct R as [|r R].
  - rewrite VerifyEntitlements_empty. split; [done|]. by intros (_ & _ & ?).
  - rewrite VerifyEntitlements_nonempty by done.
    destruct e as [m|].
    + rewrite withAnonymous_working. simpl. split; [done|]. by intros (? & _).
    + destruct (decide (anonymousEntitlements ec = [])) as [E|E].
      * rewrite withAnonymous_none by done. simpl.
        split; [done|]. by intros (_ & ? & _).
      * rewrite withAnonymous_nil by done. simpl. done.
Qed.

Lemma VerifyEntitlements_returns (ec : EntitlementsChecker)
    (e : Entitlements) (R : Requirements) (b : bool) :
  VerifyEntitlements ec e R = Returned b → R ≠ [] →
  ∃ w, withAnonymous ec e = Returned w.
Proof.
  intros H HR. rewrite VerifyEntitlements_nonempty in H by done.
  destruct (withAnonymous ec e) as [w|]; [by exists w|done].
Qed.

Lemma VerifyResourceEntitlements_panics (ec : EntitlementsChecker)
    (resource resourceName : string) (e : Entitlements) (R : Requirements) :
  VerifyResourceEntitlements ec resource resourceName e R = Panicked
  ↔ None ∈ R
    ∨ (e = None
       ∧ (grantReadyByDefault ec = true ∨ anonymousEntitlements ec ≠ [])).
Proof.
  destruct (decide (None ∈ R)) as [Hin|Hin].
  - split; [by left|]. intros _.
    unfold VerifyResourceEntitlements. rewrite deepCloneRequirements_id.
    destruct R as [|r R]; [by apply elem_of_nil in Hin|].
    cbn [length Nat.eqb]. by rewrite addIdentity_nil.
  - destruct e as [m|].
    + rewrite VerifyResourceEntitlements_unfold by done.
      assert (∃ m', spec_entitlements ec (identity_of resource resourceName)
                      (Some m) = Some m') as [m' ->].
      { unfold spec_entitlements. destruct (grantReadyByDefault ec); eauto. }
      destruct (VerifyEntitlements_some ec m'
                  (spec_requirements ec (identity_of resource resourceName) R))
        as (b & -> & _).
      split; [done|]. intros [?|(? & _)]; done.
    + destruct (grantReadyByDefault ec) eqn:G.
      * split; [intros _; right; split; [done|by left]|]. intros _.
        unfold VerifyResourceEntitlements, deepCloneEntitlements.
        rewrite deepCloneRequirements_id, G.
        destruct R as [|r R]; cbn [length Nat.eqb]; [done|].
        by rewrite addIdentity_some.
      * rewrite VerifyResourceEntitlements_unfold by done.
        rewrite spec_entitlements_false by done.
        rewrite VerifyEntitlements_panics.
        pose proof (spec_requirements_nonempty ec resource resourceName R).
        split.
        -- intros (_ & Ha & _). right. split; [done|by right].
        -- intros [?|(_ & [?|Ha])]; done.
Qed.

Lemma VerifyResourceEntitlements_returns (ec : EntitlementsChecker)
    (resource resourceName : string) (e : Entitlements) (R : Requirements)
    (b : bool) :
  VerifyResourceEntitlements ec resource resourceName e R = Returned b →
  (None ∉ R)
  ∧ (e = None → grantReadyByDefault ec = false)
  ∧ ∃ w, withAnonymous ec
           (spec_entitlements ec (identity_of resource resourceName) e)
         = Returned w.
Proof.
  intros H.
  assert (VerifyResourceEntitlements ec resource resourceName e R ≠ Panicked)
    as Hnp by (by rewrite H).
  rewrite VerifyResourceEntitlements_panics in Hnp.
  assert (None ∉ R) as H1 by (intros ?; apply Hnp; by left).
  assert (e = None → grantReadyByDefault ec = false) as H2.
  { intros ->. destruct (grantReadyByDefault ec); [|done].
    exfalso. apply Hnp. right. split; [done|by left]. }
  split; [done|]. split; [done|].
  rewrite VerifyResourceEntitlements_unfold in H by done.
  eapply VerifyEntitlements_returns; [exact H|].
  apply spec_requirements_nonempty.
Qed.

(** The decision on any entitlements on which the call does not panic; the
    nil map holds nothing. *)
Lemma VerifyEntitlements_true_any (ec : EntitlementsChecker)
    (e : Entitlements) (R : Requirements) :
  (e = None → anonymousEntitlements ec = []) →
  VerifyEntitlements ec e R = Returned true
  ↔ R = [] ∨ ∃ entry, entry ∈ R
                      ∧ entry_satisfied (Some (working ec (mapping_of e))) entry.
Proof.
  intros Hnil. destruct e as [m|]; [apply VerifyEntitlements_true|].
  specialize (Hnil eq_refl).
  rewrite (VerifyEntitlements_true_working ec None None R)
    by (by apply withAnonymous_none).
  assert (working ec (mapping_of None) = ∅) as ->.
  { unfold working. by rewrite decide_True. }
  assert (∀ entry, entry_satisfied None entry
                   ↔ entry_satisfied (Some ∅) entry) as Hsame.
  { intros entry. split; intros H scheme required Hs;
      destruct (H scheme required Hs) as (heldList & Hheld & _);
      simpl in Hheld; [done|by rewrite lookup_empty in Hheld]. }
  split; (intros [->|(entry & Hin & Hs)]; [by left|right]);
    exists entry; (split; [done|]); by apply Hsame.
Qed.

End Laws.

(** * Clones in the store *)

Module StoreLaws.
Import Go Mem Frame Refine.

(** The map object at [c] was allocated after [σ], and every slice it holds
    in [σ'] has its backing array allocated after [σ]. *)
Definition fresh_map (σ σ' : store) (c : loc) : Prop :=
  maps σ !! c = None
  ∧ ∀ obj k s a,
      maps σ' !! c = Some obj → obj !! k = Some s → base s = Some a →
      arrays σ !! a = None.

(** The slice of maps [r] has its backing array allocated after [σ], and
    every map it holds in [σ'] is fresh. *)
Definition fresh_row (σ σ' : store) (r : slice) : Prop :=
  ∀ ra, base r = Some ra →
    rows σ !! ra = None
    ∧ ∀ cells c, rows σ' !! ra = Some cells → Some c ∈ cells →
                 fresh_map σ σ' c.

Lemma inv_fresh_map (σ σ' : store) (c : loc) :
  inv σ σ' → new_map σ c → fresh_map σ σ' c.
Proof.
  intros (_ & Hmaps & _) Hc. split; [done|].
  intros obj k s a Hobj Hs Ha. by eapply (Hmaps c obj k s).
Qed.

Lemma inv_fresh_row (σ σ' : store) (r : slice) :
  inv σ σ' → own_row σ r → fresh_row σ σ' r.
Proof.
  intros Hinv Hr ra Hra. split; [by apply Hr|].
  intros cells c Hcells Hc. apply inv_fresh_map; [done|].
  destruct Hinv as (_ & _ & Hrows). eapply Hrows; [exact Hcells| |exact Hc].
  by apply Hr.
Qed.

Lemma clone_at_map_at (σ : store) (m : option loc) (W : StringsMap) :
  clone_at σ m W → map_at σ m W.
Proof.
  unfold clone_at. destruct m as [c|], W as [w|]; try done.
  intros (obj & Hobj & Hat & _). by eapply obj_at_map_at.
Qed.

Lemma row_clone_requirements_at (σ0 σ : store) (r : slice) (R : Requirements) :
  row_clone_at σ0 σ r R → requirements_at σ r R.
Proof.
  intros (Hlen & Hcap & Hoff & H). unfold requirements_at.
  destruct (base r) as [ra|].
  - destruct H as (ms & Hms & Hl & HF & _). exists ms. split.
    + exists ms. split; [done|]. split; [lia|].
      rewrite Hoff, drop_0. by rewrite take_ge by lia.
    + eapply Forall2_impl; [exact HF|]. apply clone_at_map_at.
  - subst R. exists []. split; [|constructor]. split; [done|]. by rewrite Hlen.
Qed.

(** A returned clone of a list is nil exactly when the list is. *)
Lemma cloneList_is_nil (σ σ' : store) (l s' : slice) :
  cloneList l σ = (Returned s', σ') → is_nil s' = is_nil l.
Proof.
  unfold cloneList. destruct (is_nil l) eqn:E.
  - by intros [= <- _].
  - unfold bind at 1, make_strings, bind at 1, alloc_array. cbn [ret].
    unfold bind at 1.
    destruct (copy_strings _ l _) as [[u|] σ2]; [|done].
    by intros [= <- _].
Qed.

Lemma cloneEntries_is_nil (c : loc) (entries : list (string * slice))
    (σ : store) (obj : gmap string slice) :
  NoDup entries.*1 →
  maps σ !! c = Some obj →
  (∀ k s, (k, s) ∈ entries → ∃ xs, list_at σ s xs) →
  ∃ σ' obj',
    cloneEntries c entries σ = (Returned tt, σ')
    ∧ maps σ' = <[c := obj']> (maps σ)
    ∧ (∀ k s, (k, s) ∈ entries →
         ∃ s', obj' !! k = Some s' ∧ is_nil s' = is_nil s)
    ∧ (∀ k, k ∉ entries.*1 → obj' !! k = obj !! k).
Proof.
  revert σ obj.
  induction entries as [|[k0 s0] entries IH]; intros σ obj Hnd Hc Hsrc.
  - exists σ, obj. split; [done|]. rewrite insert_id by done.
    split; [done|]. split; [|done]. intros k s Hin. by apply elem_of_nil in Hin.
  - rewrite fmap_cons in Hnd. apply NoDup_cons in Hnd as [Hk0 Hnd].
    destruct (Hsrc k0 s0) as (xs0 & Hs0); [left|].
    destruct (cloneList_spec σ s0 xs0 Hs0)
      as (s1 & σ1 & Hrun & _ & _ & Hsub & Hmaps & Hrows).
    pose proof (cloneList_is_nil _ _ _ _ Hrun) as Hnil.
    unfold cloneEntries. cbn [foreach]. unfold bind at 1, bind at 1.
    rewrite Hrun. unfold write_map. rewrite Hmaps, Hc.
    set (σ2 := Store (arrays σ1) (<[c := <[k0 := s1]> obj]> (maps σ)) (rows σ1)).
    destruct (IH σ2 (<[k0 := s1]> obj)) as (σ' & obj' & Hrun' & Hmaps' & Hin' & Hout').
    { done. }
    { apply lookup_insert_eq. }
    { intros k s Hin. destruct (Hsrc k s) as (xs & Hs); [by right|].
      exists xs. by eapply list_at_mono. }
    exists σ', obj'. split; [exact Hrun'|].
    split; [by rewrite Hmaps'; simpl; rewrite insert_insert_eq|].
    split.
    + intros k s Hin. apply elem_of_cons in Hin as [[= -> ->]|Hin].
      * exists s1. split; [|done].
        rewrite (Hout' k0) by done. apply lookup_insert_eq.
      * by apply Hin'.
    + intros k Hk. rewrite fmap_cons in Hk.
      apply not_elem_of_cons in Hk as [Hne Hk]. simpl in Hne.
      rewrite (Hout' k) by done. by rewrite lookup_insert_ne.
Qed.

Lemma deepCloneEntitlements_is_nil (σ : store) (a : loc)
    (E : gmap string (list string)) :
  map_at σ (Some a) (Some E) →
  ∃ c σ' obj obj',
    deepCloneEntitlements (Some a) σ = (Returned (Some c), σ')
    ∧ maps σ !! a = Some obj
    ∧ maps σ' !! c = Some obj'
    ∧ ∀ k, is_nil <$> obj' !! k = is_nil <$> obj !! k.
Proof.
  intros (obj & Hobj & HE).
  pose proof (fresh_lookup (maps σ)) as Hfresh.
  set (c := fresh (dom (maps σ))) in *.
  set (σ1 := Store (arrays σ) (<[c := ∅]> (maps σ)) (rows σ)).
  assert (maps σ1 !! a = Some obj) as Hobj1.
  { simpl. rewrite lookup_insert_ne; [done|]. intros ->. congruence. }
  destruct (cloneEntries_is_nil c (map_to_list obj) σ1 ∅)
    as (σ' & obj' & Hrun & Hmaps & Hin & Hout).
  { apply NoDup_fst_map_to_list. }
  { apply lookup_insert_eq. }
  { intros k s Hks. apply elem_of_map_to_list in Hks.
    specialize (HE k). rewrite Hks in HE.
    inversion HE as [s' xs Hs Heq1 Heq2|]; subst. by exists xs. }
  exists c, σ', obj, obj'. split; [|split; [done|split]].
  - unfold deepCloneEntitlements.
    unfold bind at 1, alloc_map. fold c. fold σ1.
    unfold bind at 1, map_range, bind at 1, read_map. rewrite Hobj1.
    cbn [ret]. unfold bind at 1. by rewrite Hrun.
  - rewrite Hmaps. apply lookup_insert_eq.
  - intros k. destruct (obj !! k) as [s|] eqn:Hs.
    + destruct (Hin k s) as (s' & -> & Hnil);
        [by apply elem_of_map_to_list|].
      simpl. by rewrite Hnil.
    + rewrite Hout, lookup_empty; [done|].
      intros ([k' s] & -> & Hks)%list_elem_of_fmap.
      apply elem_of_map_to_list in Hks. simpl in Hs. congruence.
Qed.

End StoreLaws.

(** * The one-argument version of the checker

    The repository also holds a version of the package without the default
    scheme and the grant flag, the one its test table for the scheme "_" is
    written for: one constructor argument, the scheme "_" as the fallback,
    anonymous entitlements added under every scheme key, and a decision
    that looks for one scheme key at a time.  The matching rule, the loops
    over lists and the deep clones are those of [Module Go]. *)

Module Legacy.
Import Go.

Record EntitlementsChecker : Type := {
  anonymousEntitlements : list string
}.

Definition NewEntitlementsChecker (anonymousEntitlements : list string)
  : EntitlementsChecker :=
  {| anonymousEntitlements := anonymousEntitlements |}.

(** The loop [for k, v := range m { if !slices.Contains(v, x) { v =
    append(v, x); m[k] = v; added = true } }] over the entries of [m] in the
    order [order]: the inner loop of the anonymous step and the inner loop
    of the identity step.  The body writes only the key being visited, so
    the value bound by [range] is the one held when the loop started. *)
Fixpoint extend_pass (x : string) (order : list (string * list string))
    (m : StringsMap) (added : bool) : outcome (StringsMap * bool) :=
  match order with
  | [] => Returned (m, added)
  | (k, v) :: rest =>
      if negb (Contains v x) then
        m ←! map_assign m k (v ++ [x]);;
        extend_pass x rest m true
      else extend_pass x rest m added
  end.

Section Checker.

Variable ec : EntitlementsChecker.

(** The loop over the anonymous entitlements; each turn ranges over the map
    as it is then. *)
Fixpoint anon_loop (anons : list string) (entitlements : StringsMap)
    (added : bool) : outcome (StringsMap * bool) :=
  match anons with
  | [] => Returned (entitlements, added)
  | anonEntitlement :: rest =>
      st ←! extend_pass anonEntitlement (map_range entitlements)
              entitlements added;;
      anon_loop rest st.1 st.2
  end.

(** The loop taken when nothing was added: the anonymous entitlements go
    under the scheme "_", one at a time. *)
Fixpoint fallback (anons : list string) (entitlements : StringsMap)
  : outcome StringsMap :=
  match anons with
  | [] => Returned entitlements
  | anonEntitlement :: rest =>
      entitlements ←! map_assign entitlements "_"
                        (map_index entitlements "_" ++ [anonEntitlement]);;
      fallback rest entitlements
  end.

(** The entitlements the requirements are checked against. *)
Definition withAnonymous (entitlements : Entitlements) : outcome Entitlements :=
  let clonedEntitlements := deepCloneEntitlements entitlements in
  st ←! anon_loop (anonymousEntitlements ec) clonedEntitlements false;;
  let '(clonedEntitlements, added) := st in
  if negb added then fallback (anonymousEntitlements ec) clonedEntitlements
  else Returned clonedEntitlements.

(** The three nested loops of the decision, innermost first. *)
Fixpoint entry_any (se : string) (v : list string)
    (order : list (string * list string)) : bool :=
  match order with
  | [] => false
  | (re, reqs) :: rest =>
      if String.eqb se re && satisfiesRequirement v reqs then true
      else entry_any se v rest
  end.

Fixpoint requirements_any (se : string) (v : list string)
    (requirements : Requirements) : bool :=
  match requirements with
  | [] => false
  | requirement :: rest =>
      if entry_any se v (map_range requirement) then true
      else requirements_any se v rest
  end.

Fixpoint schemes_any (order : list (string * list string))
    (requirements : Requirements) : bool :=
  match order with
  | [] => false
  | (se, v) :: rest =>
      if requirements_any se v requirements then true
      else schemes_any rest requirements
  end.

Definition VerifyEntitlements (entitlements : Entitlements)
    (requirements : Requirements) : outcome bool :=
  if (length requirements =? 0)%nat then Returned true
  else
    clonedEntitlements ←! withAnonymous entitlements;;
    Returned (schemes_any (map_range clonedEntitlements) requirements).

(** The loop that adds the identity to every list of every entry. *)
Fixpoint identity_loop (identity : string) (requirements : Requirements)
    (added : bool) : outcome (Requirements * bool) :=
  match requirements with
  | [] => Returned ([], added)
  | req :: rest =>
      st ←! extend_pass identity (map_range req) req added;;
      st' ←! identity_loop identity rest st.2;;
      Returned (st.1 :: st'.1, st'.2)
  end.

Definition VerifyResourceEntitlements (resource resourceName : string)
    (entitlements : Entitlements) (requirements : Requirements) : outcome bool :=
  let clonedRequirements := deepCloneRequirements requirements in
  let identity := identity_of resource resourceName in
  st ←! identity_loop identity clonedRequirements false;;
  let '(clonedRequirements, added) := st in
  let clonedRequirements :=
    if negb added
    then clonedRequirements ++ [Some {[ "_" := [identity] ]}]
    else clonedRequirements in
  VerifyEntitlements entitlements clonedRequirements.

End Checker.

(** ** The tests written for this version *)

Definition check (anon : list string) (e : list (string * list string))
    (R : list (list (string * list string))) (want : bool) : bool :=
  match VerifyEntitlements (NewEntitlementsChecker anon) (ents e)
          ((fun r => ents r) <$> R) with
  | Returned b => Bool.eqb b want
  | Panicked => false
  end.

Definition check_resource (anon : list string) (resource resourceName : string)
    (e : list (string * list string))
    (R : list (list (string * list string))) (want : bool) : bool :=
  match VerifyResourceEntitlements (NewEntitlementsChecker anon)
          resource resourceName (ents e) ((fun r => ents r) <$> R) with
  | Returned b => Bool.eqb b want
  | Panicked => false
  end.

(** The table of [TestEntitlementsChecker_VerifyEntitlements]. *)
Definition table_VerifyEntitlements : list bool := [
  check [] [] [] true;
  check [] [] [[("_", ["pages"])]] false;
  check [] [("_", ["pages"])] [[("_", ["pages"])]] true;
  check [] [("_", ["books"])] [[("_", ["pages"])]] false;
  check [] [("_", ["books"])] [[("_", ["books:read"])]] false;
  check [] [("_", ["books"])] [[("_", ["books:all"])]] false;
  check [] [("_", ["books"])] [[("_", ["books:*:all"])]] false;
  check [] [("_", ["books:all"])] [[("_", ["books"])]] false;
  check [] [("_", ["pages:read"])] [[("_", ["pages:read"])]] true;
  check [] [("_", ["pages:read"])] [[("_", ["pages:read"; "pages:write"])]] false;
  check [] [("_", ["pages:read"; "pages:write"])]
    [[("_", ["pages:read"; "pages:write"])]] true;
  check [] [("_", ["pages:read"])] [[("_", ["pages:write"])]] false;
  check [] [("_", ["pages:all"])] [[("_", ["pages"])]] false;
  check [] [("_", ["pages:all"])] [[("_", ["pages:all"])]] true;
  check [] [("_", ["pages:all"])] [[("_", ["pages:read"])]] true;
  check [] [("_", ["pages:/foo:read"])] [[("_", ["pages:read"])]] true;
  check [] [("_", ["pages:/foo:read"])] [[("_", ["pages:/foo:read"])]] true;
  check [] [("_", ["pages:/foo:read"])] [[("_", ["pages:write"])]] false;
  check [] [("_", ["pages:/foo:read"])] [[("_", ["pages:read"])]] true;
  check [] [("_", ["pages:/foo:read"])] [[("_", ["pages:/bar:read"])]] false;
  check [] [("_", ["pages:/foo:read"])] [[("_", ["books:/foo:read"])]] false;
  check [] [("_", ["users:/foo:read"])]
    [[("_", ["books:/foo:read"])]; [("_", ["pages:/bar:read"])]] false;
  check [] [("_", ["users:/foo:read"])]
    [[("_", ["users:/foo:write"])]; [("_", ["users:/foo:delete"])]] false;
  check [] [("_", ["users:/foo:read"])]
    [[("_", ["users:/bar:read"])]; [("_", ["users:/baz:read"])]] false;
  check [] [("_", ["users:/foo:read"])]
    [[("_", ["users:/bar:read"])]; [("_", ["users:/foo:read"])]] true;
  check [] [("_", ["users:/foo:read"])]
    [[("_", ["users:/bar:read"]); ("bearer", ["users:/foo:read"])]] false;
  check [] [("_", ["users:/bar:read"]); ("bearer", ["users:/foo:read"])]
    [[("_", ["users:/bar:read"]); ("bearer", ["users:/foo:read"])]] true;
  check [] [("_", ["users:/bar:read"])]
    [[("bearer", ["users:/bar:read"])]] false
].

(** The table of [TestEntitlementsChecker_VerifyResourceEntitlements]. *)
Definition table_VerifyResourceEntitlements : list bool := [
  check_resource [] "pages" "all" [] [] false;
  check_resource ["pages:read"] "pages" "foo" [] [] true;
  check_resource ["pages:read"] "pages" "foo" [("_", ["pages:write"])] [] true;
  check_resource ["pages:read"] "pages" "foo" []
    [[("_", ["pages:write"])]] false;
  check_resource ["pages:read"] "pages" "foo" [("_", ["pages:write"])]
    [[("_", ["pages:write"])]] true
].

Example TestEntitlementsChecker_VerifyEntitlements :
  forallb id table_VerifyEntitlements = true.
Proof. by vm_compute. Qed.

Example TestEntitlementsChecker_VerifyResourceEntitlements :
  forallb id table_VerifyResourceEntitlements = true.
Proof. by vm_compute. Qed.

End Legacy.

(** * Laws of the one-argument version *)

Module LegacyFacts.
Import Go GoFacts Laws.

(** ** One pass over the entries *)

(** A mapping with [x] appended to every list that lacks it. *)
Definition extend (x : string) (m : gmap string (list string))
  : gmap string (list string) :=
  (fun l => if Contains l x then l else l ++ [x]) <$> m.

(** Some list of the mapping lacks [x]. *)
Definition lacks (x : string) (m : gmap string (list string)) : bool :=
  existsb (fun kv => negb (Contains kv.2 x)) (map_to_list m).

Definition step (x : string) (acc : gmap string (list string))
    (kv : string * list string) : gmap string (list string) :=
  if Contains kv.2 x then acc else <[kv.1 := kv.2 ++ [x]]> acc.

Lemma extend_pass_fold (x : string) (order : list (string * list string))
    (m : gmap string (list string)) (added : bool) :
  Legacy.extend_pass x order (Some m) added
  = Returned (Some (foldl (step x) m order),
              added || existsb (fun kv => negb (Contains kv.2 x)) order).
Proof.
  revert m added. induction order as [|[k v] rest IH]; intros m added; simpl.
  - by rewrite orb_false_r.
  - unfold step at 2. simpl. destruct (Contains v x); simpl.
    + apply IH.
    + rewrite IH. by rewrite orb_true_r.
Qed.

Lemma foldl_step_lookup (x : string) (order : list (string * list string))
    (acc : gmap string (list string)) (k : string) :
  NoDup order.*1 →
  foldl (step x) acc order !! k
  = match (list_to_map order : gmap string (list string)) !! k with
    | Some v => if Contains v x then acc !! k else Some (v ++ [x])
    | None => acc !! k
    end.
Proof.
  revert acc. induction order as [|[k0 v0] rest IH]; intros acc Hnd; [done|].
  rewrite fmap_cons in Hnd. apply NoDup_cons in Hnd as [Hk0 Hnd].
  simpl. rewrite IH by done.
  destruct (decide (k = k0)) as [->|Hne].
  - rewrite lookup_insert_eq.
    rewrite (not_elem_of_list_to_map_1 rest k0) by done.
    unfold step. simpl. destruct (Contains v0 x); [done|].
    by rewrite lookup_insert_eq.
  - rewrite lookup_insert_ne by done.
    assert (step x acc (k0, v0) !! k = acc !! k) as ->; [|done].
    unfold step. simpl. destruct (Contains v0 x); [done|].
    by rewrite lookup_insert_ne.
Qed.

Lemma existsb_perm {A} (f : A → bool) (l l' : list A) :
  l ≡ₚ l' → existsb f l = existsb f l'.
Proof.
  intros HP. apply eq_iff_eq_true. rewrite !existsb_exists.
  split; intros (a & Ha & Hf); exists a; (split; [|done]);
    apply list_elem_of_In; apply list_elem_of_In in Ha;
    [by rewrite <- HP|by rewrite HP].
Qed.

Lemma lacks_true (x : string) (m : gmap string (list string)) :
  lacks x m = true ↔ ∃ k l, m !! k = Some l ∧ x ∉ l.
Proof.
  unfold lacks. rewrite existsb_exists. split.
  - intros ([k l] & Hin & Hf). exists k, l. split.
    + by apply elem_of_map_to_list, list_elem_of_In.
    + simpl in Hf. apply negb_true_iff in Hf. intros Hx.
      apply Contains_true in Hx. congruence.
  - intros (k & l & Hk & Hx). exists (k, l). split.
    + by apply list_elem_of_In, elem_of_map_to_list.
    + simpl. apply negb_true_iff. destruct (Contains l x) eqn:E; [|done].
      by apply Contains_true in E.
Qed.

Lemma extend_pass_spec (x : string) (order : list (string * list string))
    (m : gmap string (list string)) (added : bool) :
  order ≡ₚ map_to_list m →
  Legacy.extend_pass x order (Some m) added
  = Returned (Some (extend x m), added || lacks x m).
Proof.
  intros HP. rewrite extend_pass_fold. unfold lacks.
  rewrite (existsb_perm _ _ _ HP). do 3 f_equal.
  assert (NoDup order.*1) as Hnd.
  { rewrite HP. apply NoDup_fst_map_to_list. }
  assert ((list_to_map order : gmap string (list string)) = m) as Hm.
  { rewrite (list_to_map_proper order (map_to_list m)) by done.
    apply list_to_map_to_list. }
  apply map_eq. intros k. rewrite foldl_step_lookup by done. rewrite Hm.
  unfold extend. rewrite lookup_fmap.
  destruct (m !! k) as [v|] eqn:Hk; simpl; [|done].
  by destruct (Contains v x).
Qed.

(** ** The anonymous step *)

Definition extend_all (anons : list string) (m : gmap string (list string))
  : gmap string (list string) :=
  foldl (fun m a => extend a m) m anons.

Fixpoint lacks_any (anons : list string) (m : gmap string (list string))
  : bool :=
  match anons with
  | [] => false
  | a :: rest => lacks a m || lacks_any rest (extend a m)
  end.

Lemma anon_loop_spec (anons : list string) (m : gmap string (list string))
    (added : bool) :
  Legacy.anon_loop anons (Some m) added
  = Returned (Some (extend_all anons m), added || lacks_any anons m).
Proof.
  revert m added. induction anons as [|a rest IH]; intros m added; simpl.
  - by rewrite orb_false_r.
  - rewrite extend_pass_spec by done. simpl. rewrite IH.
    by rewrite orb_assoc.
Qed.

Lemma anon_loop_nil (anons : list string) (added : bool) :
  Legacy.anon_loop anons None added = Returned (None, added).
Proof. induction anons as [|a rest IH]; [done|]. simpl. apply IH. Qed.

Lemma extend_all_fmap (anons : list string) (m : gmap string (list string)) :
  extend_all anons m = (fun l => merge_anonymous l anons) <$> m.
Proof.
  revert m. induction anons as [|a rest IH]; intros m.
  - simpl. by rewrite map_fmap_id.
  - unfold extend_all. simpl. fold (extend_all rest (extend a m)).
    rewrite IH. unfold extend. rewrite <- map_fmap_compose.
    apply map_fmap_ext. intros k l _. unfold compose.
    symmetry. apply merge_anonymous_cons.
Qed.

Lemma lacks_any_true (anons : list string) (m : gmap string (list string)) :
  lacks_any anons m = true ↔ ∃ k l a, m !! k = Some l ∧ a ∈ anons ∧ a ∉ l.
Proof.
  revert m. induction anons as [|a rest IH]; intros m; simpl.
  - split; [done|]. intros (k & l & a & _ & Ha & _). by apply elem_of_nil in Ha.
  - rewrite orb_true_iff, lacks_true, IH. split.
    + intros [(k & l & Hk & Hx)|(k & l' & a' & Hk & Ha' & Hx)].
      * exists k, l, a. split; [done|]. split; [by left|done].
      * unfold extend in Hk. rewrite lookup_fmap in Hk.
        destruct (m !! k) as [l|] eqn:Hm; [|done]. simpl in Hk.
        injection Hk as <-. exists k, l, a'. split; [done|].
        split; [by right|]. intros Hin. apply Hx.
        destruct (Contains l a); [done|]. apply elem_of_app. by left.
    + intros (k & l & a' & Hk & Ha' & Hx).
      destruct (decide (a' = a)) as [->|Hne]; [left; eauto|].
      right. apply elem_of_cons in Ha' as [?|Ha']; [done|].
      exists k, (if Contains l a then l else l ++ [a]), a'.
      split; [|split; [done|]].
      * unfold extend. by rewrite lookup_fmap, Hk.
      * destruct (Contains l a); [done|].
        intros [?|Hin%list_elem_of_singleton]%elem_of_app; done.
Qed.

Lemma lacks_any_false (anons : list string) (m : gmap string (list string)) :
  lacks_any anons m = false →
  (fun l => merge_anonymous l anons) <$> m = m.
Proof.
  intros H. apply map_eq. intros k. rewrite lookup_fmap.
  destruct (m !! k) as [l|] eqn:Hk; [|done]. simpl. f_equal.
  apply merge_anonymous_fixed. intros a Ha.
  destruct (decide (a ∈ l)) as [|Hnin]; [done|].
  assert (lacks_any anons m = true) as Ht; [|congruence].
  apply lacks_any_true. eauto 6.
Qed.

Lemma fallback_spec (a : string) (rest : list string)
    (m : gmap string (list string)) :
  Legacy.fallback (a :: rest) (Some m)
  = Returned (Some (<["_" := default [] (m !! "_") ++ a :: rest]> m)).
Proof.
  revert a m. induction rest as [|b rest IH]; intros a m.
  - done.
  - change (Legacy.fallback (a :: b :: rest) (Some m))
      with (Legacy.fallback (b :: rest)
              (Some (<["_" := default [] (m !! "_") ++ [a]]> m))).
    rewrite IH. rewrite lookup_insert_eq, insert_insert_eq. simpl.
    by rewrite <- app_assoc.
Qed.

Lemma fallback_nil (anons : list string) :
  anons ≠ [] → Legacy.fallback anons None = Panicked.
Proof. by destruct anons. Qed.

Section Checker.

Variable ec : Legacy.EntitlementsChecker.

Local Abbreviation anons := (Legacy.anonymousEntitlements ec).

(** The mapping the requirements are checked against, for a caller's
    mapping that is not nil. *)
Definition legacy_working (m : gmap string (list string))
  : gmap string (list string) :=
  if lacks_any anons m then (fun l => merge_anonymous l anons) <$> m
  else match anons with
       | [] => m
       | _ => <["_" := default [] (m !! "_") ++ anons]> m
       end.

Lemma legacy_withAnonymous_some (m : gmap string (list string)) :
  Legacy.withAnonymous ec (Some m) = Returned (Some (legacy_working m)).
Proof.
  unfold Legacy.withAnonymous, deepCloneEntitlements.
  rewrite cloneStringsMap_id, anon_loop_spec. simpl.
  unfold legacy_working. rewrite extend_all_fmap.
  destruct (lacks_any anons m) eqn:E; simpl; [done|].
  rewrite lacks_any_false by done.
  destruct anons as [|a rest]; [done|]. apply fallback_spec.
Qed.

Lemma legacy_withAnonymous_nil :
  Legacy.withAnonymous ec None
  = if decide (anons = []) then Returned None else Panicked.
Proof.
  unfold Legacy.withAnonymous. simpl. rewrite anon_loop_nil. simpl.
  destruct (decide _) as [->|E]; [done|]. by apply fallback_nil.
Qed.

(** ** The decision *)

Lemma entry_any_true (se : string) (v : list string)
    (order : list (string * list string)) :
  Legacy.entry_any se v order = true
  ↔ ∃ reqs, (se, reqs) ∈ order ∧ satisfiesRequirement v reqs = true.
Proof.
  induction order as [|[re reqs] rest IH]; simpl.
  - split; [done|]. intros (reqs & Hin & _). by apply elem_of_nil in Hin.
  - destruct (String.eqb se re && satisfiesRequirement v reqs) eqn:E.
    + apply andb_true_iff in E as [->%eqb_true Hs]. split; [|done].
      intros _. exists reqs. split; [by left|done].
    + rewrite IH. split.
      * intros (reqs' & Hin & Hs). exists reqs'. split; [by right|done].
      * intros (reqs' & Hin & Hs).
        apply elem_of_cons in Hin as [[= -> ->]|Hin]; [|eauto].
        by rewrite String.eqb_refl, Hs in E.
Qed.

Lemma requirements_any_true (se : string) (v : list string)
    (R : Requirements) :
  Legacy.requirements_any se v R = true
  ↔ ∃ entry reqs, entry ∈ R ∧ map_get entry se = Some reqs
                  ∧ satisfiesRequirement v reqs = true.
Proof.
  induction R as [|entry rest IH]; simpl.
  - split; [done|]. intros (e & r & Hin & _). by apply elem_of_nil in Hin.
  - destruct (Legacy.entry_any se v (map_range entry)) eqn:E.
    + apply entry_any_true in E as (reqs & Hin & Hs). split; [|done].
      intros _. exists entry, reqs. split; [by left|].
      split; [by apply map_range_get|done].
    + rewrite IH. split.
      * intros (e & r & Hin & Hg & Hs). exists e, r. split; [by right|done].
      * intros (e & r & Hin & Hg & Hs).
        apply elem_of_cons in Hin as [->|Hin]; [|eauto].
        assert (Legacy.entry_any se v (map_range entry) = true) as Ht;
          [|congruence].
        apply entry_any_true. exists r. split; [by apply map_range_get|done].
Qed.

Lemma schemes_any_true (order : list (string * list string))
    (R : Requirements) :
  Legacy.schemes_any order R = true
  ↔ ∃ se v, (se, v) ∈ order ∧ Legacy.requirements_any se v R = true.
Proof.
  induction order as [|[se v] rest IH]; simpl.
  - split; [done|]. intros (se & v & Hin & _). by apply elem_of_nil in Hin.
  - destruct (Legacy.requirements_any se v R) eqn:E.
    + split; [|done]. intros _. exists se, v. split; [by left|done].
    + rewrite IH. split.
      * intros (se' & v' & Hin & Hs). exists se', v'. split; [by right|done].
      * intros (se' & v' & Hin & Hs).
        apply elem_of_cons in Hin as [[= -> ->]|Hin]; [congruence|eauto].
Qed.

(** Some entry has a scheme key that the held mapping has too, with every
    string required under it matched by a string held under it. *)
Definition one_scheme_satisfied (held : StringsMap) (R : Requirements) : Prop :=
  ∃ entry scheme heldList required,
    entry ∈ R
    ∧ map_get held scheme = Some heldList
    ∧ map_get entry scheme = Some required
    ∧ ∀ r, r ∈ required → ∃ h, h ∈ heldList ∧ entitlementMatches h r = true.

Lemma schemes_any_spec (held : StringsMap)
    (order : list (string * list string)) (R : Requirements) :
  order ≡ₚ map_range held →
  Legacy.schemes_any order R = true ↔ one_scheme_satisfied held R.
Proof.
  intros HP. rewrite schemes_any_true. split.
  - intros (se & v & Hin & Hs).
    apply requirements_any_true in Hs as (entry & reqs & He & Hg & Hs).
    exists entry, se, v, reqs. split; [done|].
    split; [apply map_range_get; by rewrite <- HP|]. split; [done|].
    intros r Hr. apply hasEntitlement_true.
    by apply (proj1 (satisfiesRequirement_true v reqs) Hs).
  - intros (entry & se & v & reqs & He & Hh & Hg & Hall).
    exists se, v. split; [rewrite HP; by apply map_range_get|].
    apply requirements_any_true. exists entry, reqs.
    split; [done|]. split; [done|].
    apply satisfiesRequirement_true. intros r Hr.
    apply hasEntitlement_true. by apply Hall.
Qed.

Lemma legacy_VerifyEntitlements_nonempty (e : Entitlements) (R : Requirements) :
  R ≠ [] →
  Legacy.VerifyEntitlements ec e R
  = (w ←! Legacy.withAnonymous ec e;;
     Returned (Legacy.schemes_any (map_range w) R)).
Proof. intros HR. unfold Legacy.VerifyEntitlements. by destruct R. Qed.

Lemma legacy_VerifyEntitlements_true (m : gmap string (list string))
    (R : Requirements) :
  Legacy.VerifyEntitlements ec (Some m) R = Returned true
  ↔ R = [] ∨ one_scheme_satisfied (Some (legacy_working m)) R.
Proof.
  destruct R as [|r R]; [split; [by left|done]|].
  rewrite legacy_VerifyEntitlements_nonempty by done.
  rewrite legacy_withAnonymous_some. cbn [obind].
  rewrite <- (schemes_any_spec (Some (legacy_working m))
                (map_range (Some (legacy_working m)))) by done.
  split.
  - intros [= H]. by right.
  - intros [?|H]; [done|]. by rewrite H.
Qed.

Lemma legacy_VerifyEntitlements_panics (e : Entitlements) (R : Requirements) :
  Legacy.VerifyEntitlements ec e R = Panicked
  ↔ e = None ∧ anons ≠ [] ∧ R ≠ [].
Proof.
  destruct R as [|r R].
  - split; [done|]. by intros (_ & _ & ?).
  - rewrite legacy_VerifyEntitlements_nonempty by done.
    destruct e as [m|].
    + rewrite legacy_withAnonymous_some. simpl.
      split; [done|]. by intros (? & _).
    + rewrite legacy_withAnonymous_nil.
      destruct (decide (anons = [])) as [E|E]; simpl.
      * split; [done|]. by intros (_ & ? & _).
      * done.
Qed.

(** ** The identity step *)

Definition extend_entry (x : string) (entry : StringsMap) : StringsMap :=
  extend x <$> entry.

Definition entry_lacks (x : string) (entry : StringsMap) : bool :=
  match entry with
  | Some m => lacks x m
  | None => false
  end.

Lemma identity_loop_spec (identity : string) (R : Requirements) (added : bool) :
  Legacy.identity_loop identity R added
  = Returned (extend_entry identity <$> R,
              added || existsb (entry_lacks identity) R).
Proof.
  revert added. induction R as [|entry rest IH]; intros added; simpl.
  - by rewrite orb_false_r.
  - destruct entry as [m|]; simpl.
    + rewrite extend_pass_spec by done. simpl. rewrite IH. simpl.
      by rewrite orb_assoc.
    + rewrite IH. done.
Qed.

(** The requirements this [VerifyResourceEntitlements] hands to
    [VerifyEntitlements]. *)
Definition legacy_requirements (identity : string) (R : Requirements)
  : Requirements :=
  (extend_entry identity <$> R)
  ++ (if existsb (entry_lacks identity) R then []
      else [Some {[ "_" := [identity] ]}]).

Lemma legacy_VerifyResourceEntitlements_unfold (resource resourceName : string)
    (e : Entitlements) (R : Requirements) :
  Legacy.VerifyResourceEntitlements ec resource resourceName e R
  = Legacy.VerifyEntitlements ec e
      (legacy_requirements (identity_of resource resourceName) R).
Proof.
  unfold Legacy.VerifyResourceEntitlements.
  rewrite deepCloneRequirements_id, identity_loop_spec. simpl.
  unfold legacy_requirements.
  destruct (existsb _ R); simpl; [|done]. by rewrite app_nil_r.
Qed.

Lemma legacy_requirements_nonempty (identity : string) (R : Requirements) :
  legacy_requirements identity R ≠ [].
Proof.
  unfold legacy_requirements. destruct R as [|r R]; [done|].
  by rewrite fmap_cons.
Qed.

End Checker.

Lemma legacy_VerifyEntitlements_noanon (ec : Legacy.EntitlementsChecker)
    (e : Entitlements) (R : Requirements) :
  Legacy.anonymousEntitlements ec = [] →
  ∃ b, Legacy.VerifyEntitlements ec e R = Returned b
       ∧ (b = true ↔ R = [] ∨ one_scheme_satisfied e R).
Proof.
  intros Hanon. destruct R as [|r R].
  - exists true. split; [done|]. split; [by left|done].
  - rewrite legacy_VerifyEntitlements_nonempty by done.
    assert (Legacy.withAnonymous ec e = Returned e) as ->.
    { destruct e as [m|].
      - rewrite legacy_withAnonymous_some. unfold legacy_working.
        by rewrite Hanon.
      - rewrite legacy_withAnonymous_nil. by rewrite decide_True. }
    cbn [obind]. eexists. split; [done|].
    rewrite (schemes_any_spec e (map_range e)) by done.
    split; [by right|]. by intros [?|?].
Qed.

(** An entry with a single scheme key is satisfied in the sense of the
    current version exactly when that key satisfies it. *)
Lemma entry_satisfied_singleton (held : StringsMap) (k : string)
    (required : list string) :
  entry_satisfied held (Some {[ k := required ]})
  ↔ ∃ heldList,
      map_get held k = Some heldList
      ∧ ∀ r, r ∈ required → ∃ h, h ∈ heldList ∧ entitlementMatches h r = true.
Proof.
  split.
  - intros H. apply (H k required). simpl. apply lookup_singleton_eq.
  - intros H scheme required' Hs. simpl in Hs.
    by apply lookup_singleton_Some in Hs as [<- <-].
Qed.

End LegacyFacts.

(** * The properties stated by the specification *)

Import Go GoFacts.

(** C1 (OR across entries, AND across scheme keys).  [VerifyEntitlements]
    returns true when the requirements list is empty.  When the
    entitlements are not the nil map, or no anonymous entitlement is
    configured, it returns true exactly when some entry of the list is
    satisfied by the mapping the entries are checked against: every scheme
    key of the entry is a key of that mapping and every required string
    under it is matched by a held string under the same key.  A missing
    scheme key makes the entry fail and is no error.  The mapping the
    entries are checked against is the caller's mapping when no anonymous
    entitlement is configured; otherwise it is the caller's mapping with,
    under the default scheme, the strings the caller holds there together
    with the anonymous entitlements.

    The code leaves the claim on the remaining inputs: on the nil map, with
    anonymous entitlements configured and a requirements list that is not
    empty, [deepCloneEntitlements] returns nil, the loop finds nothing to
    range over, and the write of line 123 goes to the nil map.  The call
    panics instead of returning, also on a list with an entry that has no
    scheme key, which every mapping satisfies. *)
Theorem C1_VerifyEntitlements :
  (∀ (ec : EntitlementsChecker) (entitlements : Entitlements),
     VerifyEntitlements ec entitlements [] = Returned true)
  ∧ (∀ (ec : EntitlementsChecker) (entitlements : Entitlements)
       (requirements : Requirements),
       (entitlements = None → anonymousEntitlements ec = []) →
       ∃ working b,
         withAnonymous ec entitlements = Returned working
         ∧ (anonymousEntitlements ec = [] → working = entitlements)
         ∧ (anonymousEntitlements ec ≠ [] →
            ∃ m w l',
              entitlements = Some m ∧ working = Some w
              ∧ (∀ k, k ≠ defaultScheme ec → w !! k = m !! k)
              ∧ w !! defaultScheme ec = Some l'
              ∧ ∀ x, x ∈ l'
                     ↔ x ∈ default [] (m !! defaultScheme ec)
                       ∨ x ∈ anonymousEntitlements ec)
         ∧ VerifyEntitlements ec entitlements requirements = Returned b
         ∧ (b = true
            ↔ requirements = []
              ∨ ∃ entry, entry ∈ requirements
                         ∧ entry_satisfied working entry))
  ∧ (∀ (ec : EntitlementsChecker) (requirements : Requirements),
       anonymousEntitlements ec ≠ [] → requirements ≠ [] →
       VerifyEntitlements ec None requirements = Panicked)
  ∧ (VerifyEntitlements (NewEntitlementsChecker ["pages:read"] "" false)
       None [Some ∅] = Panicked
     ∧ ∀ held, entry_satisfied held (Some ∅)).
Proof.
  split; [|split; [|split]].
  - intros ec entitlements. apply VerifyEntitlements_empty.
  - intros ec entitlements requirements Hnil.
    destruct (withAnonymous_defined ec entitlements Hnil) as (w & Hw).
    destruct (VerifyEntitlements_working ec _ _ requirements Hw) as (b & Hb & Hiff).
    exists w, b. split; [done|]. split; [|split; [|done]].
    + intros Hnone. rewrite withAnonymous_none in Hw by done. congruence.
    + intros Hanon. destruct entitlements as [m|]; [|by specialize (Hnil eq_refl)].
      rewrite withAnonymous_some in Hw by done. injection Hw as <-.
      destruct (anonymous_result_default ec m) as (l' & Hl' & Hin).
      exists m, (anonymous_result ec m), l'. split; [done|]. split; [done|].
      split; [|done]. intros k Hk. by apply anonymous_result_lookup_ne.
  - intros ec requirements Hanon Hreq.
    by apply Laws.VerifyEntitlements_panics.
  - split; [by vm_compute|].
    intros held scheme required Hs. simpl in Hs. by rewrite lookup_empty in Hs.
Qed.

Lemma C1_VerifyEntitlements_witness :
  VerifyEntitlements (NewEntitlementsChecker ["pages:read"] "" false) None []
  = Returned true
  ∧ (∃ working b,
       withAnonymous (NewEntitlementsChecker ["pages:read"] "" false)
         (Some {[ "bearer" := ["pages:/foo:read"] ]}) = Returned working
       ∧ VerifyEntitlements (NewEntitlementsChecker ["pages:read"] "" false)
           (Some {[ "bearer" := ["pages:/foo:read"] ]})
           [Some {[ "bearer" := ["pages:read"] ]}] = Returned b)
  ∧ VerifyEntitlements (NewEntitlementsChecker ["pages:read"] "" false) None
      [Some {[ "bearer" := ["pages:read"] ]}] = Panicked.
Proof.
  destruct C1_VerifyEntitlements as (H1 & H2 & H3 & _).
  split; [apply H1|]. split.
  - destruct (H2 (NewEntitlementsChecker ["pages:read"] "" false)
                (Some {[ "bearer" := ["pages:/foo:read"] ]})
                [Some {[ "bearer" := ["pages:read"] ]}])
      as (w & b & Hw & _ & _ & Hb & _); [discriminate|].
    exists w, b. split; [exact Hw|exact Hb].
  - apply H3; discriminate.
Defined.

(** C2 (identity requirement).  [VerifyResourceEntitlements] is
    [VerifyEntitlements] on the requirements with the identity string
    appended under the default scheme in every entry (a single entry holding
    just the identity when there is none), and on the entitlements with the
    identity appended under the default scheme exactly when read is granted
    by default, whenever the maps the program has to write to exist: no
    entry of the requirements is a nil map, and the entitlements are not the
    nil map when read is granted by default.

    The code leaves the claim on the remaining inputs.  A nil entry of the
    requirements is left nil by [deepCloneRequirements] and written to at
    line 78; a nil entitlements map is left nil by [deepCloneEntitlements]
    and written to at line 87 when read is granted by default.  There the
    call panics, while [VerifyEntitlements] on the inputs transformed as the
    claim says returns. *)
Theorem C2_VerifyResourceEntitlements :
  (∀ (ec : EntitlementsChecker) (resource resourceName : string)
     (entitlements : Entitlements) (requirements : Requirements),
     None ∉ requirements →
     (entitlements = None → grantReadyByDefault ec = false) →
     VerifyResourceEntitlements ec resource resourceName entitlements
       requirements
     = VerifyEntitlements ec
         (spec_entitlements ec (spec_identity resource resourceName)
            entitlements)
         (spec_requirements ec (spec_identity resource resourceName)
            requirements))
  ∧ (∀ (ec : EntitlementsChecker) (resource resourceName : string)
       (entitlements : Entitlements) (requirements : Requirements),
       None ∈ requirements
       ∨ (entitlements = None ∧ grantReadyByDefault ec = true) →
       VerifyResourceEntitlements ec resource resourceName entitlements
         requirements = Panicked)
  ∧ (VerifyResourceEntitlements (NewEntitlementsChecker [] "" false)
       "pages" "foo" (Some ∅) [None] = Panicked
     ∧ VerifyEntitlements (NewEntitlementsChecker [] "" false)
         (spec_entitlements (NewEntitlementsChecker [] "" false)
            (spec_identity "pages" "foo") (Some ∅))
         (spec_requirements (NewEntitlementsChecker [] "" false)
            (spec_identity "pages" "foo") [None])
       = Returned false)
  ∧ (VerifyResourceEntitlements (NewEntitlementsChecker [] "" true)
       "pages" "foo" None [] = Panicked
     ∧ VerifyEntitlements (NewEntitlementsChecker [] "" true)
         (spec_entitlements (NewEntitlementsChecker [] "" true)
            (spec_identity "pages" "foo") None)
         (spec_requirements (NewEntitlementsChecker [] "" true)
            (spec_identity "pages" "foo") [])
       = Returned true).
Proof.
  split; [|split; [|split]].
  - intros ec resource resourceName entitlements requirements Hreqs Hents.
    unfold VerifyResourceEntitlements, deepCloneEntitlements.
    rewrite deepCloneRequirements_id, cloneStringsMap_id.
    change (identity_of resource resourceName)
      with (spec_identity resource resourceName).
    set (identity := spec_identity resource resourceName).
    unfold spec_entitlements.
    assert (grantReadyByDefault ec = true → ∃ m, entitlements = Some m) as Hsome.
    { intros G. destruct entitlements as [m|]; [by exists m|].
      rewrite Hents in G; done. }
    destruct requirements as [|r reqs].
    + cbn [length Nat.eqb app obind spec_requirements].
      destruct (grantReadyByDefault ec); [|done].
      by destruct Hsome as [m ->].
    + rewrite addIdentity_some by done.
      cbn [length Nat.eqb obind spec_requirements].
      destruct (grantReadyByDefault ec); [|done].
      by destruct Hsome as [m ->].
  - intros ec resource resourceName entitlements requirements H.
    apply Laws.VerifyResourceEntitlements_panics.
    destruct H as [H|[H G]]; [by left|right]. split; [done|by left].
  - split; by vm_compute.
  - split; by vm_compute.
Qed.

Lemma C2_VerifyResourceEntitlements_witness :
  VerifyResourceEntitlements (NewEntitlementsChecker ["pages:read"] "" true)
    "pages" "foo" (Some ∅) [Some {[ "bearer" := ["pages:write"] ]}]
  = VerifyEntitlements (NewEntitlementsChecker ["pages:read"] "" true)
      (spec_entitlements (NewEntitlementsChecker ["pages:read"] "" true)
         (spec_identity "pages" "foo") (Some ∅))
      (spec_requirements (NewEntitlementsChecker ["pages:read"] "" true)
         (spec_identity "pages" "foo")
         [Some {[ "bearer" := ["pages:write"] ]}]).
Proof.
  apply (proj1 C2_VerifyResourceEntitlements).
  - intros H. apply list_elem_of_singleton in H. discriminate.
  - discriminate.
Defined.

(** C3 (verb field).  For a held and a required string that both come out of
    the canonicalisation with three fields, with equal resource types and
    names that pass the name rule, the match succeeds exactly when the held
    verb is the literal "all" or the two verbs are equal.  In particular a
    held r:n:all matches a required r:n:v for every verb v, and a held
    r:n:read does not match a required r:n:all. *)
Theorem C3_verb_field :
  (∀ held required p0 p1 p2 r0 r1 r2 : string,
     short_syntax (Split held) = [p0; p1; p2] →
     short_syntax (Split required) = [r0; r1; r2] →
     p0 = r0 →
     (p1 = "" ∨ p1 = "*" ∨ r1 = "" ∨ r1 = "*" ∨ p1 = r1) →
     (entitlementMatches held required = true ↔ p2 = "all" ∨ p2 = r2))
  ∧ (∀ r n v : string,
       colon_free r = true → colon_free n = true → colon_free v = true →
       entitlementMatches (r ++ ":" ++ n ++ ":all") (r ++ ":" ++ n ++ ":" ++ v)
       = true)
  ∧ (∀ r n : string,
       colon_free r = true → colon_free n = true →
       entitlementMatches (r ++ ":" ++ n ++ ":read") (r ++ ":" ++ n ++ ":all")
       = false).
Proof.
  split; [|split].
  - intros held required p0 p1 p2 r0 r1 r2 Hh Hr <- Hname.
    rewrite (entitlementMatches_fields _ _ _ _ _ _ _ _ Hh Hr).
    rewrite String.eqb_refl. simpl.
    apply name_rule_spec in Hname. rewrite Hname, andb_true_r.
    apply verb_rule_spec.
  - intros r n v Hr Hn Hv.
    rewrite (entitlementMatches_fields _ _ r n "all" r n v).
    + rewrite String.eqb_refl. unfold name_rule.
      by rewrite String.eqb_refl, orb_true_r.
    + by rewrite (Split_long r n "all" Hr Hn eq_refl
                    : Split (r ++ ":" ++ n ++ ":all") = _).
    + by rewrite (Split_long r n v Hr Hn Hv).
  - intros r n Hr Hn.
    rewrite (entitlementMatches_fields _ _ r n "read" r n "all").
    + by rewrite String.eqb_refl.
    + by rewrite (Split_long r n "read" Hr Hn eq_refl
                    : Split (r ++ ":" ++ n ++ ":read") = _).
    + by rewrite (Split_long r n "all" Hr Hn eq_refl
                    : Split (r ++ ":" ++ n ++ ":all") = _).
Qed.

Lemma C3_verb_field_witness :
  (entitlementMatches "pages:/foo:all" "pages::write" = true
   ↔ "all" = "all" ∨ "all" = "write")
  ∧ entitlementMatches ("pages" ++ ":" ++ "/foo" ++ ":all")
      ("pages" ++ ":" ++ "/foo" ++ ":" ++ "delete") = true
  ∧ entitlementMatches ("pages" ++ ":" ++ "/foo" ++ ":read")
      ("pages" ++ ":" ++ "/foo" ++ ":all") = false.
Proof.
  destruct C3_verb_field as (H1 & H2 & H3).
  split; [|split].
  - apply (H1 "pages:/foo:all" "pages::write" "pages" "/foo" "all"
             "pages" "" "write"); [reflexivity|reflexivity|reflexivity|].
    right; right; left; reflexivity.
  - apply H2; reflexivity.
  - apply H3; reflexivity.
Defined.

(** C4 (name field).  For a held and a required string that both come out of
    the canonicalisation with three fields, with equal resource types and
    verbs that pass the verb rule, the match succeeds exactly when the held
    name is empty or "*", or the required name is empty or "*", or the two
    names are equal; the wildcard works in both directions. *)
Theorem C4_name_field :
  (∀ held required p0 p1 p2 r0 r1 r2 : string,
     short_syntax (Split held) = [p0; p1; p2] →
     short_syntax (Split required) = [r0; r1; r2] →
     p0 = r0 →
     (p2 = "all" ∨ p2 = r2) →
     (entitlementMatches held required = true
      ↔ p1 = "" ∨ p1 = "*" ∨ r1 = "" ∨ r1 = "*" ∨ p1 = r1))
  ∧ entitlementMatches "pages::read" "pages:/foo:read" = true
  ∧ entitlementMatches "pages:/foo:read" "pages::read" = true.
Proof.
  split; [|split; reflexivity].
  intros held required p0 p1 p2 r0 r1 r2 Hh Hr <- Hverb.
  rewrite (entitlementMatches_fields _ _ _ _ _ _ _ _ Hh Hr).
  rewrite String.eqb_refl. simpl.
  apply verb_rule_spec in Hverb. rewrite Hverb. simpl.
  apply name_rule_spec.
Qed.

Lemma C4_name_field_witness :
  entitlementMatches "pages:*:read" "pages:/foo:read" = true
  ↔ "*" = "" ∨ "*" = "*" ∨ "/foo" = "" ∨ "/foo" = "*" ∨ "*" = "/foo".
Proof.
  apply (proj1 C4_name_field "pages:*:read" "pages:/foo:read"
           "pages" "*" "read" "pages" "/foo" "read");
    [reflexivity|reflexivity|reflexivity|right; reflexivity].
Defined.

(** C5 (opaque strings).  When the colon-split of the held or of the required
    string has a number of fields other than 2 or 3, the match succeeds only
    when the two strings are equal; a split with two fields is expanded with
    an empty middle field. *)
Theorem C5_opaque_exact_only :
  (∀ held required : string,
     (length (Split held) ≠ 2 ∧ length (Split held) ≠ 3)
     ∨ (length (Split required) ≠ 2 ∧ length (Split required) ≠ 3) →
     (entitlementMatches held required = true ↔ held = required))
  ∧ (∀ s a b : string,
       Split s = [a; b] → short_syntax (Split s) = [a; ""; b])
  ∧ entitlementMatches "books" "books:read" = false
  ∧ entitlementMatches "books:all" "books" = false.
Proof.
  split; [|split; [|split; reflexivity]].
  - intros held required H.
    rewrite entitlementMatches_unstructured; [apply eqb_true|].
    unfold structured.
    destruct H as [H|H]; [left|right]; apply bool_decide_eq_false; tauto.
  - intros s a b ->. reflexivity.
Qed.

Lemma C5_opaque_exact_only_witness :
  (entitlementMatches "a:b:c:d" "a:b:c" = true ↔ "a:b:c:d" = "a:b:c")
  ∧ short_syntax (Split "books:read") = ["books"; ""; "read"].
Proof.
  destruct C5_opaque_exact_only as (H1 & H2 & _).
  split.
  - apply H1. left. vm_compute. split; lia.
  - apply (H2 "books:read" "books" "read"). reflexivity.
Defined.

(** C6 (no write-back).  Whatever the store, the arguments and the outcome,
    a call of [VerifyEntitlements] or of [VerifyResourceEntitlements] leaves
    every map object, every backing array and every slice of maps that
    existed before the call as it was; what the caller reads through its
    entitlements and its requirements after the call is what it read
    before. *)
Theorem C6_caller_data_untouched
    (growslice : nat → nat → nat) (ec : EntitlementsChecker)
    (resource resourceName : string)
    (σ : Mem.store) (entitlements : option Mem.loc) (requirements : Mem.slice) :
  let σ1 := (Mem.VerifyEntitlements growslice ec entitlements requirements σ).2 in
  let σ2 := (Mem.VerifyResourceEntitlements growslice ec resource resourceName
               entitlements requirements σ).2 in
  Frame.unchanged σ σ1
  ∧ Frame.unchanged σ σ2
  ∧ (∀ E, Frame.map_at σ entitlements E →
          Frame.map_at σ1 entitlements E ∧ Frame.map_at σ2 entitlements E)
  ∧ (∀ R, Frame.requirements_at σ requirements R →
          Frame.requirements_at σ1 requirements R
          ∧ Frame.requirements_at σ2 requirements R).
Proof.
  intros σ1 σ2.
  assert (Frame.unchanged σ σ1) as H1.
  { apply Frame.triple_unchanged, Frame.triple_VerifyEntitlements. }
  assert (Frame.unchanged σ σ2) as H2.
  { apply Frame.triple_unchanged, Frame.triple_VerifyResourceEntitlements. }
  split; [done|]. split; [done|]. split.
  - intros E HE. split; by eapply Frame.map_at_unchanged.
  - intros R HR. split; by eapply Frame.requirements_at_unchanged.
Qed.

Lemma C6_caller_data_untouched_witness :
  Frame.map_at
    (Mem.VerifyResourceEntitlements Mem.double
       (NewEntitlementsChecker ["pages:read"] "" true) "pages" "foo"
       (Some 0) (Mem.Slice (Some 0) 0 1 1)
       (Mem.Store {[ 0 := ["pages:write"]; 1 := ["pages:write"] ]}
          {[ 0 := {[ "bearer" := Mem.Slice (Some 0) 0 1 1 ]};
             1 := {[ "bearer" := Mem.Slice (Some 1) 0 1 1 ]} ]}
          {[ 0 := [Some 1] ]})).2
    (Some 0) (Some {[ "bearer" := ["pages:write"] ]}).
Proof.
  apply (C6_caller_data_untouched Mem.double
           (NewEntitlementsChecker ["pages:read"] "" true) "pages" "foo").
  exists {[ "bearer" := Mem.Slice (Some 0) 0 1 1 ]}.
  split; [reflexivity|]. intros k.
  destruct (decide (k = "bearer")) as [->|Hne].
  - rewrite !lookup_singleton_eq. constructor.
    exists ["pages:write"]. split; [reflexivity|]. split; [simpl; lia|reflexivity].
  - rewrite !lookup_singleton_ne by done. constructor.
Defined.

(** C7 (anonymous entitlements), as the code has it.  With anonymous
    entitlements configured and a caller's mapping [m] that is not the nil
    map (the nil map is the defect of C9, left out here): the other scheme keys
    of the working copy are those of [m]; a default-scheme key absent from
    [m] is created holding exactly the anonymous entitlements; and when the
    key is present and some anonymous entitlement is not in its list, the
    list is extended with each anonymous entitlement it does not hold yet,
    once each, while those it holds already are not appended again. *)
Theorem C7_anonymous_step (ec : EntitlementsChecker)
    (m : gmap string (list string)) :
  anonymousEntitlements ec ≠ [] →
  ∃ w,
    withAnonymous ec (Some m) = Returned (Some w)
    ∧ (∀ requirements, requirements ≠ [] →
         VerifyEntitlements ec (Some m) requirements
         = Returned (anyRequirement (Some w) requirements))
    ∧ (∀ k, k ≠ defaultScheme ec → w !! k = m !! k)
    ∧ (m !! defaultScheme ec = None →
       w !! defaultScheme ec = Some (anonymousEntitlements ec))
    ∧ (∀ l, m !! defaultScheme ec = Some l →
         (∃ a, a ∈ anonymousEntitlements ec ∧ a ∉ l) →
         ∃ added,
           w !! defaultScheme ec = Some (l ++ added)
           ∧ l ++ added = merge_anonymous l (anonymousEntitlements ec)
           ∧ NoDup added
           ∧ ∀ a, a ∈ added ↔ a ∈ anonymousEntitlements ec ∧ a ∉ l).
Proof.
  intros Hanon. exists (anonymous_result ec m).
  split; [by apply withAnonymous_some|].
  split; [|split; [|split]].
  - intros [|r reqs] Hne; [done|].
    unfold VerifyEntitlements. cbn [length Nat.eqb].
    by rewrite withAnonymous_some.
  - intros k Hk. by apply anonymous_result_lookup_ne.
  - intros Hd. unfold anonymous_result. rewrite Hd.
    by rewrite lookup_insert_eq.
  - intros l Hd (a & Ha & Hal).
    destruct (merge_anonymous_spec l (anonymousEntitlements ec))
      as (added & Heq & Hnd & Hin).
    exists added. unfold anonymous_result. rewrite Hd.
    destruct (decide _) as [Hfix|_].
    + exfalso. apply Hal. by apply (proj1 (merge_anonymous_fixed _ _) Hfix).
    + by rewrite lookup_insert_eq, Heq.
Qed.

Lemma C7_anonymous_step_witness :
  ∃ w, withAnonymous (NewEntitlementsChecker ["a"; "b"] "" false)
         (Some {[ "bearer" := ["a"] ]}) = Returned (Some w).
Proof.
  destruct (C7_anonymous_step (NewEntitlementsChecker ["a"; "b"] "" false)
              {[ "bearer" := ["a"] ]}) as (w & Hw & _); [discriminate|].
  by exists w.
Defined.

(** C7, as the specification states it (every anonymous entitlement appended
    once, without deduplication), fails: with the anonymous entitlements a
    and b and a caller holding a under the default scheme, the working copy
    holds a and b, not a followed by a and b. *)
Lemma C7_appended_once_counterexample :
  default_list (NewEntitlementsChecker ["a"; "b"] "" false)
    (withAnonymous (NewEntitlementsChecker ["a"; "b"] "" false)
       (Some {[ "bearer" := ["a"] ]}))
  = Some ["a"; "b"]
  ∧ default_list (NewEntitlementsChecker ["a"; "b"] "" false)
      (withAnonymous (NewEntitlementsChecker ["a"; "b"] "" false)
         (Some {[ "bearer" := ["a"] ]}))
    ≠ Some (["a"] ++ ["a"; "b"]).
Proof.
  split; [by vm_compute|]. vm_compute. discriminate.
Qed.

(** C8 (presence-only entry).  An entry whose scheme key maps to an empty
    list of required strings is satisfied by the mere presence of the key in
    the held mapping, whatever the held list, the empty one included, and
    fails when the key is absent from the mapping it is checked against. *)
Theorem C8_presence_only :
  (∀ (ec : EntitlementsChecker) (m : gmap string (list string)) (s : string),
     is_Some (m !! s) →
     VerifyEntitlements ec (Some m) [Some {[ s := [] ]}] = Returned true)
  ∧ (∀ (held : StringsMap) (s : string) (l : list string),
       map_get held s = Some l →
       satisfiesAndRequirements held (Some {[ s := [] ]}) = true)
  ∧ (∀ (held : StringsMap) (s : string),
       map_get held s = None →
       satisfiesAndRequirements held (Some {[ s := [] ]}) = false)
  ∧ (∀ (ec : EntitlementsChecker) (m : gmap string (list string)) (s : string),
       m !! s = None →
       anonymousEntitlements ec = [] ∨ s ≠ defaultScheme ec →
       VerifyEntitlements ec (Some m) [Some {[ s := [] ]}] = Returned false).
Proof.
  assert (∀ held s, satisfiesAndRequirements held (Some {[ s := [] ]})
                    = match map_get held s with Some _ => true | None => false end)
    as Hentry.
  { intros held s. unfold satisfiesAndRequirements. cbn [map_range].
    rewrite map_to_list_singleton. simpl. by destruct (map_get held s). }
  split; [|split; [|split]].
  - intros ec m s [l Hs].
    destruct (withAnonymous_returns ec m) as (w & Hw & _ & Hdom).
    unfold VerifyEntitlements. cbn [length Nat.eqb]. rewrite Hw. simpl.
    rewrite Hentry. simpl. destruct (Hdom s) as [l' ->]; eauto.
  - intros held s l Hl. by rewrite Hentry, Hl.
  - intros held s Hs. by rewrite Hentry, Hs.
  - intros ec m s Hs Hcase.
    unfold VerifyEntitlements. cbn [length Nat.eqb].
    destruct (decide (anonymousEntitlements ec = [])) as [E|E].
    + rewrite withAnonymous_none by done. simpl.
      rewrite Hentry. simpl. by rewrite Hs.
    + destruct Hcase as [?|Hne]; [done|].
      rewrite withAnonymous_some by done. simpl.
      rewrite Hentry. simpl.
      by rewrite anonymous_result_lookup_ne, Hs.
Qed.

Lemma C8_presence_only_witness :
  VerifyEntitlements (NewEntitlementsChecker [] "" false)
    (Some {[ "bearer" := [] ]}) [Some {[ "bearer" := [] ]}] = Returned true
  ∧ VerifyEntitlements (NewEntitlementsChecker [] "" false)
      (Some {[ "bearer" := [] ]}) [Some {[ "oauth2" := [] ]}] = Returned false.
Proof.
  destruct C8_presence_only as (H1 & _ & _ & H4). split.
  - apply H1. rewrite lookup_singleton_eq. eauto.
  - apply H4; [reflexivity|left; reflexivity].
Defined.

(** C9 (no failure mode), refuted on the code: a nil map that the program
    has to write to makes the call panic.  [VerifyEntitlements] panics on a
    nil entitlements map when anonymous entitlements are configured, and
    [VerifyResourceEntitlements] panics on a nil entitlements map when read
    is granted by default, and on a requirements list with a nil entry. *)
Theorem C9_nil_map_panics :
  VerifyEntitlements (NewEntitlementsChecker ["pages:read"] "" false)
    None [Some {[ "bearer" := ["pages"] ]}] = Panicked
  ∧ VerifyResourceEntitlements (NewEntitlementsChecker [] "" true)
      "pages" "foo" None [] = Panicked
  ∧ VerifyResourceEntitlements (NewEntitlementsChecker [] "" false)
      "pages" "foo" (Some ∅) [None] = Panicked.
Proof. split; [|split]; by vm_compute. Qed.

(** C10 (empty entry).  A requirements list with an entry that has no scheme
    key at all grants access to every caller whose entitlements are not the
    nil map, the one holding no entitlement included, and to the nil map
    when no anonymous entitlement is configured.

    The code leaves the claim on the nil map with anonymous entitlements
    configured: the write of line 123 goes to the nil map that
    [deepCloneEntitlements] returned, and the call panics instead of
    returning true. *)
Theorem C10_empty_entry_grants :
  (∀ (ec : EntitlementsChecker) (entitlements : Entitlements)
     (requirements : Requirements),
     (entitlements = None → anonymousEntitlements ec = []) →
     Some ∅ ∈ requirements ∨ None ∈ requirements →
     VerifyEntitlements ec entitlements requirements = Returned true)
  ∧ (∀ (ec : EntitlementsChecker) (requirements : Requirements),
       anonymousEntitlements ec ≠ [] →
       Some ∅ ∈ requirements ∨ None ∈ requirements →
       VerifyEntitlements ec None requirements = Panicked)
  ∧ VerifyEntitlements (NewEntitlementsChecker ["pages:read"] "" false)
      None [Some {[ "bearer" := ["pages:write"] ]}; Some ∅] = Panicked.
Proof.
  split; [|split].
  - intros ec entitlements requirements Hnil Hin.
    destruct (withAnonymous_defined ec entitlements Hnil) as (w & Hw).
    destruct (VerifyEntitlements_working ec _ _ requirements Hw) as (b & Hb & Hiff).
    rewrite Hb. f_equal. apply Hiff. right.
    destruct Hin as [Hin|Hin]; eexists; (split; [exact Hin|]);
      intros k rl Hk; simpl in Hk; [by rewrite lookup_empty in Hk|done].
  - intros ec requirements Hanon Hin.
    apply Laws.VerifyEntitlements_panics. split; [done|]. split; [done|].
    intros ->. destruct Hin as [Hin|Hin]; by apply elem_of_nil in Hin.
  - by vm_compute.
Qed.

Lemma C10_empty_entry_grants_witness :
  VerifyEntitlements (NewEntitlementsChecker ["pages:read"] "" false) (Some ∅)
    [Some {[ "bearer" := ["pages:write"] ]}; Some ∅] = Returned true.
Proof.
  apply (proj1 C10_empty_entry_grants); [discriminate|]. left. right. left.
Defined.

(** * Further properties of the code *)

Import Laws.

(** X1 (constructor).  The checker built by [NewEntitlementsChecker] never
    has the empty string as its default scheme: an empty argument becomes
    "bearer" and any other is kept; the anonymous entitlements and the flag
    are stored as given, and building a checker again from the scheme of a
    built one changes nothing. *)
Theorem X1_default_scheme_never_empty
    (anon : list string) (scheme : string) (grant : bool) :
  defaultScheme (NewEntitlementsChecker anon scheme grant) ≠ ""
  ∧ defaultScheme (NewEntitlementsChecker anon scheme grant)
    = (if decide (scheme = "") then "bearer" else scheme)
  ∧ anonymousEntitlements (NewEntitlementsChecker anon scheme grant) = anon
  ∧ grantReadyByDefault (NewEntitlementsChecker anon scheme grant) = grant
  ∧ NewEntitlementsChecker anon
      (defaultScheme (NewEntitlementsChecker anon scheme grant)) grant
    = NewEntitlementsChecker anon scheme grant.
Proof.
  unfold NewEntitlementsChecker. simpl.
  destruct (String.eqb scheme "") eqn:E.
  - apply eqb_true in E as ->. by rewrite decide_True.
  - rewrite E. apply eqb_false in E. by rewrite decide_False.
Qed.

(** X2 (hasEntitlement).  A list of held strings satisfies a required string
    exactly when one of its members matches it; so the string itself, held
    anywhere in the list, is enough whatever its shape, the search over two
    lists put end to end is the disjunction of the searches, and a list
    with at least the same members never does worse: order and repetitions
    of the held strings do not count. *)
Theorem X2_hasEntitlement_membership :
  (∀ l r, hasEntitlement l r = true
          ↔ ∃ e, e ∈ l ∧ entitlementMatches e r = true)
  ∧ (∀ l r, r ∈ l → hasEntitlement l r = true)
  ∧ (∀ l1 l2 r,
       hasEntitlement (l1 ++ l2) r = hasEntitlement l1 r || hasEntitlement l2 r)
  ∧ (∀ l l' r,
       (∀ x, x ∈ l → x ∈ l') →
       hasEntitlement l r = true → hasEntitlement l' r = true)
  ∧ (∀ l l' r,
       (∀ x, x ∈ l ↔ x ∈ l') → hasEntitlement l r = hasEntitlement l' r).
Proof.
  split; [apply hasEntitlement_true|]. split; [|split; [|split]].
  - intros l r Hr. apply hasEntitlement_true. exists r.
    split; [done|]. apply entitlementMatches_refl.
  - apply hasEntitlement_app.
  - apply hasEntitlement_subseteq.
  - intros l l' r Hiff.
    destruct (hasEntitlement l r) eqn:H1, (hasEntitlement l' r) eqn:H2;
      try done.
    + rewrite <- H2. symmetry.
      eapply hasEntitlement_subseteq; [|exact H1]. intros x. apply Hiff.
    + rewrite <- H1.
      eapply hasEntitlement_subseteq; [|exact H2]. intros x. apply Hiff.
Qed.

Lemma X2_hasEntitlement_membership_witness :
  hasEntitlement ["a"; "b:c:d:e"] "b:c:d:e" = true
  ∧ hasEntitlement ["pages:read"; "pages:read"; "books"] "pages:/foo:read"
    = hasEntitlement ["books"; "pages:read"] "pages:/foo:read".
Proof.
  destruct X2_hasEntitlement_membership as (_ & H1 & _ & _ & H4). split.
  - apply H1. right. left.
  - apply H4. intros x. rewrite !elem_of_cons. rewrite !elem_of_nil. tauto.
Defined.

(** X3 (satisfiesRequirement).  A list of required strings is satisfied
    exactly when each of them is; so the empty list is satisfied by any held
    list, the empty one included, a held list that is empty satisfies no
    other list, two lists put end to end are satisfied when both are, and
    holding more or requiring less never turns a success into a failure. *)
Theorem X3_satisfiesRequirement_conjunction :
  (∀ held rs, satisfiesRequirement held rs = true
              ↔ ∀ r, r ∈ rs → hasEntitlement held r = true)
  ∧ (∀ held, satisfiesRequirement held [] = true)
  ∧ (∀ r rs, satisfiesRequirement [] (r :: rs) = false)
  ∧ (∀ held r1 r2,
       satisfiesRequirement held (r1 ++ r2)
       = satisfiesRequirement held r1 && satisfiesRequirement held r2)
  ∧ (∀ held held' rs rs',
       (∀ x, x ∈ held → x ∈ held') → (∀ r, r ∈ rs' → r ∈ rs) →
       satisfiesRequirement held rs = true →
       satisfiesRequirement held' rs' = true).
Proof.
  split; [apply satisfiesRequirement_true|].
  split; [done|]. split; [done|]. split.
  - apply satisfiesRequirement_app.
  - apply satisfiesRequirement_subseteq.
Qed.

Lemma X3_satisfiesRequirement_conjunction_witness :
  satisfiesRequirement ["books"; "pages:all"] ["pages:write"] = true.
Proof.
  apply (proj2 (proj2 (proj2 (proj2 X3_satisfiesRequirement_conjunction)))
           ["pages:all"] ["books"; "pages:all"]
           ["pages:read"; "pages:write"] ["pages:write"]).
  - intros x Hx. by right.
  - intros r Hr. by right.
  - reflexivity.
Defined.

(** X4 (map iteration order).  Go does not fix the order in which [range]
    visits the entries of a map.  Whatever the order, the loop of
    [satisfiesAndRequirements] over the entries of a requirement gives the
    same answer, and the loop of [VerifyEntitlements] that adds the anonymous
    entitlements leaves the same working mapping and the same flag. *)
Theorem X4_map_iteration_order (ec : EntitlementsChecker) :
  (∀ (held : StringsMap) (entry : gmap string (list string)) order,
     order ≡ₚ map_to_list entry →
     satisfiesAndRequirements_loop held order
     = satisfiesAndRequirements held (Some entry))
  ∧ (∀ (m : gmap string (list string)) order added,
       order ≡ₚ map_to_list m →
       anon_outer ec order (Some m) added
       = anon_outer ec (map_to_list m) (Some m) added).
Proof.
  split.
  - intros held entry order HP. by apply satisfiesAndRequirements_loop_perm.
  - intros m order added HP. by apply anon_outer_order.
Qed.

Lemma X4_map_iteration_order_witness :
  satisfiesAndRequirements_loop (Some {[ "a" := ["x"]; "b" := ["y"] ]})
    [("b", ["y"]); ("a", ["x"])]
  = satisfiesAndRequirements (Some {[ "a" := ["x"]; "b" := ["y"] ]})
      (Some {[ "a" := ["x"]; "b" := ["y"] ]})
  ∧ anon_outer (NewEntitlementsChecker ["z"] "a" false)
      [("b", ["y"]); ("a", ["x"])]
      (Some {[ "a" := ["x"]; "b" := ["y"] ]}) false
    = anon_outer (NewEntitlementsChecker ["z"] "a" false)
        (map_to_list ({[ "a" := ["x"]; "b" := ["y"] ]}
                      : gmap string (list string)))
        (Some {[ "a" := ["x"]; "b" := ["y"] ]}) false.
Proof.
  assert ([("b", ["y"]); ("a", ["x"])]
          ≡ₚ map_to_list ({[ "a" := ["x"]; "b" := ["y"] ]}
                          : gmap string (list string))) as HP.
  { rewrite map_to_list_insert by done. rewrite map_to_list_singleton.
    apply Permutation_swap. }
  destruct (X4_map_iteration_order (NewEntitlementsChecker ["z"] "a" false))
    as (H1 & H2).
  split; [by apply H1|by apply H2].
Defined.

(** X5 (more never hurts).  If [VerifyEntitlements] grants access to a
    caller, it grants access to every caller that holds, under each scheme
    key of the first, at least the same strings, the nil map holding
    nothing, also when the checker is configured with further anonymous
    entitlements for the same default scheme; provided the second call does
    not panic, that is, unless the second caller's map is nil and anonymous
    entitlements are configured. *)
Theorem X5_more_entitlements_never_hurt (ec ec' : EntitlementsChecker)
    (e e' : Entitlements) (R : Requirements) :
  defaultScheme ec' = defaultScheme ec →
  (∀ a, a ∈ anonymousEntitlements ec → a ∈ anonymousEntitlements ec') →
  covers (mapping_of e) (mapping_of e') →
  (e' = None → anonymousEntitlements ec' = []) →
  VerifyEntitlements ec e R = Returned true →
  VerifyEntitlements ec' e' R = Returned true.
Proof.
  intros Hd Ha Hc Hnil' H.
  destruct (decide (R = [])) as [->|HR]; [apply VerifyEntitlements_empty|].
  assert (e = None → anonymousEntitlements ec = []) as Hnil.
  { intros ->. destruct (anonymousEntitlements ec) as [|a l] eqn:E; [done|].
    assert (VerifyEntitlements ec None R = Panicked) as Hp; [|congruence].
    apply VerifyEntitlements_panics. by rewrite E. }
  rewrite VerifyEntitlements_true_any in H by done.
  rewrite VerifyEntitlements_true_any by done.
  destruct H as [->|(entry & Hin & Hs)]; [by left|right].
  exists entry. split; [done|].
  eapply entry_satisfied_covers; [|exact Hs]. by apply working_covers.
Qed.

Lemma X5_more_entitlements_never_hurt_witness :
  VerifyEntitlements (NewEntitlementsChecker ["books:read"] "" false)
    (Some {[ "bearer" := ["pages:write"; "pages:read"];
             "oauth2" := ["email"] ]})
    [Some {[ "bearer" := ["pages:read"] ]}] = Returned true.
Proof.
  apply (X5_more_entitlements_never_hurt
           (NewEntitlementsChecker [] "" false)
           (NewEntitlementsChecker ["books:read"] "" false)
           (Some {[ "bearer" := ["pages:read"] ]})).
  - reflexivity.
  - intros a Ha. by apply elem_of_nil in Ha.
  - intros k l Hk. simpl in Hk. destruct (decide (k = "bearer")) as [->|Hne].
    + rewrite lookup_singleton_eq in Hk. injection Hk as <-.
      exists ["pages:write"; "pages:read"]. split; [reflexivity|].
      intros x Hx. by right.
    + by rewrite lookup_singleton_ne in Hk.
  - discriminate.
  - reflexivity.
Defined.

(** X6 (sets, not lists).  Two callers that hold the same scheme keys and,
    under each, the same strings up to order and repetition get the same
    answer from [VerifyEntitlements]. *)
Theorem X6_held_order_and_repetition (ec : EntitlementsChecker)
    (m m' : gmap string (list string)) (R : Requirements) :
  covers m m' → covers m' m →
  VerifyEntitlements ec (Some m) R = VerifyEntitlements ec (Some m') R.
Proof.
  intros H1 H2.
  destruct (VerifyEntitlements_some ec m R) as (b & Hb & _).
  destruct (VerifyEntitlements_some ec m' R) as (b' & Hb' & _).
  assert (∀ a a' : gmap string (list string), covers a a' →
            VerifyEntitlements ec (Some a) R = Returned true →
            VerifyEntitlements ec (Some a') R = Returned true) as Hmono.
  { intros a a' Hc. rewrite !VerifyEntitlements_true.
    intros [->|(entry & Hin & Hs)]; [by left|right].
    exists entry. split; [done|].
    eapply entry_satisfied_covers; [|exact Hs]. by apply working_covers. }
  rewrite Hb, Hb'. f_equal. destruct b, b'; try done.
  - rewrite (Hmono m m' H1 Hb) in Hb'. by injection Hb'.
  - rewrite (Hmono m' m H2 Hb') in Hb. by injection Hb.
Qed.

Lemma X6_held_order_and_repetition_witness :
  VerifyEntitlements (NewEntitlementsChecker ["a"] "" false)
    (Some {[ "bearer" := ["x"; "y"; "x"] ]}) [Some {[ "bearer" := ["y"; "a"] ]}]
  = VerifyEntitlements (NewEntitlementsChecker ["a"] "" false)
      (Some {[ "bearer" := ["y"; "x"] ]}) [Some {[ "bearer" := ["y"; "a"] ]}].
Proof.
  apply X6_held_order_and_repetition.
  - intros k l Hk. destruct (decide (k = "bearer")) as [->|Hne].
    + rewrite lookup_singleton_eq in Hk. injection Hk as <-.
      exists ["y"; "x"]. split; [reflexivity|].
      intros x. rewrite !elem_of_cons, !elem_of_nil. tauto.
    + by rewrite lookup_singleton_ne in Hk.
  - intros k l Hk. destruct (decide (k = "bearer")) as [->|Hne].
    + rewrite lookup_singleton_eq in Hk. injection Hk as <-.
      exists ["x"; "y"; "x"]. split; [reflexivity|].
      intros x. rewrite !elem_of_cons, !elem_of_nil. tauto.
    + by rewrite lookup_singleton_ne in Hk.
Defined.

(** X7 (alternatives).  The entries of a requirements list are alternatives
    whose order does not count: [VerifyEntitlements] gives the same outcome
    on any rearrangement of the list, and on two lists that are not empty
    put end to end it gives the disjunction of the answers on each, or
    panics as it does on each. *)
Theorem X7_requirements_are_alternatives (ec : EntitlementsChecker)
    (e : Entitlements) :
  (∀ R R', R ≡ₚ R' → VerifyEntitlements ec e R = VerifyEntitlements ec e R')
  ∧ (∀ R1 R2, R1 ≠ [] → R2 ≠ [] →
       VerifyEntitlements ec e (R1 ++ R2)
       = (b1 ←! VerifyEntitlements ec e R1;;
          b2 ←! VerifyEntitlements ec e R2;;
          Returned (b1 || b2))).
Proof.
  split.
  - intros R R' HP. unfold VerifyEntitlements.
    rewrite (Permutation_length HP).
    destruct (length R' =? 0)%nat; [done|].
    destruct (withAnonymous ec e) as [w|]; [|done]. simpl.
    by rewrite (anyRequirement_perm w R R' HP).
  - intros R1 R2 H1 H2.
    rewrite !VerifyEntitlements_nonempty; [|done|done|by destruct R1].
    destruct (withAnonymous ec e) as [w|]; [|done]. simpl.
    by rewrite anyRequirement_app.
Qed.

Lemma X7_requirements_are_alternatives_witness :
  VerifyEntitlements (NewEntitlementsChecker [] "" false)
    (Some {[ "bearer" := ["users:/foo:read"] ]})
    ([Some {[ "bearer" := ["users:/bar:read"] ]}]
     ++ [Some {[ "bearer" := ["users:/foo:read"] ]}])
  = Returned (false || true).
Proof.
  rewrite (proj2 (X7_requirements_are_alternatives
                    (NewEntitlementsChecker [] "" false)
                    (Some {[ "bearer" := ["users:/foo:read"] ]}))
             [Some {[ "bearer" := ["users:/bar:read"] ]}]
             [Some {[ "bearer" := ["users:/foo:read"] ]}]) by done.
  reflexivity.
Defined.

(** X8 (when VerifyEntitlements panics).  [VerifyEntitlements] panics in one
    situation only: the entitlements are the nil map, anonymous entitlements
    are configured and the requirements list is not empty.  In every other
    case it returns. *)
Theorem X8_VerifyEntitlements_panics_iff (ec : EntitlementsChecker)
    (e : Entitlements) (R : Requirements) :
  (VerifyEntitlements ec e R = Panicked
   ↔ e = None ∧ anonymousEntitlements ec ≠ [] ∧ R ≠ [])
  ∧ (VerifyEntitlements ec e R ≠ Panicked
     → ∃ b, VerifyEntitlements ec e R = Returned b).
Proof.
  split; [apply VerifyEntitlements_panics|].
  intros H. destruct (VerifyEntitlements ec e R) as [b|]; [by exists b|done].
Qed.

Lemma X8_VerifyEntitlements_panics_iff_witness :
  VerifyEntitlements (NewEntitlementsChecker ["pages:read"] "" false) None
    [Some ∅] = Panicked.
Proof.
  apply (proj1 (X8_VerifyEntitlements_panics_iff
                  (NewEntitlementsChecker ["pages:read"] "" false) None
                  [Some ∅])).
  split; [reflexivity|]. split; discriminate.
Defined.

(** X9 (when VerifyResourceEntitlements panics).
    [VerifyResourceEntitlements] panics exactly when some entry of the
    requirements is a nil map, or the entitlements are the nil map and
    either read is granted by default or anonymous entitlements are
    configured; an empty requirements list does not protect from the
    latter. *)
Theorem X9_VerifyResourceEntitlements_panics_iff (ec : EntitlementsChecker)
    (resource resourceName : string) (e : Entitlements) (R : Requirements) :
  VerifyResourceEntitlements ec resource resourceName e R = Panicked
  ↔ None ∈ R
    ∨ (e = None
       ∧ (grantReadyByDefault ec = true ∨ anonymousEntitlements ec ≠ [])).
Proof. apply VerifyResourceEntitlements_panics. Qed.

Lemma X9_VerifyResourceEntitlements_panics_iff_witness :
  VerifyResourceEntitlements (NewEntitlementsChecker ["pages:read"] "" false)
    "pages" "foo" None [] = Panicked.
Proof.
  apply X9_VerifyResourceEntitlements_panics_iff.
  right. split; [reflexivity|]. right. discriminate.
Defined.

(** X10 (nothing held).  Without anonymous entitlements, a caller whose
    entitlements are the nil map or a map without keys is granted access by
    [VerifyEntitlements] exactly when the requirements list is empty or has
    an entry without scheme keys. *)
Theorem X10_nothing_held (ec : EntitlementsChecker)
    (e : Entitlements) (R : Requirements) :
  anonymousEntitlements ec = [] →
  e = None ∨ e = Some ∅ →
  VerifyEntitlements ec e R = Returned true
  ↔ R = [] ∨ Some ∅ ∈ R ∨ None ∈ R.
Proof.
  intros Hanon He.
  rewrite (VerifyEntitlements_true_working ec e e R)
    by (by apply withAnonymous_none).
  assert (∀ k, map_get e k = None) as Hnone.
  { intros k. destruct He as [->| ->]; [done|]. simpl. apply lookup_empty. }
  assert (∀ entry, entry_satisfied e entry ↔ entry = Some ∅ ∨ entry = None)
    as Hentry.
  { intros entry. split.
    - intros H. destruct entry as [m|]; [left|by right]. f_equal.
      apply map_empty. intros k. destruct (m !! k) as [l|] eqn:Hk; [|done].
      destruct (H k l Hk) as (heldList & Hheld & _).
      by rewrite Hnone in Hheld.
    - intros [-> | ->] scheme required Hs; simpl in Hs; [|done].
      by rewrite lookup_empty in Hs. }
  split.
  - intros [->|(entry & Hin & Hs)]; [by left|right].
    apply Hentry in Hs as [-> | ->]; [by left|by right].
  - intros [->|[Hin|Hin]]; [by left| |]; right; eexists;
      (split; [exact Hin|]); apply Hentry; [by left|by right].
Qed.

Lemma X10_nothing_held_witness :
  VerifyEntitlements (NewEntitlementsChecker [] "" false) None
    [Some {[ "bearer" := [] ]}; Some ∅] = Returned true
  ↔ [Some {[ "bearer" := [] ]}; Some ∅] = ([] : Requirements)
    ∨ Some ∅ ∈ ([Some {[ "bearer" := [] ]}; Some ∅] : Requirements)
    ∨ None ∈ ([Some {[ "bearer" := [] ]}; Some ∅] : Requirements).
Proof.
  apply X10_nothing_held; [reflexivity|by left].
Defined.

(** X11 (the resource check is the stricter one).  When read is not granted
    by default, a caller that passes [VerifyResourceEntitlements] for a
    resource instance passes [VerifyEntitlements] on the same entitlements
    and requirements: the identity requirement only adds to what is
    asked. *)
Theorem X11_resource_check_is_stricter (ec : EntitlementsChecker)
    (resource resourceName : string) (e : Entitlements) (R : Requirements) :
  grantReadyByDefault ec = false →
  VerifyResourceEntitlements ec resource resourceName e R = Returned true →
  VerifyEntitlements ec e R = Returned true.
Proof.
  intros G H.
  destruct (VerifyResourceEntitlements_returns _ _ _ _ _ _ H)
    as (HR & He & w & Hw).
  rewrite VerifyResourceEntitlements_unfold in H by done.
  rewrite spec_entitlements_false in H, Hw by done.
  rewrite (VerifyEntitlements_true_working ec e w) in H by done.
  rewrite (VerifyEntitlements_true_working ec e w) by done.
  destruct H as [H|(entry & Hin & Hs)].
  { by apply spec_requirements_nonempty in H. }
  apply spec_requirements_entry in Hin as (entry0 & -> & [->|Hin]);
    [by left|right].
  exists entry0. split; [done|].
  by eapply entry_satisfied_append_under.
Qed.

Lemma X11_resource_check_is_stricter_witness :
  VerifyEntitlements (NewEntitlementsChecker ["pages:read"] "" false)
    (Some {[ "bearer" := ["pages:write"] ]})
    [Some {[ "bearer" := ["pages:write"] ]}] = Returned true.
Proof.
  apply (X11_resource_check_is_stricter
           (NewEntitlementsChecker ["pages:read"] "" false) "pages" "foo");
    reflexivity.
Defined.

(** X12 (the identity is always asked for).  When read is not granted by
    default, [VerifyResourceEntitlements] grants access only to a caller
    for whom some string held under the default scheme, or some anonymous
    entitlement, matches the identity "resource:resourceName:read",
    whatever the requirements say; with an empty requirements list, and
    entitlements on which the call does not panic, this is also all that is
    asked. *)
Theorem X12_identity_always_required (ec : EntitlementsChecker)
    (resource resourceName : string) (e : Entitlements) :
  grantReadyByDefault ec = false →
  (∀ R, VerifyResourceEntitlements ec resource resourceName e R
        = Returned true →
        ∃ h, (h ∈ map_index e (defaultScheme ec)
              ∨ h ∈ anonymousEntitlements ec)
             ∧ entitlementMatches h (identity_of resource resourceName) = true)
  ∧ ((e = None → anonymousEntitlements ec = []) →
     (∃ h, (h ∈ map_index e (defaultScheme ec)
            ∨ h ∈ anonymousEntitlements ec)
           ∧ entitlementMatches h (identity_of resource resourceName) = true) →
     VerifyResourceEntitlements ec resource resourceName e [] = Returned true).
Proof.
  intros G. split.
  - intros R H.
    destruct (VerifyResourceEntitlements_returns _ _ _ _ _ _ H)
      as (HR & He & w & Hw).
    rewrite VerifyResourceEntitlements_unfold in H by done.
    rewrite spec_entitlements_false in H, Hw by done.
    rewrite (VerifyEntitlements_true_working ec e w) in H by done.
    destruct H as [H|(entry & Hin & Hs)].
    { by apply spec_requirements_nonempty in H. }
    apply spec_requirements_identity in Hin as (required & Hreq & Hid).
    destruct (Hs _ _ Hreq) as (heldList & Hheld & Hall).
    destruct (Hall _ Hid) as (h & Hh & Hmatch).
    exists h. split; [|done].
    destruct e as [m|].
    + rewrite withAnonymous_working in Hw. injection Hw as <-.
      simpl in Hheld. unfold map_index. simpl.
      apply working_default. by rewrite Hheld.
    + destruct (decide (anonymousEntitlements ec = [])) as [E|E].
      * rewrite withAnonymous_none in Hw by done. by injection Hw as <-.
      * by rewrite withAnonymous_nil in Hw.
  - intros Hnil (h & Hh & Hmatch).
    rewrite VerifyResourceEntitlements_unfold;
      [|intros H; by apply elem_of_nil in H|done].
    rewrite spec_entitlements_false by done.
    destruct e as [m|].
    + apply VerifyEntitlements_true. right.
      eexists. split; [by left|].
      intros scheme required Hs. simpl in Hs.
      apply lookup_singleton_Some in Hs as [<- <-].
      unfold map_index in Hh. simpl in Hh.
      apply working_default in Hh.
      destruct (working ec m !! defaultScheme ec) as [l|] eqn:Hl;
        [|by apply elem_of_nil in Hh].
      exists l. split; [done|]. intros r ->%list_elem_of_singleton. eauto.
    + rewrite Hnil in Hh by done.
      destruct Hh as [Hh|Hh]; by apply elem_of_nil in Hh.
Qed.

Lemma X12_identity_always_required_witness :
  (∃ h, (h ∈ map_index (Some {[ "bearer" := ["pages:write"] ]})
               (defaultScheme (NewEntitlementsChecker ["pages:read"] "" false))
         ∨ h ∈ anonymousEntitlements
                 (NewEntitlementsChecker ["pages:read"] "" false))
        ∧ entitlementMatches h (identity_of "pages" "foo") = true)
  ∧ VerifyResourceEntitlements (NewEntitlementsChecker [] "" false)
      "pages" "foo" (Some {[ "bearer" := ["pages:all"] ]}) [] = Returned true.
Proof.
  split.
  - apply (proj1 (X12_identity_always_required
                    (NewEntitlementsChecker ["pages:read"] "" false)
                    "pages" "foo" (Some {[ "bearer" := ["pages:write"] ]})
                    eq_refl)
             [Some {[ "bearer" := ["pages:write"] ]}]).
    reflexivity.
  - apply (proj2 (X12_identity_always_required
                    (NewEntitlementsChecker [] "" false)
                    "pages" "foo" (Some {[ "bearer" := ["pages:all"] ]})
                    eq_refl)); [discriminate|].
    exists "pages:all". split; [|reflexivity].
    left. unfold map_index. simpl. rewrite lookup_singleton_eq. by left.
Defined.

(** X13 (read granted by default).  When read is granted by default, the
    identity added to the caller's entitlements answers the identity added
    to the requirements: on requirements without nil entries, a caller
    whose mapping is not nil and that passes [VerifyEntitlements] passes
    [VerifyResourceEntitlements] for every resource instance; with an empty
    requirements list every such caller passes. *)
Theorem X13_granted_by_default (ec : EntitlementsChecker)
    (resource resourceName : string) (m : gmap string (list string))
    (R : Requirements) :
  grantReadyByDefault ec = true →
  None ∉ R →
  VerifyEntitlements ec (Some m) R = Returned true →
  VerifyResourceEntitlements ec resource resourceName (Some m) R
  = Returned true.
Proof.
  intros G HR H.
  rewrite VerifyResourceEntitlements_unfold by done.
  rewrite spec_entitlements_true by done. simpl.
  set (identity := identity_of resource resourceName).
  set (m' := append_under (defaultScheme ec) identity m).
  apply VerifyEntitlements_true in H.
  assert (R = [] ∨ ∃ entry0, entry0 ∈ R
                             ∧ entry_satisfied (Some (working ec m)) entry0)
    as Hcases by done.
  assert (∃ entry0, (R = [] ∨ entry0 ∈ R)
                    ∧ (R = [] ∨ entry_satisfied (Some (working ec m)) entry0))
    as (entry0 & Hin & Hs).
  { destruct Hcases as [->|(entry0 & Hin & Hs)].
    - exists None. split; by left.
    - exists entry0. split; by right. }
  destruct (spec_requirements_elem ec resource resourceName R entry0 Hin)
    as (entry & Hentry & Hsat).
  apply VerifyEntitlements_true. right. exists entry. split; [done|].
  apply (Hsat (working ec m) (working ec m')); [| |done].
  - apply working_covers; [done|done|]. apply covers_append_under.
  - assert (identity ∈ default [] (working ec m' !! defaultScheme ec)) as Hid.
    { apply working_default. left. unfold m', append_under.
      rewrite lookup_insert_eq. simpl. apply elem_of_app. right. by left. }
    destruct (working ec m' !! defaultScheme ec) as [l'|];
      [|by apply elem_of_nil in Hid].
    by exists l'.
Qed.

Lemma X13_granted_by_default_witness :
  VerifyResourceEntitlements (NewEntitlementsChecker [] "" true)
    "pages" "foo" (Some ∅) [] = Returned true.
Proof.
  apply X13_granted_by_default; [reflexivity| |reflexivity].
  intros H. by apply elem_of_nil in H.
Defined.

(** X14 (the three spellings of a wildcard).  For a resource type r and a
    verb v without colons, the short form r:v, the medium form r::v and the
    explicit form r:*:v are interchangeable, as the comment heading the
    source says: as held strings they match the same required strings, and
    as required strings they are matched by the same held strings. *)
Theorem X14_wildcard_spellings (r v : string) :
  colon_free r = true → colon_free v = true →
  ∀ s,
    entitlementMatches (r ++ ":" ++ v) s = entitlementMatches (r ++ "::" ++ v) s
    ∧ entitlementMatches (r ++ "::" ++ v) s
      = entitlementMatches (r ++ ":*:" ++ v) s
    ∧ entitlementMatches s (r ++ ":" ++ v)
      = entitlementMatches s (r ++ "::" ++ v)
    ∧ entitlementMatches s (r ++ "::" ++ v)
      = entitlementMatches s (r ++ ":*:" ++ v).
Proof.
  intros Hr Hv s.
  assert (short_syntax (Split (r ++ ":" ++ v)) = [r; ""; v]) as Eshort.
  { by rewrite Split_short. }
  assert (short_syntax (Split (r ++ "::" ++ v)) = [r; ""; v]) as Emedium.
  { by rewrite (Split_long r "" v Hr eq_refl Hv
                  : Split (r ++ "::" ++ v) = _). }
  assert (short_syntax (Split (r ++ ":*:" ++ v)) = [r; "*"; v]) as Elong.
  { by rewrite (Split_long r "*" v Hr eq_refl Hv
                  : Split (r ++ ":*:" ++ v) = _). }
  split; [|split; [|split]].
  - by apply (held_wildcards_agree _ _ r "" "" v).
  - by apply (held_wildcards_agree _ _ r "" "*" v).
  - by apply (required_wildcards_agree _ _ r "" "" v).
  - by apply (required_wildcards_agree _ _ r "" "*" v).
Qed.

Lemma X14_wildcard_spellings_witness :
  entitlementMatches ("pages" ++ ":" ++ "read") "pages:/foo:read"
  = entitlementMatches ("pages" ++ "::" ++ "read") "pages:/foo:read"
  ∧ entitlementMatches "pages:/foo:all" ("pages" ++ "::" ++ "read")
    = entitlementMatches "pages:/foo:all" ("pages" ++ ":*:" ++ "read").
Proof.
  destruct (X14_wildcard_spellings "pages" "read" eq_refl eq_refl
              "pages:/foo:read") as (H1 & _).
  destruct (X14_wildcard_spellings "pages" "read" eq_refl eq_refl
              "pages:/foo:all") as (_ & _ & _ & H4).
  by split.
Defined.

(** X15 (what a match needs).  A held string matches a required string
    exactly when the two are equal, or both split at their colons into two
    or three fields, the resource types are equal, the held verb is "all" or
    equal to the required one, and one of the two names is empty or "*" or
    the names are equal.  So two different strings of different resource
    types never match. *)
Theorem X15_match_characterised (held required : string) :
  (entitlementMatches held required = true
   ↔ held = required
     ∨ ∃ res n v n' v',
         short_syntax (Split held) = [res; n; v]
         ∧ short_syntax (Split required) = [res; n'; v']
         ∧ (v = "all" ∨ v = v')
         ∧ (n = "" ∨ n = "*" ∨ n' = "" ∨ n' = "*" ∨ n = n'))
  ∧ (held ≠ required →
     head (Split held) ≠ head (Split required) →
     entitlementMatches held required = false).
Proof.
  split; [apply entitlementMatches_inv|].
  intros Hne Hhead.
  destruct (entitlementMatches held required) eqn:H; [|done].
  apply entitlementMatches_inv in H
    as [?|(res & n & v & n' & v' & Eh & Er & _)]; [done|].
  exfalso. apply Hhead.
  assert (∀ s a b c, short_syntax (Split s) = [a; b; c] →
                     head (Split s) = Some a) as Hfirst.
  { intros s a b c E.
    destruct (Split s) as [|p0 [|p1 [|p2 [|]]]]; simpl in E; try done;
      by injection E as -> _ _. }
  by rewrite (Hfirst _ _ _ _ Eh), (Hfirst _ _ _ _ Er).
Qed.

Lemma X15_match_characterised_witness :
  entitlementMatches "pages:all" "books:/foo:read" = false.
Proof.
  apply (proj2 (X15_match_characterised "pages:all" "books:/foo:read"));
    [discriminate|]. vm_compute. discriminate.
Defined.

(** X16 (when a match can be turned round).  Matching is not symmetric, but
    only the verb "all" makes it so: if a held string matches a required
    string, then the required string, taken as held, matches the first one,
    unless the canonical verb of the first is "all" and differs from the
    verb of the second. *)
Theorem X16_match_symmetric_up_to_all (held required : string) :
  entitlementMatches held required = true →
  entitlementMatches required held = true
  ∨ ∃ res n n' v',
      short_syntax (Split held) = [res; n; "all"]
      ∧ short_syntax (Split required) = [res; n'; v']
      ∧ v' ≠ "all".
Proof.
  intros H.
  apply entitlementMatches_inv in H
    as [->|(res & n & v & n' & v' & Eh & Er & Hv & Hn)].
  - left. apply entitlementMatches_refl.
  - destruct (decide (v = v')) as [<-|Hne].
    + left. apply entitlementMatches_inv. right.
      exists res, n', v, n, v. split; [done|]. split; [done|].
      split; [by right|]. destruct Hn as [?|[?|[?|[?|?]]]]; subst; tauto.
    + right. destruct Hv as [->|?]; [|done].
      exists res, n, n', v'. split; [done|]. split; [done|].
      intros ->. done.
Qed.

Lemma X16_match_symmetric_up_to_all_witness :
  entitlementMatches "pages:/foo:read" "pages::read" = true
  ∨ ∃ res n n' v',
      short_syntax (Split "pages::read") = [res; n; "all"]
      ∧ short_syntax (Split "pages:/foo:read") = [res; n'; v']
      ∧ v' ≠ "all".
Proof.
  apply (X16_match_symmetric_up_to_all "pages::read" "pages:/foo:read").
  reflexivity.
Defined.

(** X17 (a colon in a resource name).  When the resource type or the
    resource name handed to [VerifyResourceEntitlements] contains a colon,
    the identity "resource:resourceName:read" splits into more than three
    fields, so it is matched by the identical string only: no wildcard and
    no "all" entitlement opens such an instance.  With an empty requirements
    list, read not granted by default and entitlements on which the call
    does not panic (a map that is not nil, or no anonymous entitlement
    configured), access is granted exactly when the identity itself is held
    under the default scheme or is an anonymous entitlement. *)
Theorem X17_colon_in_resource_name (ec : EntitlementsChecker)
    (resource resourceName : string) :
  colon_free resource = false ∨ colon_free resourceName = false →
  (∀ h, entitlementMatches h (identity_of resource resourceName) = true
        ↔ h = identity_of resource resourceName)
  ∧ (grantReadyByDefault ec = false →
     ∀ e : Entitlements,
       (e = None → anonymousEntitlements ec = []) →
       VerifyResourceEntitlements ec resource resourceName e []
       = Returned true
       ↔ identity_of resource resourceName ∈ map_index e (defaultScheme ec)
         ∨ identity_of resource resourceName ∈ anonymousEntitlements ec).
Proof.
  intros Hcolon.
  assert (structured (identity_of resource resourceName) = false) as Hs.
  { destruct (structured _) eqn:E; [|done].
    apply structured_colons in E. rewrite colons_identity in E.
    assert (colons resource ≠ 0 ∨ colons resourceName ≠ 0) as Hc.
    { destruct Hcolon as [H|H]; [left|right]; intros E0;
        apply colon_free_colons in E0; congruence. }
    lia. }
  assert (∀ h, entitlementMatches h (identity_of resource resourceName) = true
               ↔ h = identity_of resource resourceName) as Hexact.
  { intros h. rewrite entitlementMatches_unstructured by (by right).
    apply eqb_true. }
  split; [done|]. intros G e Hnil.
  rewrite VerifyResourceEntitlements_unfold;
    [|intros H; by apply elem_of_nil in H|done].
  rewrite spec_entitlements_false by done.
  rewrite VerifyEntitlements_true_any by done. simpl.
  assert (identity_of resource resourceName ∈ map_index e (defaultScheme ec)
          ∨ identity_of resource resourceName ∈ anonymousEntitlements ec
          ↔ identity_of resource resourceName
              ∈ default [] (working ec (mapping_of e) !! defaultScheme ec))
    as ->.
  { rewrite working_default. unfold map_index.
    destruct e as [m|]; simpl; [done|]. by rewrite lookup_empty. }
  split.
  - intros [?|(entry & ->%list_elem_of_singleton & Hsat)]; [done|].
    destruct (Hsat (defaultScheme ec) [identity_of resource resourceName])
      as (heldList & Hheld & Hall).
    { simpl. by rewrite lookup_singleton_eq. }
    destruct (Hall _ (list_elem_of_here _ _)) as (h & Hh & Hm).
    apply Hexact in Hm as ->. simpl in Hheld. by rewrite Hheld.
  - intros Hid. right. eexists. split; [by left|].
    intros scheme required Hreq. simpl in Hreq.
    apply lookup_singleton_Some in Hreq as [<- <-].
    destruct (working ec (mapping_of e) !! defaultScheme ec) as [l|] eqn:Hl;
      [|by apply elem_of_nil in Hid].
    exists l. split; [done|]. intros r ->%list_elem_of_singleton.
    exists (identity_of resource resourceName).
    split; [done|]. apply entitlementMatches_refl.
Qed.

Lemma X17_colon_in_resource_name_witness :
  (entitlementMatches "pages:all" (identity_of "pages" "urn:x") = true
   ↔ "pages:all" = identity_of "pages" "urn:x")
  ∧ (VerifyResourceEntitlements (NewEntitlementsChecker [] "" false)
       "pages" "urn:x" (Some {[ "bearer" := ["pages:all"] ]}) []
     = Returned true
     ↔ identity_of "pages" "urn:x"
         ∈ map_index (Some {[ "bearer" := ["pages:all"] ]})
             (defaultScheme (NewEntitlementsChecker [] "" false))
       ∨ identity_of "pages" "urn:x"
           ∈ anonymousEntitlements (NewEntitlementsChecker [] "" false)).
Proof.
  destruct (X17_colon_in_resource_name (NewEntitlementsChecker [] "" false)
              "pages" "urn:x") as (H1 & H2); [by right|].
  split; [apply H1|]. apply H2; [reflexivity|discriminate].
Defined.

(** X18 (deepCloneRequirements).  On a requirements list the store shows,
    [deepCloneRequirements] returns a slice that shows the same list, nil
    entries included, has the length of its argument and no spare capacity,
    and is nil when its argument is; the backing array of the result, the
    map objects in it and the backing arrays of their lists were all
    allocated by the call, and everything allocated before is as it was. *)
Theorem X18_deepCloneRequirements_fresh_copy
    (σ : Mem.store) (r : Mem.slice) (R : Requirements) :
  Frame.requirements_at σ r R →
  ∃ r' σ',
    Mem.deepCloneRequirements r σ = (Returned r', σ')
    ∧ Frame.unchanged σ σ'
    ∧ Frame.requirements_at σ' r' R
    ∧ Mem.len r' = Mem.len r
    ∧ Mem.cap r' = Mem.len r'
    ∧ (Mem.base r = None → r' = Mem.nil_slice)
    ∧ StoreLaws.fresh_row σ σ' r'.
Proof.
  intros HR.
  destruct (Refine.deepCloneRequirements_spec σ r R HR)
    as (r' & σ' & Hrun & _ & _ & _ & Hclone).
  exists r', σ'. split; [done|].
  pose proof (Frame.triple_deepCloneRequirements σ r σ (Frame.inv_initial σ))
    as [Hinv Hown].
  pose proof (Frame.triple_unchanged σ (Mem.deepCloneRequirements r)
                (Frame.triple_any σ _ _
                   (Frame.triple_deepCloneRequirements σ r))) as Hunch.
  rewrite Hrun in Hinv, Hown, Hunch. simpl in Hinv, Hown, Hunch.
  split; [done|].
  split; [by eapply StoreLaws.row_clone_requirements_at|].
  destruct Hclone as (Hlen & Hcap & _).
  split; [by rewrite Hlen, (Refine.requirements_at_length σ r R)|].
  split; [done|]. split.
  - intros Hnil. unfold Mem.deepCloneRequirements, Mem.is_nil in Hrun.
    rewrite Hnil in Hrun. by injection Hrun as <- _.
  - apply StoreLaws.inv_fresh_row; [done|]. by apply Hown.
Qed.

Lemma X18_deepCloneRequirements_fresh_copy_witness :
  ∃ r' σ',
    Mem.deepCloneRequirements (Mem.Slice (Some 0) 0 2 2)
      (Mem.Store {[ 0 := ["pages:write"] ]}
         {[ 0 := {[ "bearer" := Mem.Slice (Some 0) 0 1 1 ]} ]}
         {[ 0 := [Some 0; None] ]})
    = (Returned r', σ')
    ∧ Frame.requirements_at σ' r'
        [Some {[ "bearer" := ["pages:write"] ]}; None].
Proof.
  assert (Frame.requirements_at
            (Mem.Store {[ 0 := ["pages:write"] ]}
               {[ 0 := {[ "bearer" := Mem.Slice (Some 0) 0 1 1 ]} ]}
               {[ 0 := [Some 0; None] ]})
            (Mem.Slice (Some 0) 0 2 2)
            [Some {[ "bearer" := ["pages:write"] ]}; None]) as Hreq.
  { exists [Some 0; None]. split.
    - exists [Some 0; None]. split; [reflexivity|].
      split; [simpl; lia|reflexivity].
    - constructor; [|constructor; [exact I|constructor]].
      exists {[ "bearer" := Mem.Slice (Some 0) 0 1 1 ]}.
      split; [reflexivity|]. intros k.
      destruct (decide (k = "bearer")) as [->|Hne].
      + rewrite !lookup_singleton_eq. constructor.
        exists ["pages:write"]. split; [reflexivity|].
        split; [simpl; lia|reflexivity].
      + rewrite !lookup_singleton_ne by done. constructor. }
  destruct (X18_deepCloneRequirements_fresh_copy _ _ _ Hreq)
    as (r' & σ' & Hrun & _ & Hat & _).
  exists r', σ'. split; [exact Hrun|exact Hat].
Defined.

(** X19 (deepCloneEntitlements).  On an entitlements map the store shows,
    [deepCloneEntitlements] returns nil for nil, and otherwise a map object
    allocated by the call that shows the same mapping through lists without
    spare capacity whose backing arrays were allocated by the call;
    everything allocated before is as it was. *)
Theorem X19_deepCloneEntitlements_fresh_copy
    (σ : Mem.store) (e : option Mem.loc) (E : Entitlements) :
  Frame.map_at σ e E →
  ∃ e' σ',
    Mem.deepCloneEntitlements e σ = (Returned e', σ')
    ∧ Frame.unchanged σ σ'
    ∧ Frame.map_at σ' e' E
    ∧ (e = None → e' = None ∧ σ' = σ)
    ∧ ∀ c, e' = Some c →
        StoreLaws.fresh_map σ σ' c
        ∧ ∀ obj k s, Mem.maps σ' !! c = Some obj → obj !! k = Some s →
                     Mem.cap s = Mem.len s.
Proof.
  intros HE.
  pose proof (Frame.triple_deepCloneEntitlements σ e σ (Frame.inv_initial σ))
    as [Hinv Hown].
  pose proof (Frame.triple_unchanged σ (Mem.deepCloneEntitlements e)
                (Frame.triple_any σ _ _
                   (Frame.triple_deepCloneEntitlements σ e))) as Hunch.
  destruct e as [a|], E as [E|]; try done.
  - destruct (Refine.deepCloneEntitlements_spec σ a E HE)
      as (c & σ' & obj' & Hrun & Hfresh & Hmaps & _ & _ & Hat & Htight).
    rewrite Hrun in Hinv, Hown, Hunch. simpl in Hinv, Hown, Hunch.
    assert (Mem.maps σ' !! c = Some obj') as Hc.
    { rewrite Hmaps. apply lookup_insert_eq. }
    exists (Some c), σ'. split; [done|]. split; [done|].
    split; [by eapply Refine.obj_at_map_at|]. split; [done|].
    intros c' [= <-]. split.
    + by apply StoreLaws.inv_fresh_map.
    + intros obj k s Hobj Hs. rewrite Hc in Hobj. injection Hobj as <-.
      by eapply Htight.
  - exists None, σ. split; [done|]. split; [done|]. split; [done|].
    split; [done|]. intros c. discriminate.
Qed.

Lemma X19_deepCloneEntitlements_fresh_copy_witness :
  ∃ e' σ',
    Mem.deepCloneEntitlements (Some 0)
      (Mem.Store {[ 0 := ["a"; "b"; "c"] ]}
         {[ 0 := {[ "bearer" := Mem.Slice (Some 0) 1 1 2 ]} ]} ∅)
    = (Returned e', σ')
    ∧ Frame.map_at σ' e' (Some {[ "bearer" := ["b"] ]}).
Proof.
  assert (Frame.map_at
            (Mem.Store {[ 0 := ["a"; "b"; "c"] ]}
               {[ 0 := {[ "bearer" := Mem.Slice (Some 0) 1 1 2 ]} ]} ∅)
            (Some 0) (Some {[ "bearer" := ["b"] ]})) as Hmap.
  { exists {[ "bearer" := Mem.Slice (Some 0) 1 1 2 ]}.
    split; [reflexivity|]. intros k.
    destruct (decide (k = "bearer")) as [->|Hne].
    - rewrite !lookup_singleton_eq. constructor.
      exists ["a"; "b"; "c"]. split; [reflexivity|].
      split; [simpl; lia|reflexivity].
    - rewrite !lookup_singleton_ne by done. constructor. }
  destruct (X19_deepCloneEntitlements_fresh_copy _ _ _ Hmap)
    as (e' & σ' & Hrun & _ & Hat & _).
  exists e', σ'. split; [exact Hrun|exact Hat].
Defined.

(** X20 (VerifyEntitlements over the store).  Run on a store, with slices
    as windows on shared backing arrays and maps as references,
    [VerifyEntitlements] returns or panics exactly as it does on the values
    its arguments show.  The outcome does not depend on where the caller's
    data lies, on offsets, spare capacity or sharing between its slices, or
    on the capacity the runtime picks when [append] reallocates. *)
Theorem X20_VerifyEntitlements_layout_independent
    (growslice growslice' : nat → nat → nat) (ec : EntitlementsChecker)
    (σ σ' : Mem.store) (e e' : option Mem.loc) (r r' : Mem.slice)
    (E : Entitlements) (R : Requirements) :
  Frame.map_at σ e E → Frame.requirements_at σ r R →
  Frame.map_at σ' e' E → Frame.requirements_at σ' r' R →
  (Mem.VerifyEntitlements growslice ec e r σ).1 = VerifyEntitlements ec E R
  ∧ (Mem.VerifyEntitlements growslice' ec e' r' σ').1
    = (Mem.VerifyEntitlements growslice ec e r σ).1.
Proof.
  intros HE HR HE' HR'.
  rewrite (Refine.VerifyEntitlements_refines growslice ec σ e r E R HE HR).
  by rewrite (Refine.VerifyEntitlements_refines growslice' ec σ' e' r' E R).
Qed.

Lemma X20_VerifyEntitlements_layout_independent_witness :
  (Mem.VerifyEntitlements (fun _ n => n)
     (NewEntitlementsChecker ["pages:read"] "" false)
     (Some 3) (Mem.Slice (Some 2) 1 1 1)
     (Mem.Store {[ 5 := ["x"; "pages:write"; "y"] ]}
        {[ 3 := {[ "bearer" := Mem.Slice (Some 5) 1 1 2 ]} ]}
        {[ 2 := [None; Some 3] ]})).1
  = (Mem.VerifyEntitlements Mem.double
       (NewEntitlementsChecker ["pages:read"] "" false)
       (Some 0) (Mem.Slice (Some 0) 0 1 1)
       (Mem.Store {[ 0 := ["pages:write"] ]}
          {[ 0 := {[ "bearer" := Mem.Slice (Some 0) 0 1 1 ]} ]}
          {[ 0 := [Some 0] ]})).1.
Proof.
  assert (∀ (σ : Mem.store) (a : Mem.loc) (s : Mem.slice),
            Mem.maps σ !! a = Some {[ "bearer" := s ]} →
            Frame.list_at σ s ["pages:write"] →
            Frame.map_at σ (Some a) (Some {[ "bearer" := ["pages:write"] ]}))
    as Hmap.
  { intros σ a s Ha Hs. exists {[ "bearer" := s ]}. split; [done|].
    intros k. destruct (decide (k = "bearer")) as [->|Hne].
    - rewrite !lookup_singleton_eq. by constructor.
    - rewrite !lookup_singleton_ne by done. constructor. }
  assert (Frame.map_at
            (Mem.Store {[ 0 := ["pages:write"] ]}
               {[ 0 := {[ "bearer" := Mem.Slice (Some 0) 0 1 1 ]} ]}
               {[ 0 := [Some 0] ]})
            (Some 0) (Some {[ "bearer" := ["pages:write"] ]})) as H1.
  { apply (Hmap _ _ (Mem.Slice (Some 0) 0 1 1)); [reflexivity|].
    exists ["pages:write"]. split; [reflexivity|].
    split; [simpl; lia|reflexivity]. }
  assert (Frame.requirements_at
            (Mem.Store {[ 0 := ["pages:write"] ]}
               {[ 0 := {[ "bearer" := Mem.Slice (Some 0) 0 1 1 ]} ]}
               {[ 0 := [Some 0] ]})
            (Mem.Slice (Some 0) 0 1 1)
            [Some {[ "bearer" := ["pages:write"] ]}]) as H2.
  { exists [Some 0]. split.
    - exists [Some 0]. split; [reflexivity|]. split; [simpl; lia|reflexivity].
    - constructor; [exact H1|constructor]. }
  assert (Frame.map_at
            (Mem.Store {[ 5 := ["x"; "pages:write"; "y"] ]}
               {[ 3 := {[ "bearer" := Mem.Slice (Some 5) 1 1 2 ]} ]}
               {[ 2 := [None; Some 3] ]})
            (Some 3) (Some {[ "bearer" := ["pages:write"] ]})) as H3.
  { apply (Hmap _ _ (Mem.Slice (Some 5) 1 1 2)); [reflexivity|].
    exists ["x"; "pages:write"; "y"]. split; [reflexivity|].
    split; [simpl; lia|reflexivity]. }
  assert (Frame.requirements_at
            (Mem.Store {[ 5 := ["x"; "pages:write"; "y"] ]}
               {[ 3 := {[ "bearer" := Mem.Slice (Some 5) 1 1 2 ]} ]}
               {[ 2 := [None; Some 3] ]})
            (Mem.Slice (Some 2) 1 1 1)
            [Some {[ "bearer" := ["pages:write"] ]}]) as H4.
  { exists [Some 3]. split.
    - exists [None; Some 3]. split; [reflexivity|].
      split; [simpl; lia|reflexivity].
    - constructor; [exact H3|constructor]. }
  exact (proj2 (X20_VerifyEntitlements_layout_independent
                  Mem.double (fun _ n => n)
                  (NewEntitlementsChecker ["pages:read"] "" false)
                  _ _ _ _ _ _ _ _ H1 H2 H3 H4)).
Defined.

(** X21 (VerifyResourceEntitlements over the store).  Run on a store,
    [VerifyResourceEntitlements] returns or panics exactly as it does on
    the values its arguments show: the identity appended to the cloned
    lists never lands in an array another list reads, whatever the layout
    of the caller's data and the growth policy of [append]. *)
Theorem X21_VerifyResourceEntitlements_layout_independent
    (growslice growslice' : nat → nat → nat) (ec : EntitlementsChecker)
    (resource resourceName : string)
    (σ σ' : Mem.store) (e e' : option Mem.loc) (r r' : Mem.slice)
    (E : Entitlements) (R : Requirements) :
  Frame.map_at σ e E → Frame.requirements_at σ r R →
  Frame.map_at σ' e' E → Frame.requirements_at σ' r' R →
  (Mem.VerifyResourceEntitlements growslice ec resource resourceName e r σ).1
  = VerifyResourceEntitlements ec resource resourceName E R
  ∧ (Mem.VerifyResourceEntitlements growslice' ec resource resourceName
       e' r' σ').1
    = (Mem.VerifyResourceEntitlements growslice ec resource resourceName
         e r σ).1.
Proof.
  intros HE HR HE' HR'.
  rewrite (Refine.VerifyResourceEntitlements_refines growslice ec
             resource resourceName σ e r E R HE HR).
  by rewrite (Refine.VerifyResourceEntitlements_refines growslice' ec
                resource resourceName σ' e' r' E R).
Qed.

Lemma X21_VerifyResourceEntitlements_layout_independent_witness :
  (Mem.VerifyResourceEntitlements Mem.double
     (NewEntitlementsChecker [] "" true) "pages" "foo"
     (Some 0) (Mem.Slice (Some 0) 0 1 1)
     (Mem.Store {[ 0 := ["pages:write"; "spare"] ]}
        {[ 0 := {[ "bearer" := Mem.Slice (Some 0) 0 1 2 ]} ]}
        {[ 0 := [Some 0] ]})).1
  = VerifyResourceEntitlements (NewEntitlementsChecker [] "" true)
      "pages" "foo" (Some {[ "bearer" := ["pages:write"] ]})
      [Some {[ "bearer" := ["pages:write"] ]}].
Proof.
  assert (Frame.map_at
            (Mem.Store {[ 0 := ["pages:write"; "spare"] ]}
               {[ 0 := {[ "bearer" := Mem.Slice (Some 0) 0 1 2 ]} ]}
               {[ 0 := [Some 0] ]})
            (Some 0) (Some {[ "bearer" := ["pages:write"] ]})) as Hmap.
  { exists {[ "bearer" := Mem.Slice (Some 0) 0 1 2 ]}. split; [reflexivity|].
    intros k. destruct (decide (k = "bearer")) as [->|Hne].
    - rewrite !lookup_singleton_eq. constructor.
      exists ["pages:write"; "spare"]. split; [reflexivity|].
      split; [simpl; lia|reflexivity].
    - rewrite !lookup_singleton_ne by done. constructor. }
  assert (Frame.requirements_at
            (Mem.Store {[ 0 := ["pages:write"; "spare"] ]}
               {[ 0 := {[ "bearer" := Mem.Slice (Some 0) 0 1 2 ]} ]}
               {[ 0 := [Some 0] ]})
            (Mem.Slice (Some 0) 0 1 1)
            [Some {[ "bearer" := ["pages:write"] ]}]) as Hreq.
  { exists [Some 0]. split.
    - exists [Some 0]. split; [reflexivity|]. split; [simpl; lia|reflexivity].
    - constructor; [exact Hmap|constructor]. }
  exact (proj1 (X21_VerifyResourceEntitlements_layout_independent
                  Mem.double Mem.double (NewEntitlementsChecker [] "" true)
                  "pages" "foo" _ _ _ _ _ _ _ _ Hmap Hreq Hmap Hreq)).
Defined.

(** X22 (the identity read back).  The identity that
    [VerifyResourceEntitlements] builds from a resource type and a resource
    name without colons is split by [entitlementMatches] into exactly that
    type, that name and the verb "read".  It is therefore matched by the
    held strings of the same resource type whose verb is "read" or "all" and
    whose name is empty, "*" or the resource name; and when the resource
    name itself is empty or "*", by those with any name. *)
Theorem X22_identity_read_back (resource resourceName : string) :
  colon_free resource = true → colon_free resourceName = true →
  short_syntax (Split (identity_of resource resourceName))
  = [resource; resourceName; "read"]
  ∧ ∀ h,
      entitlementMatches h (identity_of resource resourceName) = true
      ↔ ∃ n v,
          short_syntax (Split h) = [resource; n; v]
          ∧ (v = "all" ∨ v = "read")
          ∧ (n = "" ∨ n = "*" ∨ resourceName = "" ∨ resourceName = "*"
             ∨ n = resourceName).
Proof.
  intros Hr Hn.
  assert (short_syntax (Split (identity_of resource resourceName))
          = [resource; resourceName; "read"]) as Hid.
  { unfold identity_of.
    by rewrite (Split_long resource resourceName "read" Hr Hn eq_refl
                  : Split (resource ++ ":" ++ resourceName ++ ":read") = _). }
  split; [done|]. intros h. rewrite entitlementMatches_inv. split.
  - intros [->|(res & n & v & n' & v' & Eh & Er & Hv & Hname)].
    + exists resourceName, "read". split; [done|]. split; [by right|].
      by do 4 right.
    + rewrite Hid in Er. injection Er as <- <- <-.
      exists n, v. by split.
  - intros (n & v & Eh & Hv & Hname). right.
    exists resource, n, v, resourceName, "read". by split.
Qed.

Lemma X22_identity_read_back_witness :
  short_syntax (Split (identity_of "pages" "/foo")) = ["pages"; "/foo"; "read"]
  ∧ (entitlementMatches "pages:/bar:read" (identity_of "pages" "")
     = true
     ↔ ∃ n v,
         short_syntax (Split "pages:/bar:read") = ["pages"; n; v]
         ∧ (v = "all" ∨ v = "read")
         ∧ (n = "" ∨ n = "*" ∨ "" = "" ∨ "" = "*" ∨ n = "")).
Proof.
  split.
  - apply (X22_identity_read_back "pages" "/foo"); reflexivity.
  - apply (proj2 (X22_identity_read_back "pages" "" eq_refl eq_refl)).
Defined.

(** X23 (nil lists stay nil).  The clone that [deepCloneEntitlements] makes
    of an entitlements map has the scheme keys of its argument, and under
    each key a nil slice where the argument holds a nil slice and a slice
    that is not nil where the argument holds one that is not nil, the empty
    ones included. *)
Theorem X23_deepCloneEntitlements_keeps_nil
    (σ : Mem.store) (a : Mem.loc) (E : gmap string (list string)) :
  Frame.map_at σ (Some a) (Some E) →
  ∃ c σ' obj obj',
    Mem.deepCloneEntitlements (Some a) σ = (Returned (Some c), σ')
    ∧ Mem.maps σ !! a = Some obj
    ∧ Mem.maps σ' !! c = Some obj'
    ∧ ∀ k, Mem.is_nil <$> obj' !! k = Mem.is_nil <$> obj !! k.
Proof. apply StoreLaws.deepCloneEntitlements_is_nil. Qed.

Lemma X23_deepCloneEntitlements_keeps_nil_witness :
  ∃ c σ' obj obj',
    Mem.deepCloneEntitlements (Some 0)
      (Mem.Store {[ 0 := [] ]}
         {[ 0 := {[ "empty" := Mem.Slice (Some 0) 0 0 0 ]} ]} ∅)
    = (Returned (Some c), σ')
    ∧ Mem.maps
        (Mem.Store {[ 0 := [] ]}
           {[ 0 := {[ "empty" := Mem.Slice (Some 0) 0 0 0 ]} ]} ∅) !! 0
      = Some obj
    ∧ Mem.maps σ' !! c = Some obj'
    ∧ ∀ k, Mem.is_nil <$> obj' !! k = Mem.is_nil <$> obj !! k.
Proof.
  apply (X23_deepCloneEntitlements_keeps_nil _ 0 {[ "empty" := [] ]}).
  exists {[ "empty" := Mem.Slice (Some 0) 0 0 0 ]}.
  split; [reflexivity|]. intros k.
  destruct (decide (k = "empty")) as [->|Hne].
  - rewrite !lookup_singleton_eq. constructor.
    exists []. split; [reflexivity|]. split; [simpl; lia|reflexivity].
  - rewrite !lookup_singleton_ne by done. constructor.
Defined.

(** * Properties of the one-argument version *)

Import LegacyFacts.

(** X24 (anonymous entitlements, one-argument version).  On a caller's
    mapping that is not nil, [VerifyEntitlements] of the one-argument
    version checks the requirements against a copy in which, when some
    list lacks some anonymous entitlement, the list under every scheme key
    has received the anonymous entitlements it lacked, once each; when no
    list lacks any, the empty mapping included, the anonymous entitlements
    are appended under the scheme "_" instead, also when the caller holds
    other scheme keys; and without anonymous entitlements the copy is the
    caller's mapping. *)
Theorem X24_legacy_anonymous_step (ec : Legacy.EntitlementsChecker)
    (m : gmap string (list string)) :
  ∃ w,
    Legacy.withAnonymous ec (Some m) = Returned (Some w)
    ∧ ((∃ k l a, m !! k = Some l ∧ a ∈ Legacy.anonymousEntitlements ec ∧ a ∉ l) →
       ∀ k, w !! k
            = (fun l => merge_anonymous l (Legacy.anonymousEntitlements ec))
              <$> (m !! k))
    ∧ ((∀ k l a, m !! k = Some l → a ∈ Legacy.anonymousEntitlements ec → a ∈ l) →
       Legacy.anonymousEntitlements ec ≠ [] →
       w = <["_" := default [] (m !! "_") ++ Legacy.anonymousEntitlements ec]> m)
    ∧ (Legacy.anonymousEntitlements ec = [] → w = m).
Proof.
  exists (legacy_working ec m). split; [apply legacy_withAnonymous_some|].
  unfold legacy_working. split; [|split].
  - intros H. apply lacks_any_true in H. rewrite H.
    intros k. by rewrite lookup_fmap.
  - intros H Hne.
    assert (lacks_any (Legacy.anonymousEntitlements ec) m = false) as ->.
    { destruct (lacks_any _ m) eqn:E; [|done].
      apply lacks_any_true in E as (k & l & a & Hk & Ha & Hl).
      destruct Hl. by eapply H. }
    by destruct (Legacy.anonymousEntitlements ec).
  - intros ->. done.
Qed.

Lemma X24_legacy_anonymous_step_witness :
  ∃ w, Legacy.withAnonymous (Legacy.NewEntitlementsChecker ["a"])
         (Some {[ "bearer" := ["a"] ]}) = Returned (Some w)
       ∧ w = <["_" := default [] (({[ "bearer" := ["a"] ]}
                                   : gmap string (list string)) !! "_")
                      ++ ["a"]]> {[ "bearer" := ["a"] ]}.
Proof.
  destruct (X24_legacy_anonymous_step (Legacy.NewEntitlementsChecker ["a"])
              {[ "bearer" := ["a"] ]}) as (w & Hw & _ & H & _).
  exists w. split; [exact Hw|]. apply H; [|discriminate].
  intros k l a Hk Ha. destruct (decide (k = "bearer")) as [->|Hne].
  - rewrite lookup_singleton_eq in Hk. by injection Hk as <-.
  - by rewrite lookup_singleton_ne in Hk.
Defined.

(** X25 (one scheme suffices, one-argument version).  [VerifyEntitlements]
    of the one-argument version returns true when the requirements list is
    empty, and otherwise exactly when some entry has some scheme key that
    the working mapping has too, with every string required under that key
    matched by a string held under it: the other scheme keys of the entry
    are not looked at.  The answer of the three nested loops does not depend
    on the order in which the working mapping is ranged over. *)
Theorem X25_legacy_one_scheme_suffices (ec : Legacy.EntitlementsChecker)
    (m : gmap string (list string)) (R : Requirements) :
  (∃ w, Legacy.withAnonymous ec (Some m) = Returned (Some w)
        ∧ (Legacy.VerifyEntitlements ec (Some m) R = Returned true
           ↔ R = [] ∨ one_scheme_satisfied (Some w) R))
  ∧ (∀ held order, order ≡ₚ map_range held →
       Legacy.schemes_any order R = true ↔ one_scheme_satisfied held R).
Proof.
  split.
  - exists (legacy_working ec m). split; [apply legacy_withAnonymous_some|].
    apply legacy_VerifyEntitlements_true.
  - intros held order HP. by apply schemes_any_spec.
Qed.

Lemma X25_legacy_one_scheme_suffices_witness :
  Legacy.schemes_any [("a", ["x"]); ("b", ["y"])]
    [Some {[ "b" := ["y"]; "c" := ["z"] ]}] = true
  ↔ one_scheme_satisfied (Some {[ "b" := ["y"]; "a" := ["x"] ]})
      [Some {[ "b" := ["y"]; "c" := ["z"] ]}].
Proof.
  apply (proj2 (X25_legacy_one_scheme_suffices
                  (Legacy.NewEntitlementsChecker []) ∅
                  [Some {[ "b" := ["y"]; "c" := ["z"] ]}])
           (Some {[ "b" := ["y"]; "a" := ["x"] ]})).
  unfold map_range.
  rewrite map_to_list_insert by (by rewrite lookup_singleton_ne).
  rewrite map_to_list_singleton. apply Permutation_swap.
Defined.

(** X26 (panics, one-argument version).  In the one-argument version,
    [VerifyEntitlements] panics exactly when the entitlements are the nil
    map, anonymous entitlements are configured and the requirements list is
    not empty; [VerifyResourceEntitlements] panics exactly when the
    entitlements are the nil map and anonymous entitlements are configured,
    whatever the requirements: a nil entry in the requirements is ranged
    over, never written to. *)
Theorem X26_legacy_panics_iff (ec : Legacy.EntitlementsChecker)
    (resource resourceName : string) (e : Entitlements) (R : Requirements) :
  (Legacy.VerifyEntitlements ec e R = Panicked
   ↔ e = None ∧ Legacy.anonymousEntitlements ec ≠ [] ∧ R ≠ [])
  ∧ (Legacy.VerifyResourceEntitlements ec resource resourceName e R = Panicked
     ↔ e = None ∧ Legacy.anonymousEntitlements ec ≠ []).
Proof.
  split; [apply legacy_VerifyEntitlements_panics|].
  rewrite legacy_VerifyResourceEntitlements_unfold.
  rewrite legacy_VerifyEntitlements_panics.
  pose proof (legacy_requirements_nonempty
                (identity_of resource resourceName) R).
  tauto.
Qed.

Lemma X26_legacy_panics_iff_witness :
  Legacy.VerifyResourceEntitlements (Legacy.NewEntitlementsChecker ["a"])
    "pages" "foo" None [None] = Panicked.
Proof.
  apply (proj2 (X26_legacy_panics_iff (Legacy.NewEntitlementsChecker ["a"])
                  "pages" "foo" None [None])).
  split; [reflexivity|discriminate].
Defined.

(** X27 (the two versions compared).  Without anonymous entitlements,
    [VerifyEntitlements] of [entitlements.go] is the stricter of the two
    versions on requirements whose entries all have a scheme key: whenever
    it returns true, so does the one-argument version.  On requirements
    whose entries have exactly one scheme key each, the two versions return
    the same answer; they part only where an entry has several keys, which
    [entitlements.go] asks for together and the one-argument version takes
    one at a time, and where an entry has none. *)
Theorem X27_versions_compared (ec : Go.EntitlementsChecker)
    (lec : Legacy.EntitlementsChecker) (e : Entitlements) (R : Requirements) :
  Go.anonymousEntitlements ec = [] →
  Legacy.anonymousEntitlements lec = [] →
  ((∀ entry, entry ∈ R → ∃ k, is_Some (map_get entry k)) →
   Go.VerifyEntitlements ec e R = Returned true →
   Legacy.VerifyEntitlements lec e R = Returned true)
  ∧ ((∀ entry, entry ∈ R → ∃ k l, entry = Some {[ k := l ]}) →
     Legacy.VerifyEntitlements lec e R = Go.VerifyEntitlements ec e R).
Proof.
  intros Hanon Hlanon.
  destruct (legacy_VerifyEntitlements_noanon lec e R Hlanon)
    as (b & Hb & Hiff).
  destruct (VerifyEntitlements_working ec e e R) as (b' & Hb' & Hiff').
  { by apply withAnonymous_none. }
  rewrite Hb, Hb'. split.
  - intros Hkeys [= ->]. f_equal. apply Hiff.
    destruct (proj1 Hiff' eq_refl) as [->|(entry & Hin & Hs)]; [by left|right].
    destruct (Hkeys entry Hin) as (k & required & Hk).
    destruct (Hs k required Hk) as (heldList & Hheld & Hall).
    by exists entry, k, heldList, required.
  - intros Hone. f_equal. apply eq_iff_eq_true.
    rewrite Hiff, Hiff'. split.
    + intros [->|(entry & k & heldList & required & Hin & Hheld & Hreq & Hall)];
        [by left|right].
      exists entry. split; [done|].
      destruct (Hone entry Hin) as (k' & l & ->).
      simpl in Hreq. apply lookup_singleton_Some in Hreq as [<- <-].
      apply entry_satisfied_singleton. eauto.
    + intros [->|(entry & Hin & Hs)]; [by left|right].
      destruct (Hone entry Hin) as (k & l & ->).
      apply entry_satisfied_singleton in Hs as (heldList & Hheld & Hall).
      exists (Some {[ k := l ]}), k, heldList, l.
      split; [done|]. split; [done|]. split; [|done].
      simpl. apply lookup_singleton_eq.
Qed.

Lemma X27_versions_compared_witness :
  Legacy.VerifyEntitlements (Legacy.NewEntitlementsChecker [])
    (Some {[ "bearer" := ["pages:all"] ]})
    [Some {[ "bearer" := ["pages:read"] ]}]
  = Go.VerifyEntitlements (Go.NewEntitlementsChecker [] "" false)
      (Some {[ "bearer" := ["pages:all"] ]})
      [Some {[ "bearer" := ["pages:read"] ]}].
Proof.
  apply (proj2 (X27_versions_compared
                  (Go.NewEntitlementsChecker [] "" false)
                  (Legacy.NewEntitlementsChecker [])
                  (Some {[ "bearer" := ["pages:all"] ]})
                  [Some {[ "bearer" := ["pages:read"] ]}]
                  eq_refl eq_refl)).
  intros entry ->%list_elem_of_singleton. by exists "bearer", ["pages:read"].
Defined.

(** X28 (identity requirement, one-argument version).  In the one-argument
    version, [VerifyResourceEntitlements] is [VerifyEntitlements] on
    requirements in which every list of every entry, under whatever scheme
    key, has received the identity "resource:resourceName:read" unless it
    held it already; when no list was extended (no requirements, entries
    without keys, or the identity required everywhere already), one more
    entry is appended that asks for the identity under the scheme "_". *)
Theorem X28_legacy_identity_step (ec : Legacy.EntitlementsChecker)
    (resource resourceName : string) (e : Entitlements) (R : Requirements) :
  ∃ R',
    Legacy.VerifyResourceEntitlements ec resource resourceName e R
    = Legacy.VerifyEntitlements ec e R'
    ∧ (∀ i, i < length R →
         R' !! i
         = (fun entry : StringsMap =>
              (fun m : gmap string (list string) =>
                 (fun l => if decide (identity_of resource resourceName ∈ l)
                           then l
                           else l ++ [identity_of resource resourceName])
                 <$> m) <$> entry)
           <$> R !! i)
    ∧ ((∃ entry k l, entry ∈ R ∧ map_get entry k = Some l
                     ∧ identity_of resource resourceName ∉ l) →
       length R' = length R)
    ∧ ((∀ entry k l, entry ∈ R → map_get entry k = Some l →
                     identity_of resource resourceName ∈ l) →
       R' !! length R
       = Some (Some {[ "_" := [identity_of resource resourceName] ]})
       ∧ length R' = S (length R)).
Proof.
  set (identity := identity_of resource resourceName).
  exists (legacy_requirements identity R).
  split; [apply legacy_VerifyResourceEntitlements_unfold|].
  assert (existsb (entry_lacks identity) R = true
          ↔ ∃ entry k l, entry ∈ R ∧ map_get entry k = Some l ∧ identity ∉ l)
    as Hlacks.
  { rewrite existsb_exists. split.
    - intros (entry & Hin%list_elem_of_In & Hl).
      destruct entry as [m|]; [|done]. simpl in Hl.
      apply lacks_true in Hl as (k & l & Hk & Hx). by exists (Some m), k, l.
    - intros (entry & k & l & Hin & Hk & Hx). exists entry.
      split; [by apply list_elem_of_In|].
      destruct entry as [m|]; [|done]. simpl. apply lacks_true. eauto. }
  unfold legacy_requirements. split; [|split].
  - intros i Hi. unfold Requirements in *.
    rewrite lookup_app_l by (by rewrite length_fmap).
    rewrite list_lookup_fmap. destruct (R !! i) as [entry|]; [|done].
    simpl. f_equal. destruct entry as [m|]; [|done]. simpl. f_equal.
    unfold extend. apply map_fmap_ext. intros k l _.
    destruct (Contains l identity) eqn:E.
    + apply Contains_true in E. by rewrite decide_True.
    + rewrite decide_False; [done|]. intros Hin.
      apply Contains_true in Hin. congruence.
  - intros H. apply Hlacks in H. rewrite H.
    by rewrite app_nil_r, length_fmap.
  - intros H.
    assert (existsb (entry_lacks identity) R = false) as ->.
    { destruct (existsb _ R) eqn:E; [|done].
      destruct (proj1 Hlacks eq_refl) as (entry & k & l & Hin & Hk & Hx).
      destruct Hx. by eapply H. }
    split.
    + unfold Requirements in *.
      rewrite lookup_app_r by (by rewrite length_fmap).
      by rewrite length_fmap, Nat.sub_diag.
    + rewrite length_app, length_fmap. simpl. lia.
Qed.

Lemma X28_legacy_identity_step_witness :
  ∃ R',
    Legacy.VerifyResourceEntitlements (Legacy.NewEntitlementsChecker [])
      "pages" "foo" (Some ∅) [Some {[ "bearer" := ["pages:foo:read"] ]}]
    = Legacy.VerifyEntitlements (Legacy.NewEntitlementsChecker []) (Some ∅) R'
    ∧ R' !! 1 = Some (Some {[ "_" := [identity_of "pages" "foo"] ]}).
Proof.
  destruct (X28_legacy_identity_step (Legacy.NewEntitlementsChecker [])
              "pages" "foo" (Some ∅)
              [Some {[ "bearer" := ["pages:foo:read"] ]}])
    as (R' & Hrun & _ & _ & H).
  exists R'. split; [exact Hrun|]. apply H.
  intros entry k l ->%list_elem_of_singleton Hk. simpl in Hk.
  apply lookup_singleton_Some in Hk as [<- <-]. by left.
Defined.
